(** * Gary: sorting step generator, playback controller and snapshot store

    A shallow embedding of
    - [clientapp/src/composables/useAlgorithmMapping.ts] (visual hints, step ids),
    - [clientapp/src/composables/useSortingAlgorithms.ts] (Bubble/Selection/Insertion),
    - the [SortingPlayer] class (playback state machine with its timers),
    - [clientapp/src/stores/sortingVisualization.ts] (session store and time travel),
    followed by the properties established about them.

    Conventions.  A JavaScript array of integers is a [list Z]; reading
    [data[j]] is [data !! j] ([None] is [undefined]); an in-range write
    [data[j] = v] is [<[j:=v]> data].  Mutable object fields are threaded
    explicitly.  Values read from the environment ([Date.now()],
    [Math.random()]) are parameters.  A value of the TypeScript type [number]
    that the caller chooses (a step index, a playback speed) is a
    [JS.number]: NaN, an infinity or a finite value; array elements and
    lengths are integers. *)

From Stdlib Require Import ZArith NArith QArith Qminmax Qround Ascii String List Sorted Permutation Lia.
From stdpp Require Import base option list sorting strings.

Local Open Scope string_scope.

(** ** JavaScript primitives used by the sources *)

Module JS.

(** The digits of [Number.prototype.toString(radix)], radix up to 36. *)
Definition digit_chars : string := "0123456789abcdefghijklmnopqrstuvwxyz".

Definition digit_char (d : N) : ascii :=
  match String.get (N.to_nat d) digit_chars with
  | Some c => c
  | None => "?"%char
  end.

(** Most significant digit first; [fuel] bounds the number of digits. *)
Fixpoint toString_aux (radix : N) (fuel : nat) (n : N) (acc : string) : string :=
  match fuel with
  | O => acc
  | S fuel' =>
      let acc' := String (digit_char (n mod radix)) acc in
      if (n / radix =? 0)%N then acc' else toString_aux radix fuel' (n / radix) acc'
  end.

(** [n.toString(radix)] for a non-negative integer [n]. *)
Definition N_toString (radix n : N) : string :=
  toString_aux radix (S (N.size_nat n)) n "".

(** [z.toString(radix)] for an integer [z]. *)
Definition Z_toString (radix : N) (z : Z) : string :=
  match z with
  | Zneg p => "-" +:+ N_toString radix (Npos p)
  | _ => N_toString radix (Z.to_N z)
  end.

Fixpoint repeat_char (k : nat) (c : ascii) : string :=
  match k with
  | O => ""
  | S k' => String c (repeat_char k' c)
  end.

(** [s.padStart(len, c)] with a one-character pad string. *)
Definition padStart (len : nat) (c : ascii) (s : string) : string :=
  repeat_char (len - String.length s) c +:+ s.

(** [s.replace(a, b)] with one-character strings: first occurrence only. *)
Fixpoint replace_first (a b : ascii) (s : string) : string :=
  match s with
  | EmptyString => EmptyString
  | String c r => if Ascii.eqb c a then String b r else String c (replace_first a b r)
  end.

Definition upper_char (c : ascii) : ascii :=
  let k := nat_of_ascii c in
  if (97 <=? k)%nat && (k <=? 122)%nat then ascii_of_nat (k - 32) else c.

Fixpoint toUpperCase (s : string) : string :=
  match s with
  | EmptyString => EmptyString
  | String c r => String (upper_char c) (toUpperCase r)
  end.

(** Interpolation [`${x}`] of an array element: an integer or [undefined]. *)
Definition show_elem (x : option Z) : string :=
  match x with
  | Some z => Z_toString 10 z
  | None => "undefined"
  end.

Definition show_nat (k : nat) : string := N_toString 10 (N.of_nat k).

(** [for (let i = lo; i < lo + count; i++) s = body(i, s)]. *)
Fixpoint for_loop {S : Type} (count lo : nat) (body : nat -> S -> S) (s : S) : S :=
  match count with
  | O => s
  | Datatypes.S c => for_loop c (Datatypes.S lo) body (body lo s)
  end.

(** The same loop with a [break]: the body returns [true] to leave it. *)
Fixpoint for_loop_break {S : Type} (count lo : nat)
    (body : nat -> S -> S * bool) (s : S) : S :=
  match count with
  | O => s
  | Datatypes.S c =>
      let r := body lo s in
      if r.2 then r.1 else for_loop_break c (Datatypes.S lo) body r.1
  end.

(** *** Numbers

    A JavaScript number is NaN, one of the two infinities or a finite value.
    Finite values are exact rationals: the rounding of a result to the nearest
    double is left out, and the two zeros are one value. *)
Inductive number := NaN | NegInf | Fin (q : Q) | PosInf.

Definition of_Z (z : Z) : number := Fin (inject_Z z).

Definition Qltb (x y : Q) : bool := negb (Qle_bool y x).

(** [a < b]: false as soon as an operand is NaN. *)
Definition lt (a b : number) : bool :=
  match a, b with
  | NaN, _ | _, NaN => false
  | _, NegInf => false
  | NegInf, _ => true
  | PosInf, _ => false
  | Fin _, PosInf => true
  | Fin x, Fin y => Qltb x y
  end.

(** [a <= b]: false as soon as an operand is NaN. *)
Definition le (a b : number) : bool :=
  match a, b with
  | NaN, _ | _, NaN => false
  | NegInf, _ => true
  | _, PosInf => true
  | Fin x, Fin y => Qle_bool x y
  | _, _ => false
  end.

(** [a > b] and [a >= b]. *)
Definition gt (a b : number) : bool := lt b a.
Definition ge (a b : number) : bool := le b a.

(** [a + b]. *)
Definition add (a b : number) : number :=
  match a, b with
  | NaN, _ | _, NaN => NaN
  | NegInf, PosInf | PosInf, NegInf => NaN
  | NegInf, _ | _, NegInf => NegInf
  | PosInf, _ | _, PosInf => PosInf
  | Fin x, Fin y => Fin (x + y)
  end.

(** [a - b]. *)
Definition sub (a b : number) : number :=
  match a, b with
  | NaN, _ | _, NaN => NaN
  | NegInf, NegInf | PosInf, PosInf => NaN
  | NegInf, _ | _, PosInf => NegInf
  | PosInf, _ | _, NegInf => PosInf
  | Fin x, Fin y => Fin (x - y)
  end.

(** [a / b]; the zero of the model counts as [+0]. *)
Definition div (a b : number) : number :=
  match a, b with
  | NaN, _ | _, NaN => NaN
  | (NegInf | PosInf), (NegInf | PosInf) => NaN
  | Fin _, (NegInf | PosInf) => Fin 0
  | PosInf, Fin y => if Qltb y 0 then NegInf else PosInf
  | NegInf, Fin y => if Qltb y 0 then PosInf else NegInf
  | Fin x, Fin y =>
      if Qeq_bool y 0
      then (if Qeq_bool x 0 then NaN else if Qltb x 0 then NegInf else PosInf)
      else Fin (x / y)
  end.

(** [Math.min(a, b)] and [Math.max(a, b)]: NaN as soon as an argument is. *)
Definition min (a b : number) : number :=
  match a, b with
  | NaN, _ | _, NaN => NaN
  | _, _ => if lt b a then b else a
  end.

Definition max (a b : number) : number :=
  match a, b with
  | NaN, _ | _, NaN => NaN
  | _, _ => if lt a b then b else a
  end.

(** The integer that a number is, if it is one. *)
Definition as_integer (x : number) : option Z :=
  match x with
  | Fin q => if Qeq_bool q (inject_Z (Qfloor q)) then Some (Qfloor q) else None
  | _ => None
  end.

Definition is_integer (x : number) : bool :=
  match as_integer x with
  | Some _ => true
  | None => false
  end.

Definition is_NaN (x : number) : bool :=
  match x with
  | NaN => true
  | _ => false
  end.

(** [a[x]] for an array [a] and a number [x]: an element only when [x] is a
    non-negative integer below the length, [undefined] for every other
    number (a fraction, a negative number, NaN, an infinity). *)
Definition index {A : Type} (a : list A) (x : number) : option A :=
  match as_integer x with
  | Some z => if (z <? 0)%Z then None else a !! Z.to_nat z
  | None => None
  end.

(** The text of a finite number that is not an integer, as in [`${1.5}`]:
    the shortest decimal that reads back as the same double.  Exact rationals
    do not determine it, so it is a parameter of the model, given the number
    in lowest terms. *)
Class NumberText := fraction_text : Q -> string.

(** Interpolation [`${x}`] of a number. *)
Definition show_number {NT : NumberText} (x : number) : string :=
  match x with
  | NaN => "NaN"
  | NegInf => "-Infinity"
  | PosInf => "Infinity"
  | Fin q =>
      match as_integer x with
      | Some z => Z_toString 10 z
      | None => fraction_text (Qred q)
      end
  end.

End JS.

(** ** useAlgorithmMapping.ts *)

Module Mapping.

Inductive OperationType := OpCompare | OpSwap | OpInsert | OpMerge.
Inductive AnimationType := highlight | slide | fade.

Record MappingEntry := {
  color : string;
  animation : AnimationType;
  duration : Z
}.

Record VisualizationMapping := {
  m_compare : MappingEntry;
  m_swap : MappingEntry;
  m_insert : MappingEntry;
  m_merge : MappingEntry;
  m_sorted : MappingEntry
}.

Definition defaultVisualizationMapping : VisualizationMapping := {|
  m_compare := {| color := "#3B82F6"; animation := highlight; duration := 300 |};
  m_swap := {| color := "#EF4444"; animation := slide; duration := 500 |};
  m_insert := {| color := "#10B981"; animation := fade; duration := 400 |};
  m_merge := {| color := "#F59E0B"; animation := slide; duration := 450 |};
  m_sorted := {| color := "#8B5CF6"; animation := fade; duration := 200 |}
|}.

Record Colors := { comparing : string; swapping : string; sorted : string }.

Record VisualHints := {
  animationType : AnimationType;
  vh_duration : Z;
  colors : Colors
}.

Definition mapping_at (mapping : VisualizationMapping) (t : OperationType) : MappingEntry :=
  match t with
  | OpCompare => m_compare mapping
  | OpSwap => m_swap mapping
  | OpInsert => m_insert mapping
  | OpMerge => m_merge mapping
  end.

Definition getVisualHints (operationType : OperationType) : VisualHints :=
  let mapping := defaultVisualizationMapping in
  let config := mapping_at mapping operationType in
  {| animationType := animation config;
     vh_duration := duration config;
     colors := {| comparing := color (m_compare mapping);
                  swapping := color (m_swap mapping);
                  sorted := color (m_sorted mapping) |} |}.

(** The three algorithms the factory accepts. *)
Inductive SortingAlgorithmType := bubble_sort | selection_sort | insertion_sort.

Definition type_name (t : SortingAlgorithmType) : string :=
  match t with
  | bubble_sort => "bubble-sort"
  | selection_sort => "selection-sort"
  | insertion_sort => "insertion-sort"
  end.

(** [createStepIdGenerator]: the closure's [prefix] and the id it returns
    once [counter] has been incremented to [counter'], [timestamp] being the
    value [Date.now()] had at that call. *)
Definition id_prefix (t : SortingAlgorithmType) : string :=
  JS.toUpperCase (JS.replace_first "-" "_" (type_name t)).

Definition make_step_id (prefix : string) (timestamp : Z) (counter' : nat) : string :=
  prefix +:+ "_" +:+ JS.Z_toString 36 timestamp +:+ "_"
    +:+ JS.padStart 4 "0" (JS.N_toString 16 (N.of_nat counter')).

End Mapping.

(** ** useSortingAlgorithms.ts *)

Module Sorting.
Import Mapping.

Record SortedRegion := { r_start : nat; r_end : nat }.

Record ArrayState := {
  data : list Z;
  highlightedIndices : list nat;
  comparisonPair : option (nat * nat);
  swapPair : option (nat * nat);
  sortedRegions : list SortedRegion
}.

Record Complexity := { time : string; space : string }.

Record OperationInfo := {
  op_type : OperationType;
  description : string;
  complexity : Complexity
}.

Record AlgorithmStep := {
  stepId : string;
  sequenceNumber : nat;
  arrayState : ArrayState;
  operation : OperationInfo;
  visualHints : VisualHints
}.

(** A thrown [new Error(message)]. *)
Record Error := { message : string }.

(** [throw new Error('無法對空陣列進行排序')]: the generator's rejection of an
    empty input (the specification's [InvalidInputError]). *)
Definition InvalidInputError : Error := {| message := "無法對空陣列進行排序" |}.

(** The fields of [abstract class SortingAlgorithm]; [idCounter] is the
    [counter] captured by the closure [stepIdGenerator]. *)
Record SortingAlgorithm := {
  algorithmType : SortingAlgorithmType;
  inputData : list Z;
  idCounter : nat;
  cur_sequenceNumber : nat;
  steps : list AlgorithmStep
}.

Definition new_SortingAlgorithm (t : SortingAlgorithmType) (input : list Z)
    : SortingAlgorithm :=
  {| algorithmType := t; inputData := input;
     idCounter := 0; cur_sequenceNumber := 0; steps := [] |}.

Section WithClock.

(** [Date_now k]: what [Date.now()] returns when the id generator is called
    for the [k]-th time. *)
Variable Date_now : nat -> Z.

(** [createStep]: the id generator runs first, then [++this.sequenceNumber]. *)
Definition createStep (a : ArrayState) (o : OperationInfo) (this : SortingAlgorithm)
    : AlgorithmStep * SortingAlgorithm :=
  let counter' := S (idCounter this) in
  let id := make_step_id (id_prefix (algorithmType this)) (Date_now counter') counter' in
  let seq' := S (cur_sequenceNumber this) in
  ({| stepId := id; sequenceNumber := seq';
      arrayState := a; operation := o;
      visualHints := getVisualHints (op_type o) |},
   {| algorithmType := algorithmType this; inputData := inputData this;
      idCounter := counter'; cur_sequenceNumber := seq'; steps := steps this |}).

(** [this.steps.push(this.createStep(a, o))]. *)
Definition push_step (a : ArrayState) (o : OperationInfo) (this : SortingAlgorithm)
    : SortingAlgorithm :=
  let r := createStep a o this in
  {| algorithmType := algorithmType r.2; inputData := inputData r.2;
     idCounter := idCounter r.2; cur_sequenceNumber := cur_sequenceNumber r.2;
     steps := steps r.2 ++ [r.1] |}.

Definition O1 : Complexity := {| time := "O(1)"; space := "O(1)" |}.
Definition On : Complexity := {| time := "O(n)"; space := "O(1)" |}.
Definition On2 : Complexity := {| time := "O(n²)"; space := "O(1)" |}.
Definition Oi : Complexity := {| time := "O(i)"; space := "O(1)" |}.

(** *** BubbleSort.sort *)

(** [i > 0 ? [{ start: n - i, end: n - 1 }] : []]. *)
Definition bubble_regions (n i : nat) : list SortedRegion :=
  if (0 <? i)%nat then [ {| r_start := n - i; r_end := n - 1 |} ] else [].

(** Body of [for (let j = 0; j < n - i - 1; j++)].  The comparison
    [data[j]! > data[j + 1]!] is false when an operand is [undefined]. *)
Definition bubble_inner (n i j : nat) (st : list Z * bool * SortingAlgorithm)
    : list Z * bool * SortingAlgorithm :=
  let '(data, hasSwapped, this) := st in
  let this :=
    push_step
      {| data := data; highlightedIndices := [j; j + 1];
         comparisonPair := Some (j, j + 1); swapPair := None;
         sortedRegions := bubble_regions n i |}
      {| op_type := OpCompare;
         description := "比較元素 " +:+ JS.show_elem (data !! j) +:+ " 和 "
                          +:+ JS.show_elem (data !! (j + 1));
         complexity := O1 |} this in
  match data !! j, data !! (j + 1) with
  | Some a, Some b =>
      if (b <? a)%Z then
        let this :=
          push_step
            {| data := data; highlightedIndices := [j; j + 1];
               comparisonPair := None; swapPair := Some (j, j + 1);
               sortedRegions := bubble_regions n i |}
            {| op_type := OpSwap;
               description := "交換元素 " +:+ JS.show_elem (data !! j) +:+ " 和 "
                                +:+ JS.show_elem (data !! (j + 1));
               complexity := O1 |} this in
        (<[j + 1 := a]> (<[j := b]> data), true, this)
      else (data, hasSwapped, this)
  | _, _ => (data, hasSwapped, this)
  end.

(** Body of [for (let i = 0; i < n - 1; i++)]; the flag is the [break]. *)
Definition bubble_outer (n i : nat) (st : list Z * SortingAlgorithm)
    : (list Z * SortingAlgorithm) * bool :=
  let '(data, hasSwapped, this) :=
    JS.for_loop (n - i - 1) 0 (bubble_inner n i) (st.1, false, st.2) in
  let this :=
    push_step
      {| data := data; highlightedIndices := [n - i - 1];
         comparisonPair := None; swapPair := None;
         sortedRegions := [ {| r_start := n - i - 1; r_end := n - 1 |} ] |}
      {| op_type := OpCompare;
         description := "第 " +:+ JS.show_nat (i + 1) +:+ " 輪完成，元素 "
                          +:+ JS.show_elem (data !! (n - i - 1)) +:+ " 已到達正確位置";
         complexity := On |} this in
  ((data, this), negb hasSwapped).

Definition BubbleSort_sort (this : SortingAlgorithm)
    : (Error + list AlgorithmStep) * SortingAlgorithm :=
  let data := inputData this in
  let n := length data in
  if (n =? 0)%nat then (inl InvalidInputError, this)
  else
    let '(data, this) := JS.for_loop_break (n - 1) 0 (bubble_outer n) (data, this) in
    let this :=
      push_step
        {| data := data; highlightedIndices := [];
           comparisonPair := None; swapPair := None;
           sortedRegions := [ {| r_start := 0; r_end := n - 1 |} ] |}
        {| op_type := OpCompare; description := "氣泡排序完成"; complexity := On2 |}
        this in
    (inr (steps this), this).

(** *** SelectionSort.sort *)

(** [i > 0 ? [{ start: 0, end: i - 1 }] : []]. *)
Definition selection_regions (i : nat) : list SortedRegion :=
  if (0 <? i)%nat then [ {| r_start := 0; r_end := i - 1 |} ] else [].

(** Body of [for (let j = i + 1; j < n; j++)]; the array is only read. *)
Definition selection_inner (data : list Z) (i j : nat) (st : nat * SortingAlgorithm)
    : nat * SortingAlgorithm :=
  let '(minIndex, this) := st in
  let this :=
    push_step
      {| data := data; highlightedIndices := [minIndex; j];
         comparisonPair := Some (minIndex, j); swapPair := None;
         sortedRegions := selection_regions i |}
      {| op_type := OpCompare;
         description := "比較最小值候選 " +:+ JS.show_elem (data !! minIndex) +:+ " 與 "
                          +:+ JS.show_elem (data !! j);
         complexity := O1 |} this in
  match data !! j, data !! minIndex with
  | Some a, Some b =>
      if (a <? b)%Z then
        let minIndex := j in
        let this :=
          push_step
            {| data := data; highlightedIndices := [minIndex];
               comparisonPair := None; swapPair := None;
               sortedRegions := selection_regions i |}
            {| op_type := OpCompare;
               description := "找到新的最小值: " +:+ JS.show_elem (data !! minIndex);
               complexity := O1 |} this in
        (minIndex, this)
      else (minIndex, this)
  | _, _ => (minIndex, this)
  end.

(** Body of [for (let i = 0; i < n - 1; i++)].  Both [i] and [minIndex]
    are below [n], so the two reads of the exchange are defined. *)
Definition selection_outer (n i : nat) (st : list Z * SortingAlgorithm)
    : list Z * SortingAlgorithm :=
  let '(data, this) := st in
  let '(minIndex, this) :=
    JS.for_loop (n - (i + 1)) (i + 1) (selection_inner data i) (i, this) in
  let '(data, this) :=
    if (minIndex =? i)%nat then (data, this)
    else
      let this :=
        push_step
          {| data := data; highlightedIndices := [i; minIndex];
             comparisonPair := None; swapPair := Some (i, minIndex);
             sortedRegions := selection_regions i |}
          {| op_type := OpSwap;
             description := "將最小值 " +:+ JS.show_elem (data !! minIndex)
                              +:+ " 交換到位置 " +:+ JS.show_nat i;
             complexity := O1 |} this in
      match data !! i, data !! minIndex with
      | Some temp, Some m => (<[minIndex := temp]> (<[i := m]> data), this)
      | _, _ => (data, this)
      end in
  let this :=
    push_step
      {| data := data; highlightedIndices := [i];
         comparisonPair := None; swapPair := None;
         sortedRegions := [ {| r_start := 0; r_end := i |} ] |}
      {| op_type := OpCompare;
         description := "位置 " +:+ JS.show_nat i +:+ " 的元素 "
                          +:+ JS.show_elem (data !! i) +:+ " 已確定";
         complexity := On |} this in
  (data, this).

Definition SelectionSort_sort (this : SortingAlgorithm)
    : (Error + list AlgorithmStep) * SortingAlgorithm :=
  let data := inputData this in
  let n := length data in
  if (n =? 0)%nat then (inl InvalidInputError, this)
  else
    let '(data, this) := JS.for_loop (n - 1) 0 (selection_outer n) (data, this) in
    let this :=
      push_step
        {| data := data; highlightedIndices := [];
           comparisonPair := None; swapPair := None;
           sortedRegions := [ {| r_start := 0; r_end := n - 1 |} ] |}
        {| op_type := OpCompare; description := "選擇排序完成"; complexity := On2 |}
        this in
    (inr (steps this), this).

(** *** InsertionSort.sort *)

(** [while (j >= 0 && data[j]! > key)] with [k = j + 1]: [k = 0] is
    [j = -1].  The write [data[j + 1] = data[j]!] is in range because
    [j + 1 <= i < n].  Returns the value of [j + 1] on exit. *)
Fixpoint insertion_while (i : nat) (key : Z) (k : nat) (st : list Z * SortingAlgorithm)
    : nat * (list Z * SortingAlgorithm) :=
  match k with
  | O => (O, st)
  | S j =>
      match st.1 !! j with
      | Some a =>
          if (key <? a)%Z then
            let this :=
              push_step
                {| data := st.1; highlightedIndices := [j; j + 1];
                   comparisonPair := Some (j, j + 1); swapPair := None;
                   sortedRegions := [ {| r_start := 0; r_end := i |} ] |}
                {| op_type := OpCompare;
                   description := "比較 " +:+ JS.show_elem (st.1 !! j) +:+ " 與 "
                                    +:+ JS.show_elem (Some key) +:+ "，需要右移";
                   complexity := O1 |} st.2 in
            let data := <[j + 1 := a]> st.1 in
            let this :=
              push_step
                {| data := data; highlightedIndices := [j + 1];
                   comparisonPair := None; swapPair := None;
                   sortedRegions := [ {| r_start := 0; r_end := i |} ] |}
                {| op_type := OpInsert;
                   description := "將 " +:+ JS.show_elem (data !! (j + 1)) +:+ " 右移一位";
                   complexity := O1 |} this in
            insertion_while i key j (data, this)
          else (k, st)
      | None => (k, st)
      end
  end.

(** Body of [for (let i = 1; i < n; i++)]; [i < n], so [data[i]] is defined. *)
Definition insertion_outer (i : nat) (st : list Z * SortingAlgorithm)
    : list Z * SortingAlgorithm :=
  match st.1 !! i with
  | Some key =>
      let this :=
        push_step
          {| data := st.1; highlightedIndices := [i];
             comparisonPair := None; swapPair := None;
             sortedRegions := [ {| r_start := 0; r_end := i - 1 |} ] |}
          {| op_type := OpCompare;
             description := "取出元素 " +:+ JS.show_elem (Some key)
                              +:+ "，準備插入到已排序區域";
             complexity := O1 |} st.2 in
      let r := insertion_while i key i (st.1, this) in
      let k := r.1 in
      let data := <[k := key]> r.2.1 in
      let this :=
        push_step
          {| data := data; highlightedIndices := [k];
             comparisonPair := None; swapPair := None;
             sortedRegions := [ {| r_start := 0; r_end := i |} ] |}
          {| op_type := OpInsert;
             description := "將 " +:+ JS.show_elem (Some key) +:+ " 插入到位置 "
                              +:+ JS.show_nat k;
             complexity := O1 |} r.2.2 in
      let this :=
        push_step
          {| data := data; highlightedIndices := [];
             comparisonPair := None; swapPair := None;
             sortedRegions := [ {| r_start := 0; r_end := i |} ] |}
          {| op_type := OpCompare;
             description := "第 " +:+ JS.show_nat i +:+ " 輪完成，前 "
                              +:+ JS.show_nat (i + 1) +:+ " 個元素已排序";
             complexity := Oi |} this in
      (data, this)
  | None => st
  end.

Definition InsertionSort_sort (this : SortingAlgorithm)
    : (Error + list AlgorithmStep) * SortingAlgorithm :=
  let data := inputData this in
  let n := length data in
  if (n =? 0)%nat then (inl InvalidInputError, this)
  else
    let '(data, this) := JS.for_loop (n - 1) 1 insertion_outer (data, this) in
    let this :=
      push_step
        {| data := data; highlightedIndices := [];
           comparisonPair := None; swapPair := None;
           sortedRegions := [ {| r_start := 0; r_end := n - 1 |} ] |}
        {| op_type := OpCompare; description := "插入排序完成"; complexity := On2 |}
        this in
    (inr (steps this), this).

(** *** SortingAlgorithmFactory *)

Definition sort (this : SortingAlgorithm)
    : (Error + list AlgorithmStep) * SortingAlgorithm :=
  match algorithmType this with
  | bubble_sort => BubbleSort_sort this
  | selection_sort => SelectionSort_sort this
  | insertion_sort => InsertionSort_sort this
  end.

Definition generateSteps (t : SortingAlgorithmType) (input : list Z)
    : Error + list AlgorithmStep :=
  (sort (new_SortingAlgorithm t input)).1.

End WithClock.

(** *** Remaining members of [SortingAlgorithm] *)

(** [getSteps]. *)
Definition getSteps (this : SortingAlgorithm) : list AlgorithmStep := steps this.

(** [reset]: both counters restart (a fresh id generator is created) and the
    step list is emptied. *)
Definition reset (this : SortingAlgorithm) : SortingAlgorithm :=
  {| algorithmType := algorithmType this; inputData := inputData this;
     idCounter := 0; cur_sequenceNumber := 0; steps := [] |}.

(** *** AlgorithmValidator *)

(** [[...original].sort((a, b) => a - b)]: the ascending arrangement of the
    integers of [original]. *)
Definition sort_numeric (original : list Z) : list Z := merge_sort Z.le original.

(** [validateSortResult]: the two [JSON.stringify] texts of arrays of integers
    agree exactly when the arrays do. *)
Definition validateSortResult (original : list Z) (stps : list AlgorithmStep) : bool :=
  if (length stps =? 0)%nat then false
  else
    match last stps with
    | Some finalStep =>
        let sortedData := data (arrayState finalStep) in
        let expectedSorted := sort_numeric original in
        bool_decide (sortedData = expectedSorted)
    | None => false
    end.

(** The loop of [validateStepSequence] from index [i] on: [false] at the
    first step whose sequence number is not [i + 1]. *)
Fixpoint check_sequence (i : nat) (stps : list AlgorithmStep) : bool :=
  match stps with
  | [] => true
  | step :: rest =>
      if negb (sequenceNumber step =? i + 1)%nat then false
      else check_sequence (S i) rest
  end.

(** [validateStepSequence]; [new Set(ids).size] is the number of distinct ids. *)
Definition validateStepSequence (stps : list AlgorithmStep) : bool :=
  if (length stps =? 0)%nat then false
  else if negb (check_sequence 0 stps) then false
  else if negb (length (remove_dups (map stepId stps)) =? length stps)%nat then false
  else true.

End Sorting.

(** ** The SortingPlayer class (playback controller)

    The object's fields and the browser's timer table are kept in one record.
    Rendering ([renderCurrentStep]) and the [PlayerEvents] callbacks observe the
    player without changing its fields and are left out; the callbacks are
    assumed not to call back into the player. *)

Module Player.
Import Sorting.

Inductive PlayerState := idle | playing | paused | completed.

Definition PlayerState_eqb (a b : PlayerState) : bool :=
  match a, b with
  | idle, idle | playing, playing | paused, paused | completed, completed => true
  | _, _ => false
  end.

Record PlayerConfig := {
  autoPlay : bool;
  playbackSpeed : JS.number;
  loopMode : bool;
  showStepInfo : bool
}.

Definition defaultPlayerConfig : PlayerConfig :=
  {| autoPlay := false; playbackSpeed := JS.Fin 1; loopMode := false;
     showStepInfo := true |}.

(** The two functions handed to [setTimeout]: the arrow function of
    [scheduleNextStep] and the one of [complete]. *)
Inductive Callback := AdvanceCallback | RestartCallback.

#[global] Instance Callback_eq_dec : EqDecision Callback.
Proof. solve_decision. Defined.

(** A pending timer: its handle, the [delay] passed to [setTimeout] and the
    time at which it expires. *)
Record Timer := {
  handle : nat;
  delay : JS.number;
  due : Q;
  callback : Callback
}.

Record World := {
  (* fields of SortingPlayer *)
  steps : list AlgorithmStep;
  currentStepIndex : JS.number;
  state : PlayerState;
  playTimer : option nat;
  config : PlayerConfig;
  (* the browser: current time in ms, pending timers, next timer handle *)
  clock : Q;
  timers : list Timer;
  nextHandle : nat
}.

Definition new_SortingPlayer (playerConfig : PlayerConfig) : World :=
  {| steps := []; currentStepIndex := JS.of_Z 0; state := idle; playTimer := None;
     config := playerConfig; clock := 0%Q; timers := []; nextHandle := 1 |}.

Definition set_steps (l : list AlgorithmStep) (w : World) : World :=
  {| steps := l; currentStepIndex := currentStepIndex w; state := state w;
     playTimer := playTimer w; config := config w;
     clock := clock w; timers := timers w; nextHandle := nextHandle w |}.

Definition set_currentStepIndex (i : JS.number) (w : World) : World :=
  {| steps := steps w; currentStepIndex := i; state := state w;
     playTimer := playTimer w; config := config w;
     clock := clock w; timers := timers w; nextHandle := nextHandle w |}.

(** [setState]: assigns the field (and notifies [onStateChange] on a change). *)
Definition setState (newState : PlayerState) (w : World) : World :=
  {| steps := steps w; currentStepIndex := currentStepIndex w; state := newState;
     playTimer := playTimer w; config := config w;
     clock := clock w; timers := timers w; nextHandle := nextHandle w |}.

Definition set_playTimer (t : option nat) (w : World) : World :=
  {| steps := steps w; currentStepIndex := currentStepIndex w; state := state w;
     playTimer := t; config := config w;
     clock := clock w; timers := timers w; nextHandle := nextHandle w |}.

Definition set_config (c : PlayerConfig) (w : World) : World :=
  {| steps := steps w; currentStepIndex := currentStepIndex w; state := state w;
     playTimer := playTimer w; config := c;
     clock := clock w; timers := timers w; nextHandle := nextHandle w |}.

Definition set_clock (t : Q) (w : World) : World :=
  {| steps := steps w; currentStepIndex := currentStepIndex w; state := state w;
     playTimer := playTimer w; config := config w;
     clock := t; timers := timers w; nextHandle := nextHandle w |}.

Definition set_timers (l : list Timer) (w : World) : World :=
  {| steps := steps w; currentStepIndex := currentStepIndex w; state := state w;
     playTimer := playTimer w; config := config w;
     clock := clock w; timers := l; nextHandle := nextHandle w |}.

(** The time [setTimeout] waits for a delay [d]: a negative delay counts as
    0, and so do NaN and the infinities. *)
Definition timeout_delay (d : JS.number) : Q :=
  match d with
  | JS.Fin q => Qmax 0 q
  | _ => 0%Q
  end.

(** [window.setTimeout(cb, d)]; returns the fresh handle. *)
Definition setTimeout (cb : Callback) (d : JS.number) (w : World) : nat * World :=
  let h := nextHandle w in
  let t := {| handle := h; delay := d; due := (clock w + timeout_delay d)%Q;
              callback := cb |} in
  (h, {| steps := steps w; currentStepIndex := currentStepIndex w; state := state w;
         playTimer := playTimer w; config := config w;
         clock := clock w; timers := timers w ++ [t]; nextHandle := S h |}).

(** [clearTimeout(h)]. *)
Definition clearTimeout (h : nat) (w : World) : World :=
  set_timers (filter (fun t => handle t <> h) (timers w)) w.

Definition baseDelay : Q := 600%Q.

(** [scheduleNextStep]: the handle of the new timer overwrites [playTimer]. *)
Definition scheduleNextStep (w : World) : World :=
  if negb (PlayerState_eqb (state w) playing) then w
  else
    let d := JS.div (JS.Fin baseDelay) (playbackSpeed (config w)) in
    let r := setTimeout AdvanceCallback d w in
    set_playTimer (Some r.1) r.2.

Definition clearTimer (w : World) : World :=
  match playTimer w with
  | Some h => set_playTimer None (clearTimeout h w)
  | None => w
  end.

(** [complete]: the handle of the restart timer is not kept. *)
Definition complete (w : World) : World :=
  let w := clearTimer w in
  let w := setState completed w in
  if loopMode (config w) then (setTimeout RestartCallback (JS.Fin 1000) w).2 else w.

Definition reset (w : World) : World :=
  setState idle (set_currentStepIndex (JS.of_Z 0) w).

Definition play (w : World) : World :=
  if PlayerState_eqb (state w) playing then w
  else
    let w := if PlayerState_eqb (state w) completed && loopMode (config w)
             then reset w else w in
    scheduleNextStep (setState playing w).

Definition pause (w : World) : World :=
  if negb (PlayerState_eqb (state w) playing) then w
  else clearTimer (setState paused w).

Definition stop (w : World) : World := reset (pause w).

Definition nextStep (w : World) : World :=
  if JS.lt (currentStepIndex w) (JS.of_Z (Z.of_nat (length (steps w)) - 1))
  then set_currentStepIndex (JS.add (currentStepIndex w) (JS.of_Z 1)) w
  else complete w.

Definition previousStep (w : World) : World :=
  if JS.gt (currentStepIndex w) (JS.of_Z 0)
  then set_currentStepIndex (JS.sub (currentStepIndex w) (JS.of_Z 1)) w
  else w.

Section WithNumberText.
Context {NT : JS.NumberText}.

Definition err_index (stepIndex : JS.number) : Error :=
  {| message := "步驟索引超出範圍: " +:+ JS.show_number stepIndex |}.

(** [jumpToStep]: the two comparisons are all that is asked of [stepIndex]. *)
Definition jumpToStep (stepIndex : JS.number) (w : World) : option Error * World :=
  if JS.lt stepIndex (JS.of_Z 0)
     || JS.ge stepIndex (JS.of_Z (Z.of_nat (length (steps w))))
  then (Some (err_index stepIndex), w)
  else (None, set_currentStepIndex stepIndex w).

End WithNumberText.

Definition err_speed : Error := {| message := "播放速度必須在 0.1x 到 5.0x 之間" |}.

Definition setPlaybackSpeed (speed : JS.number) (w : World) : option Error * World :=
  if JS.lt speed (JS.Fin (1 # 10)) || JS.gt speed (JS.Fin 5) then (Some err_speed, w)
  else
    let c := config w in
    let w := set_config {| autoPlay := autoPlay c; playbackSpeed := speed;
                           loopMode := loopMode c; showStepInfo := showStepInfo c |} w in
    (None,
     if PlayerState_eqb (state w) playing then scheduleNextStep (clearTimer w) else w).

Definition setLoopMode (enabled : bool) (w : World) : World :=
  let c := config w in
  set_config {| autoPlay := autoPlay c; playbackSpeed := playbackSpeed c;
                loopMode := enabled; showStepInfo := showStepInfo c |} w.

Definition err_empty_steps : Error := {| message := "步驟序列不能為空" |}.

(** [loadSteps]; [None] is a [null] argument. *)
Definition loadSteps (arg : option (list AlgorithmStep)) (w : World) : option Error * World :=
  match arg with
  | None => (Some err_empty_steps, w)
  | Some l =>
      if (length l =? 0)%nat then (Some err_empty_steps, w)
      else
        let w := setState idle (set_currentStepIndex (JS.of_Z 0) (set_steps l w)) in
        (None, if autoPlay (config w) then play w else w)
  end.

Definition cleanup (w : World) : World :=
  setState idle (set_steps [] (clearTimer w)).

(** What a timer does when it fires. *)
Definition run_callback (cb : Callback) (w : World) : World :=
  match cb with
  | AdvanceCallback =>
      let w := nextStep w in
      if PlayerState_eqb (state w) playing then scheduleNextStep w else w
  | RestartCallback => play (reset w)
  end.

(** The public methods of the class. *)
Inductive Method :=
| m_loadSteps (arg : option (list AlgorithmStep))
| m_play | m_pause | m_stop | m_reset
| m_nextStep | m_previousStep
| m_jumpToStep (stepIndex : JS.number)
| m_setPlaybackSpeed (speed : JS.number)
| m_setLoopMode (enabled : bool)
| m_cleanup.

Section Events.
Context {NT : JS.NumberText}.

Definition call (m : Method) (w : World) : option Error * World :=
  match m with
  | m_loadSteps arg => loadSteps arg w
  | m_play => (None, play w)
  | m_pause => (None, pause w)
  | m_stop => (None, stop w)
  | m_reset => (None, reset w)
  | m_nextStep => (None, nextStep w)
  | m_previousStep => (None, previousStep w)
  | m_jumpToStep i => jumpToStep i w
  | m_setPlaybackSpeed x => setPlaybackSpeed x w
  | m_setLoopMode b => (None, setLoopMode b w)
  | m_cleanup => (None, cleanup w)
  end.

(** What can happen to a player: a method call by the application, time
    passing, or a pending timer running.  [step_event] lets any pending timer
    run; [on_time] below singles out the runs in which timers behave as in a
    browser. *)
Inductive Event :=
| Call (m : Method)
| Elapse (dt : Q)
| TimerFires (h : nat).

Definition find_timer (h : nat) (w : World) : option Timer :=
  List.find (fun t => Nat.eqb (handle t) h) (timers w).

Definition step_event (e : Event) (w : World) : option World :=
  match e with
  | Call m => Some (call m w).2
  | Elapse dt => if Qle_bool 0%Q dt then Some (set_clock (clock w + dt)%Q w) else None
  | TimerFires h =>
      match find_timer h w with
      | Some t => Some (run_callback (callback t) (clearTimeout h w))
      | None => None
      end
  end.

Fixpoint run (evs : list Event) (w : World) : option World :=
  match evs with
  | [] => Some w
  | e :: evs' =>
      match step_event e w with
      | Some w' => run evs' w'
      | None => None
      end
  end.

(** Timer [h] has expired and no pending timer expires strictly earlier. *)
Definition expired_first (h : nat) (w : World) : bool :=
  match find_timer h w with
  | Some t =>
      Qle_bool (due t) (clock w)
      && forallb (fun t' => Qle_bool (due t) (due t')) (timers w)
  | None => false
  end.

(** A run in which every timer that runs has expired and is the first due. *)
Fixpoint on_time (evs : list Event) (w : World) : bool :=
  match evs with
  | [] => true
  | e :: evs' =>
      match e with
      | TimerFires h => expired_first h w
      | _ => true
      end
      && match step_event e w with
         | Some w' => on_time evs' w'
         | None => false
         end
  end.

End Events.

(** The advances that are scheduled: pending timers that will call [nextStep]. *)
Definition pendingAdvances (w : World) : list Timer :=
  filter (fun t => callback t = AdvanceCallback) (timers w).

(** [this.steps[this.currentStepIndex]]. *)
Definition currentStep (w : World) : option AlgorithmStep :=
  JS.index (steps w) (currentStepIndex w).

(** [getState]. *)
Definition getState (w : World) : PlayerState := state w.

(** The object returned by [getCurrentStepInfo]. *)
Record StepInfo := {
  info_currentStep : JS.number;
  info_totalSteps : Z;
  info_step : option AlgorithmStep;
  info_progress : JS.number
}.

Definition getCurrentStepInfo (w : World) : StepInfo :=
  let total := Z.of_nat (length (steps w)) in
  {| info_currentStep := currentStepIndex w;
     info_totalSteps := total;
     info_step := currentStep w;
     info_progress :=
       if (0 <? total)%Z
       then JS.div (JS.add (currentStepIndex w) (JS.of_Z 1)) (JS.of_Z total)
       else JS.of_Z 0 |}.



End Player.

(** ** stores/sortingVisualization.ts *)

Module Store.
Import Mapping Sorting.
Import Player (PlayerState, idle, playing, paused, completed, PlayerState_eqb).

Record SnapshotState := {
  s_currentData : list Z;
  s_currentStep : JS.number;
  s_playerState : PlayerState;
  s_selectedAlgorithm : SortingAlgorithmType;
  s_steps : list AlgorithmStep
}.

Record TimelineSnapshot := {
  id : string;
  timestamp : Z;
  snap_description : string;
  snap_state : SnapshotState
}.

(** The refs of the store that the modelled actions read or write;
    [config_playbackSpeed] is [config.value.playbackSpeed]. *)
Record Store := {
  selectedAlgorithm : SortingAlgorithmType;
  originalData : list Z;
  currentData : list Z;
  steps : list AlgorithmStep;
  playerState : PlayerState;
  currentStep : JS.number;
  playbackSpeed : JS.number;
  config_playbackSpeed : JS.number;
  errorMessage : string;
  timeline : list TimelineSnapshot;
  currentSnapshotIndex : Z;
  isTimeTravel : bool
}.

(** [const maxSnapshots = ref(100)]; never reassigned. *)
Definition maxSnapshots : nat := 100.

Definition initial : Store :=
  {| selectedAlgorithm := bubble_sort;
     originalData := [64; 34; 25; 12; 22; 11; 90]%Z;
     currentData := [64; 34; 25; 12; 22; 11; 90]%Z;
     steps := []; playerState := idle; currentStep := JS.of_Z 0;
     playbackSpeed := JS.Fin 1; config_playbackSpeed := JS.Fin 1; errorMessage := "";
     timeline := []; currentSnapshotIndex := (-1)%Z; isTimeTravel := false |}.

Definition set_selectedAlgorithm (v : SortingAlgorithmType) (st : Store) : Store :=
  {| selectedAlgorithm := v; originalData := originalData st;
     currentData := currentData st; steps := steps st; playerState := playerState st;
     currentStep := currentStep st; playbackSpeed := playbackSpeed st;
     config_playbackSpeed := config_playbackSpeed st; errorMessage := errorMessage st;
     timeline := timeline st; currentSnapshotIndex := currentSnapshotIndex st;
     isTimeTravel := isTimeTravel st |}.

Definition set_originalData (v : list Z) (st : Store) : Store :=
  {| selectedAlgorithm := selectedAlgorithm st; originalData := v;
     currentData := currentData st; steps := steps st; playerState := playerState st;
     currentStep := currentStep st; playbackSpeed := playbackSpeed st;
     config_playbackSpeed := config_playbackSpeed st; errorMessage := errorMessage st;
     timeline := timeline st; currentSnapshotIndex := currentSnapshotIndex st;
     isTimeTravel := isTimeTravel st |}.

Definition set_currentData (v : list Z) (st : Store) : Store :=
  {| selectedAlgorithm := selectedAlgorithm st; originalData := originalData st;
     currentData := v; steps := steps st; playerState := playerState st;
     currentStep := currentStep st; playbackSpeed := playbackSpeed st;
     config_playbackSpeed := config_playbackSpeed st; errorMessage := errorMessage st;
     timeline := timeline st; currentSnapshotIndex := currentSnapshotIndex st;
     isTimeTravel := isTimeTravel st |}.

Definition set_steps (v : list AlgorithmStep) (st : Store) : Store :=
  {| selectedAlgorithm := selectedAlgorithm st; originalData := originalData st;
     currentData := currentData st; steps := v; playerState := playerState st;
     currentStep := currentStep st; playbackSpeed := playbackSpeed st;
     config_playbackSpeed := config_playbackSpeed st; errorMessage := errorMessage st;
     timeline := timeline st; currentSnapshotIndex := currentSnapshotIndex st;
     isTimeTravel := isTimeTravel st |}.

Definition set_playerState (v : PlayerState) (st : Store) : Store :=
  {| selectedAlgorithm := selectedAlgorithm st; originalData := originalData st;
     currentData := currentData st; steps := steps st; playerState := v;
     currentStep := currentStep st; playbackSpeed := playbackSpeed st;
     config_playbackSpeed := config_playbackSpeed st; errorMessage := errorMessage st;
     timeline := timeline st; currentSnapshotIndex := currentSnapshotIndex st;
     isTimeTravel := isTimeTravel st |}.

Definition set_currentStep (v : JS.number) (st : Store) : Store :=
  {| selectedAlgorithm := selectedAlgorithm st; originalData := originalData st;
     currentData := currentData st; steps := steps st; playerState := playerState st;
     currentStep := v; playbackSpeed := playbackSpeed st;
     config_playbackSpeed := config_playbackSpeed st; errorMessage := errorMessage st;
     timeline := timeline st; currentSnapshotIndex := currentSnapshotIndex st;
     isTimeTravel := isTimeTravel st |}.

Definition set_playbackSpeed (v : JS.number) (st : Store) : Store :=
  {| selectedAlgorithm := selectedAlgorithm st; originalData := originalData st;
     currentData := currentData st; steps := steps st; playerState := playerState st;
     currentStep := currentStep st; playbackSpeed := v;
     config_playbackSpeed := config_playbackSpeed st; errorMessage := errorMessage st;
     timeline := timeline st; currentSnapshotIndex := currentSnapshotIndex st;
     isTimeTravel := isTimeTravel st |}.

Definition set_config_playbackSpeed (v : JS.number) (st : Store) : Store :=
  {| selectedAlgorithm := selectedAlgorithm st; originalData := originalData st;
     currentData := currentData st; steps := steps st; playerState := playerState st;
     currentStep := currentStep st; playbackSpeed := playbackSpeed st;
     config_playbackSpeed := v; errorMessage := errorMessage st; timeline := timeline st;
     currentSnapshotIndex := currentSnapshotIndex st; isTimeTravel := isTimeTravel st |}.

Definition set_errorMessage (v : string) (st : Store) : Store :=
  {| selectedAlgorithm := selectedAlgorithm st; originalData := originalData st;
     currentData := currentData st; steps := steps st; playerState := playerState st;
     currentStep := currentStep st; playbackSpeed := playbackSpeed st;
     config_playbackSpeed := config_playbackSpeed st; errorMessage := v;
     timeline := timeline st; currentSnapshotIndex := currentSnapshotIndex st;
     isTimeTravel := isTimeTravel st |}.

Definition set_timeline (v : list TimelineSnapshot) (st : Store) : Store :=
  {| selectedAlgorithm := selectedAlgorithm st; originalData := originalData st;
     currentData := currentData st; steps := steps st; playerState := playerState st;
     currentStep := currentStep st; playbackSpeed := playbackSpeed st;
     config_playbackSpeed := config_playbackSpeed st; errorMessage := errorMessage st;
     timeline := v; currentSnapshotIndex := currentSnapshotIndex st;
     isTimeTravel := isTimeTravel st |}.

Definition set_currentSnapshotIndex (v : Z) (st : Store) : Store :=
  {| selectedAlgorithm := selectedAlgorithm st; originalData := originalData st;
     currentData := currentData st; steps := steps st; playerState := playerState st;
     currentStep := currentStep st; playbackSpeed := playbackSpeed st;
     config_playbackSpeed := config_playbackSpeed st; errorMessage := errorMessage st;
     timeline := timeline st; currentSnapshotIndex := v;
     isTimeTravel := isTimeTravel st |}.

Definition set_isTimeTravel (v : bool) (st : Store) : Store :=
  {| selectedAlgorithm := selectedAlgorithm st; originalData := originalData st;
     currentData := currentData st; steps := steps st; playerState := playerState st;
     currentStep := currentStep st; playbackSpeed := playbackSpeed st;
     config_playbackSpeed := config_playbackSpeed st; errorMessage := errorMessage st;
     timeline := timeline st; currentSnapshotIndex := currentSnapshotIndex st;
     isTimeTravel := v |}.

(** What one [saveSnapshot] reads from the environment: the two
    [Date.now()] values and the text of
    [Math.random().toString(36).substr(2, 9)]. *)
Record Env := { now_id : Z; random_part : string; now_stamp : Z }.

Definition totalSteps (st : Store) : Z := Z.of_nat (length (steps st)).

Definition canStart (st : Store) : bool :=
  PlayerState_eqb (playerState st) idle && (0 <? length (currentData st))%nat.

Definition canNavigate (st : Store) : bool :=
  negb (PlayerState_eqb (playerState st) playing) && (0 <? totalSteps st)%Z.

(** [saveSnapshot(description, details?)]. *)
Definition saveSnapshot (e : Env) (description : string) (details : option string)
    (st : Store) : Store :=
  if isTimeTravel st then st
  else
    let snapshot :=
      {| id := "snapshot-" +:+ JS.Z_toString 10 (now_id e) +:+ "-" +:+ random_part e;
         timestamp := now_stamp e;
         snap_description :=
           match details with
           | Some d => if (String.length d =? 0)%nat then description
                       else description +:+ ": " +:+ d
           | None => description
           end;
         snap_state :=
           {| s_currentData := currentData st; s_currentStep := currentStep st;
              s_playerState := playerState st;
              s_selectedAlgorithm := selectedAlgorithm st; s_steps := steps st |} |} in
    let st := set_timeline (timeline st ++ [snapshot]) st in
    let st := set_currentSnapshotIndex (Z.of_nat (length (timeline st)) - 1) st in
    if (maxSnapshots <? length (timeline st))%nat
    then set_currentSnapshotIndex (currentSnapshotIndex st - 1)
           (set_timeline (tail (timeline st)) st)
    else st.

Definition resetPlayback (st : Store) : Store :=
  set_errorMessage ""
    (set_currentData (originalData st)
       (set_steps [] (set_currentStep (JS.of_Z 0) (set_playerState idle st)))).

Fixpoint join_elems (l : list Z) : string :=
  match l with
  | [] => ""
  | [x] => JS.Z_toString 10 x
  | x :: r => JS.Z_toString 10 x +:+ ", " +:+ join_elems r
  end.

Definition setData (e : Env) (data : list Z) (st : Store) : option Error * Store :=
  if PlayerState_eqb (playerState st) playing
  then (Some {| message := "無法在播放期間更改數據" |}, st)
  else
    let st := resetPlayback (set_currentData data (set_originalData data st)) in
    (None, saveSnapshot e "設定數據" (Some ("數據: [" +:+ join_elems data +:+ "]")) st).

Definition selectAlgorithm (e : Env) (algorithm : SortingAlgorithmType) (st : Store)
    : option Error * Store :=
  if PlayerState_eqb (playerState st) playing
  then (Some {| message := "無法在播放期間更改演算法" |}, st)
  else
    let st := resetPlayback (set_selectedAlgorithm algorithm st) in
    (None, saveSnapshot e "選擇演算法" (Some ("演算法: " +:+ type_name algorithm)) st).

(** [startSorting]; [Date_now] serves the step generator. *)
Definition startSorting (Date_now : nat -> Z) (e : Env) (st : Store)
    : option Error * Store :=
  if negb (canStart st) then (Some {| message := "無法開始排序" |}, st)
  else
    let st := set_errorMessage "" st in
    match (sort Date_now (new_SortingAlgorithm (selectedAlgorithm st) (originalData st))).1 with
    | inr sortingSteps =>
        let st := set_steps sortingSteps st in
        let st := set_currentStep (JS.of_Z 0) st in
        let st := set_currentData (originalData st) st in
        let st := set_playerState playing st in
        (None, saveSnapshot e "開始排序"
                 (Some ("開始 " +:+ type_name (selectedAlgorithm st) +:+ " 排序")) st)
    | inl err => (Some err, set_errorMessage (message err) st)
    end.

Section WithNumberText.
Context {NT : JS.NumberText}.

Definition pausePlayback (e : Env) (st : Store) : Store :=
  if PlayerState_eqb (playerState st) playing then
    let st := set_playerState paused st in
    saveSnapshot e "暫停播放"
      (Some ("在步驟 " +:+ JS.show_number (JS.add (currentStep st) (JS.of_Z 1))
             +:+ " 暫停")) st
  else st.

Definition resumePlayback (e : Env) (st : Store) : Store :=
  if PlayerState_eqb (playerState st) paused then
    let st := set_playerState playing st in
    saveSnapshot e "繼續播放"
      (Some ("從步驟 " +:+ JS.show_number (JS.add (currentStep st) (JS.of_Z 1))
             +:+ " 繼續")) st
  else st.

Definition stopPlayback (e : Env) (st : Store) : Store :=
  let st := set_playerState idle st in
  let st := set_currentStep (JS.of_Z 0) st in
  let st := set_currentData (originalData st) st in
  saveSnapshot e "停止播放" (Some "重置到初始狀態") st.

(** [steps.value[stepIndex]]. *)
Definition step_at (st : Store) (stepIndex : JS.number) : option AlgorithmStep :=
  JS.index (steps st) stepIndex.

(** [jumpToStep]: the two comparisons are all that is asked of [stepIndex];
    [currentData] follows only when [steps.value[stepIndex]] is a step. *)
Definition jumpToStep (e : Env) (stepIndex : JS.number) (st : Store)
    : option Error * Store :=
  if negb (canNavigate st) then (Some {| message := "無法在播放期間跳轉步驟" |}, st)
  else if JS.lt stepIndex (JS.of_Z 0) || JS.ge stepIndex (JS.of_Z (totalSteps st))
  then (Some {| message := "步驟索引超出範圍" |}, st)
  else
    let st := set_currentStep stepIndex st in
    let st := match step_at st stepIndex with
              | Some step => set_currentData (data (arrayState step)) st
              | None => st
              end in
    (None, saveSnapshot e "跳轉步驟"
             (Some ("跳轉到步驟 " +:+ JS.show_number (JS.add stepIndex (JS.of_Z 1)))) st).

Definition nextStep (e : Env) (st : Store) : option Error * Store :=
  if JS.lt (currentStep st) (JS.of_Z (totalSteps st - 1))
  then jumpToStep e (JS.add (currentStep st) (JS.of_Z 1)) st
  else (None, st).

Definition previousStep (e : Env) (st : Store) : option Error * Store :=
  if JS.gt (currentStep st) (JS.of_Z 0)
  then jumpToStep e (JS.sub (currentStep st) (JS.of_Z 1)) st
  else (None, st).

End WithNumberText.

(** [x.toFixed(1)] for a non-negative [x]. *)
Definition Q_toFixed1 (x : Q) : string :=
  let n := Qfloor (10 * x + (1 # 2))%Q in
  JS.Z_toString 10 (n / 10) +:+ "." +:+ JS.Z_toString 10 (n mod 10).

(** [x.toFixed(1)] for a number [x] that is not negative. *)
Definition toFixed1 (x : JS.number) : string :=
  match x with
  | JS.NaN => "NaN"
  | JS.NegInf => "-Infinity"
  | JS.PosInf => "Infinity"
  | JS.Fin q => Q_toFixed1 q
  end.

(** [updatePlaybackSpeed]: [Math.max(0.1, Math.min(5.0, speed))]. *)
Definition updatePlaybackSpeed (e : Env) (speed : JS.number) (st : Store) : Store :=
  let st := set_playbackSpeed (JS.max (JS.Fin (1 # 10)) (JS.min (JS.Fin 5) speed)) st in
  let st := set_config_playbackSpeed (playbackSpeed st) st in
  saveSnapshot e "調整速度" (Some ("播放速度: " +:+ toFixed1 (playbackSpeed st) +:+ "x")) st.

Definition find_snapshot (snapshotId : string) (st : Store) : option TimelineSnapshot :=
  List.find (fun s => String.eqb (id s) snapshotId) (timeline st).

(** [timeline.value.findIndex(s => s.id === snapshotId)]; [-1] when absent. *)
Fixpoint findIndex (snapshotId : string) (l : list TimelineSnapshot) (k : Z) : Z :=
  match l with
  | [] => (-1)%Z
  | s :: r => if String.eqb (id s) snapshotId then k else findIndex snapshotId r (k + 1)%Z
  end.

(** [restoreSnapshot]: [isTimeTravel] is raised for the duration of the
    assignments and lowered in the [finally] block. *)
Definition restoreSnapshot (snapshotId : string) (st : Store) : option Error * Store :=
  match find_snapshot snapshotId st with
  | None => (Some {| message := "找不到指定的快照" |}, st)
  | Some snapshot =>
      let st := set_isTimeTravel true st in
      let st := set_currentData (s_currentData (snap_state snapshot)) st in
      let st := set_currentStep (s_currentStep (snap_state snapshot)) st in
      let st := set_playerState (s_playerState (snap_state snapshot)) st in
      let st := set_selectedAlgorithm (s_selectedAlgorithm (snap_state snapshot)) st in
      let st := set_steps (s_steps (snap_state snapshot)) st in
      let st := set_currentSnapshotIndex (findIndex snapshotId (timeline st) 0) st in
      (None, set_isTimeTravel false st)
  end.

Definition clearTimeline (st : Store) : Store :=
  set_currentSnapshotIndex (-1)%Z (set_timeline [] st).

Record TimelineExport := {
  snapshots : list TimelineSnapshot;
  totalCount : nat
}.

(** [exportTimeline] (the [exportTime] text is left out). *)
Definition exportTimeline (st : Store) : TimelineExport :=
  {| snapshots := timeline st; totalCount := length (timeline st) |}.

(** [importTimeline(data)]: only [data.snapshots] is read. *)
Definition importTimeline (snapshots' : list TimelineSnapshot) (st : Store) : Store :=
  let st := set_timeline snapshots' st in
  set_currentSnapshotIndex (Z.of_nat (length (timeline st)) - 1) st.

(** [updateConfig(newConfig)]: of the configuration only [playbackSpeed] is
    modelled; [None] is a [newConfig] without that key. *)
Definition updateConfig (e : Env) (new_playbackSpeed : option JS.number) (st : Store)
    : Store :=
  let st := match new_playbackSpeed with
            | Some v => set_config_playbackSpeed v st
            | None => st
            end in
  saveSnapshot e "更新配置" (Some "配置已更新") st.

Definition setError (message : string) (st : Store) : Store :=
  set_errorMessage message st.

Definition clearError (st : Store) : Store := set_errorMessage "" st.

(** *** Computed properties not used by the actions *)

Definition progress (st : Store) : JS.number :=
  if (totalSteps st =? 0)%Z then JS.of_Z 0
  else JS.div (currentStep st) (JS.of_Z (totalSteps st)).

(** [currentStepInfo]: [null] outside the two comparisons, and inside them
    [steps.value[currentStep.value]], which is [undefined] when the current
    step is not an integer; [None] stands for both. *)
Definition currentStepInfo (st : Store) : option AlgorithmStep :=
  if JS.ge (currentStep st) (JS.of_Z 0)
     && JS.lt (currentStep st) (JS.of_Z (Z.of_nat (length (steps st))))
  then JS.index (steps st) (currentStep st)
  else None.

Definition canTimeTravel (st : Store) : bool :=
  (0 <? length (timeline st))%nat && negb (isTimeTravel st).

Record SnapshotSummary := {
  sum_id : string;
  sum_timestamp : Z;
  sum_description : string;
  sum_step : JS.number;
  sum_algorithm : SortingAlgorithmType
}.

Definition timelineSummary (st : Store) : list SnapshotSummary :=
  map (fun snapshot =>
         {| sum_id := id snapshot; sum_timestamp := timestamp snapshot;
            sum_description := snap_description snapshot;
            sum_step := s_currentStep (snap_state snapshot);
            sum_algorithm := s_selectedAlgorithm (snap_state snapshot) |})
      (timeline st).

End Store.

(** ** The ThemeManager class

    The object's two fields together with what it reads and writes in the
    browser: the [theme-preference] entry of [localStorage] (only [setTheme]
    writes it, so it holds a theme or nothing), the [data-theme] attribute of
    the document element, and the calls made to the registered callbacks. *)

Module Theme.

Inductive Theme := light | dark.

Record ThemeManager := {
  currentTheme : Theme;
  callbacks : nat;                      (* number of registered callbacks *)
  stored : option Theme;                (* localStorage 'theme-preference' *)
  data_theme : option Theme;            (* the data-theme attribute *)
  notified : list (nat * Theme)         (* callback index and theme, oldest first *)
}.

Definition system_theme (prefersDark : bool) : Theme :=
  if prefersDark then dark else light.

(** [applyTheme]: sets the attribute and runs the callbacks in the order of
    their registration. *)
Definition applyTheme (m : ThemeManager) : ThemeManager :=
  {| currentTheme := currentTheme m; callbacks := callbacks m; stored := stored m;
     data_theme := Some (currentTheme m);
     notified := notified m
                   ++ map (fun k => (k, currentTheme m)) (seq 0 (callbacks m)) |}.

(** The constructor ([initializeTheme]) for a browser whose [localStorage]
    holds [saved], whose document has the attribute [attr] and whose system
    preference is [prefersDark]. *)
Definition new_ThemeManager (saved : option Theme) (attr : option Theme)
    (prefersDark : bool) : ThemeManager :=
  applyTheme
    {| currentTheme := match saved with
                       | Some t => t
                       | None => system_theme prefersDark
                       end;
       callbacks := 0; stored := saved; data_theme := attr; notified := [] |}.

(** [handleSystemThemeChange(e)] with [e.matches = matches]. *)
Definition handleSystemThemeChange (matches : bool) (m : ThemeManager) : ThemeManager :=
  match stored m with
  | Some _ => m
  | None =>
      applyTheme
        {| currentTheme := system_theme matches; callbacks := callbacks m;
           stored := stored m; data_theme := data_theme m; notified := notified m |}
  end.

Definition setTheme (theme : Theme) (m : ThemeManager) : ThemeManager :=
  applyTheme
    {| currentTheme := theme; callbacks := callbacks m;
       stored := Some theme; data_theme := data_theme m; notified := notified m |}.

Definition getTheme (m : ThemeManager) : Theme := currentTheme m.

(** [onThemeChange(callback)]: the new callback gets the next index. *)
Definition onThemeChange (m : ThemeManager) : ThemeManager :=
  {| currentTheme := currentTheme m; callbacks := S (callbacks m);
     stored := stored m; data_theme := data_theme m; notified := notified m |}.

End Theme.

Local Close Scope string_scope.
Local Open Scope list_scope.

(** * Definitions used to state the properties *)

(** ** Reading a step id back *)

Definition is_us (c : ascii) : bool := Ascii.eqb c "_".

Fixpoint has_us (s : string) : bool :=
  match s with
  | EmptyString => false
  | String c r => is_us c || has_us r
  end.

(** The part of [s] after its last underscore. *)
Fixpoint after_last_us (s : string) : string :=
  match s with
  | EmptyString => EmptyString
  | String c r =>
      if has_us r then after_last_us r
      else if is_us c then r else String c r
  end.

Fixpoint index_of (c : ascii) (s : string) (k : N) : N :=
  match s with
  | EmptyString => 0%N
  | String c' r => if Ascii.eqb c c' then k else index_of c r (k + 1)%N
  end.

Definition digit_val (c : ascii) : N := index_of c JS.digit_chars 0.

(** The number a string of hexadecimal digits denotes. *)
Fixpoint hexval (s : string) : N :=
  match s with
  | EmptyString => 0%N
  | String c r => (digit_val c * 16 ^ N.of_nat (String.length r) + hexval r)%N
  end.

(** ** Functional views of the loops *)

(** One pass of adjacent exchanges over [x :: rest]; the flag is [hasSwapped]. *)
Fixpoint bubble_pass (x : Z) (rest : list Z) : list Z * bool :=
  match rest with
  | [] => ([x], false)
  | y :: r =>
      if (y <? x)%Z then let p := bubble_pass x r in (y :: p.1, true)
      else let p := bubble_pass y r in (x :: p.1, p.2)
  end.

(** [grows Date_now this this']: [this'] is [this] after some more steps were
    pushed. *)
Inductive grows (Date_now : nat -> Z)
    : Sorting.SortingAlgorithm -> Sorting.SortingAlgorithm -> Prop :=
| grows_refl this : grows Date_now this this
| grows_push this this' a o :
    grows Date_now this this' ->
    grows Date_now this (Sorting.push_step Date_now a o this').

(** The numbering discipline of [createStep]: both counters equal the number
    of steps pushed so far, and the step at position [k] carries sequence
    number [k + 1] and the id built from counter value [k + 1]. *)
Definition numbered (Date_now : nat -> Z) (this : Sorting.SortingAlgorithm) : Prop :=
  Sorting.idCounter this = length (Sorting.steps this) /\
  Sorting.cur_sequenceNumber this = length (Sorting.steps this) /\
  forall k s, Sorting.steps this !! k = Some s ->
    Sorting.sequenceNumber s = S k /\
    Sorting.stepId s =
      Mapping.make_step_id (Mapping.id_prefix (Sorting.algorithmType this))
        (Date_now (S k)) (S k).

(** What the outer loop maintains: the suffix [suf] already holds the largest
    elements in order. *)
Definition settled_suffix (pre suf : list Z) : Prop :=
  StronglySorted Z.le suf /\ forall a b, a ∈ pre -> b ∈ suf -> (a <= b)%Z.

(** What the outer loop maintains: the prefix [pre] already holds the
    smallest elements in order. *)
Definition settled_prefix (pre rest : list Z) : Prop :=
  StronglySorted Z.le pre /\ forall a b, a ∈ pre -> b ∈ rest -> (a <= b)%Z.

(** The outcome of a successful [sort] started on [this]: it returns the
    steps of the final instance [this'], which grew out of [this], and the
    last step holds the input in sorted order. *)
Definition sorted_result (Date_now : nat -> Z) (input : list Z)
    (this this' : Sorting.SortingAlgorithm)
    (r : (Sorting.Error + list Sorting.AlgorithmStep) * Sorting.SortingAlgorithm) : Prop :=
  r = (inr (Sorting.steps this'), this') /\
  grows Date_now this this' /\
  exists s, last (Sorting.steps this') = Some s /\
            StronglySorted Z.le (Sorting.data (Sorting.arrayState s)) /\
            Sorting.data (Sorting.arrayState s) ≡ₚ input.

(** The array shown by the last step of a generated sequence. *)
Definition final_data (r : Sorting.Error + list Sorting.AlgorithmStep) : option (list Z) :=
  match r with
  | inr stps => (fun s => Sorting.data (Sorting.arrayState s)) <$> last stps
  | inl _ => None
  end.

(** ** The playback controller *)

Section PlayerViews.
Import Player.

(** The events the playback invariant speaks about: [play], [pause],
    [nextStep], [previousStep], [jumpToStep], and the timers. *)
Definition playback_event (e : Event) : bool :=
  match e with
  | Call m_play | Call m_pause | Call m_nextStep | Call m_previousStep
  | Call (m_jumpToStep _) => true
  | Call _ => false
  | Elapse _ | TimerFires _ => true
  end.

Definition not_cleanup (e : Event) : bool :=
  match e with
  | Call m_cleanup => false
  | _ => true
  end.

(** The events in which [jumpToStep], if it is called, is given an integer. *)
Definition integer_jump (e : Event) : bool :=
  match e with
  | Call (m_jumpToStep stepIndex) => JS.is_integer stepIndex
  | _ => true
  end.

(** The events that run [nextStep] on [w]: a call of it, or the timer of
    [scheduleNextStep]. *)
Definition advance_event (e : Event) (w : World) : bool :=
  match e with
  | Call m_nextStep => true
  | TimerFires h =>
      match find_timer h w with
      | Some t => bool_decide (callback t = AdvanceCallback)
      | None => false
      end
  | _ => false
  end.

(** A controller freshly loaded with [l]. *)
Definition loaded (cfg : PlayerConfig) (l : list Sorting.AlgorithmStep) : World :=
  (loadSteps (Some l) (new_SortingPlayer cfg)).2.

(** [currentStepIndex] is the integer [k]. *)
Definition at_index (w : World) (k : Z) : Prop :=
  JS.as_integer (currentStepIndex w) = Some k.

(** [currentStepIndex] points at a step. *)
Definition index_ok (w : World) : Prop :=
  exists k, at_index w k /\ (0 <= k < Z.of_nat (length (steps w)))%Z.

Definition last_index (w : World) : Z := (Z.of_nat (length (steps w)) - 1)%Z.

(** A step to load into a controller in the examples. *)
Definition demo_step (k : nat) : Sorting.AlgorithmStep :=
  {| Sorting.stepId := "DEMO"; Sorting.sequenceNumber := k;
     Sorting.arrayState :=
       {| Sorting.data := [1%Z]; Sorting.highlightedIndices := [];
          Sorting.comparisonPair := None; Sorting.swapPair := None;
          Sorting.sortedRegions := [] |};
     Sorting.operation :=
       {| Sorting.op_type := Mapping.OpCompare; Sorting.description := "";
          Sorting.complexity := Sorting.O1 |};
     Sorting.visualHints := Mapping.getVisualHints Mapping.OpCompare |}.

(** A text for the numbers that are not integers in the examples: numerator,
    a stroke, denominator. *)
Definition demo_text : JS.NumberText :=
  fun q => (JS.Z_toString 10 (Qnum q) +:+ "/" +:+ JS.Z_toString 10 (Zpos (Qden q)))%string.

(** The playback invariant as the specification words it, for a reading
    [ran_to_end] of "playback has run to the end" that may depend on the
    events so far and on the state reached. *)
Definition completed_iff_at_end {NT : JS.NumberText}
    (ran_to_end : list Event -> World -> Prop) : Prop :=
  forall cfg l evs w,
    l <> [] -> forallb playback_event evs = true ->
    run evs (loaded cfg l) = Some w ->
    index_ok w /\
    (state w = completed <->
     at_index w (last_index w) /\ ran_to_end evs w).

Definition loop_config : PlayerConfig :=
  {| autoPlay := false; playbackSpeed := JS.Fin 1; loopMode := true;
     showStepInfo := true |}.

(** One step, loop mode: the advance completes the playback at 600 ms, the
    application calls [play] at 1100 ms, the restart timer runs at 1600 ms. *)
Definition loop_restart_trace : list Event :=
  [ Call (m_loadSteps (Some [demo_step 1])); Call m_play;
    Elapse 600%Q; TimerFires 1;
    Elapse 500%Q; Call m_play;
    Elapse 500%Q; TimerFires 2 ].

(** The two fields navigation is about. *)
Definition nav (w : World) : list Sorting.AlgorithmStep * JS.number :=
  (steps w, currentStepIndex w).

(** The timers left once [clearTimer] has run. *)
Definition without_playTimer (w : World) : list Timer :=
  match playTimer w with
  | Some h => filter (fun t => handle t <> h) (timers w)
  | None => timers w
  end.

End PlayerViews.

(** ** The store *)

(** A snapshot to import in the examples. *)
Definition demo_snapshot (k : nat) : Store.TimelineSnapshot :=
  {| Store.id := JS.show_nat k; Store.timestamp := Z.of_nat k;
     Store.snap_description := "demo";
     Store.snap_state :=
       {| Store.s_currentData := []; Store.s_currentStep := JS.of_Z 0;
          Store.s_playerState := Player.idle;
          Store.s_selectedAlgorithm := Mapping.bubble_sort;
          Store.s_steps := [] |} |}.

(** ** What every generated step satisfies *)

Section StepViews.
Import Mapping Sorting.

(** [pushes Date_now P this this']: [this'] is [this] after some more steps
    were pushed, each built from an array state and an operation that
    satisfy [P]. *)
Inductive pushes (Date_now : nat -> Z) (P : ArrayState -> OperationInfo -> Prop)
    : SortingAlgorithm -> SortingAlgorithm -> Prop :=
| pushes_refl this : pushes Date_now P this this
| pushes_push this this' a o :
    pushes Date_now P this this' -> P a o ->
    pushes Date_now P this (push_step Date_now a o this').

(** A pair of positions of an array of length [n], the smaller one first. *)
Definition pair_in_range (n : nat) (p : option (nat * nat)) : Prop :=
  match p with
  | Some (i, j) => i < j < n
  | None => True
  end.

Definition region_in_range (n : nat) (r : SortedRegion) : Prop :=
  r_start r <= r_end r < n.

(** Everything the array state of a step points at exists in an array of
    length [n]. *)
Definition state_in_range (n : nat) (a : ArrayState) : Prop :=
  length (data a) = n /\
  Forall (fun i => i < n) (highlightedIndices a) /\
  pair_in_range n (comparisonPair a) /\
  pair_in_range n (swapPair a) /\
  Forall (region_in_range n) (sortedRegions a).

(** The pairs of a step agree with its operation type and its highlights:
    at most one pair is set, a comparison pair belongs to a [compare]
    operation, a swap pair to a [swap] operation and every [swap] operation
    has one, and the two positions of the pair are the highlighted ones. *)
Definition marks_agree (a : ArrayState) (o : OperationInfo) : Prop :=
  match comparisonPair a, swapPair a with
  | Some (i, j), None => highlightedIndices a = [i; j] /\ op_type o = OpCompare
  | None, Some (i, j) => highlightedIndices a = [i; j] /\ op_type o = OpSwap
  | None, None => op_type o <> OpSwap
  | Some _, Some _ => False
  end.

(** How the array shown by a step relates to the input: bubble and selection
    sort only exchange elements; insertion sort overwrites elements while it
    shifts, so in between the array need not be a rearrangement. *)
Definition data_from (t : SortingAlgorithmType) (input : list Z) (a : ArrayState) : Prop :=
  match t with
  | insertion_sort => length (data a) = length input /\ data a ⊆ input
  | _ => data a ≡ₚ input
  end.

(** The operation types an algorithm uses. *)
Definition op_of (t : SortingAlgorithmType) (o : OperationType) : Prop :=
  match t with
  | insertion_sort => o = OpCompare \/ o = OpInsert
  | _ => o = OpCompare \/ o = OpSwap
  end.

Definition step_wf (t : SortingAlgorithmType) (input : list Z)
    (a : ArrayState) (o : OperationInfo) : Prop :=
  state_in_range (length input) a /\ marks_agree a o /\
  data_from t input a /\ op_of t (op_type o).

End StepViews.

(** ** Replaying the exchanges *)

Section ReplayViews.
Import Mapping Sorting.

(** The array with the elements at positions [i] and [j] exchanged. *)
Definition swap_positions (i j : nat) (d : list Z) : list Z :=
  match d !! i, d !! j with
  | Some a, Some b => <[j := a]> (<[i := b]> d)
  | _, _ => d
  end.

(** The array a viewer expects after step [s]: the one it shows, with the
    two positions of its swap pair exchanged when it has one. *)
Definition shown_next (s : AlgorithmStep) : list Z :=
  match swapPair (arrayState s) with
  | Some (i, j) => swap_positions i j (data (arrayState s))
  | None => data (arrayState s)
  end.

(** Follows the steps from the array [d]: every step must show the array
    expected after its predecessor; returns the array expected at the end. *)
Fixpoint replay (d : list Z) (stps : list AlgorithmStep) : option (list Z) :=
  match stps with
  | [] => Some d
  | s :: rest =>
      if bool_decide (data (arrayState s) = d) then replay (shown_next s) rest else None
  end.

(** [this] is [this0] after some more steps, which replay from [d0] to [d]. *)
Definition replays_to (this0 : SortingAlgorithm) (d0 d : list Z) (this : SortingAlgorithm)
    : Prop :=
  exists added, steps this = steps this0 ++ added /\ replay d0 added = Some d.

End ReplayViews.

(** ** Following the writes of insertion sort *)

Section WriteViews.
Import Mapping Sorting.

(** Whether step [s] shows what a viewer expects after an array [prev]: an
    [insert] operation has written one element, at the highlighted
    position; any other step shows the same array. *)
Definition shows_after (prev : list Z) (s : AlgorithmStep) : bool :=
  match op_type (operation s) with
  | OpInsert =>
      match highlightedIndices (arrayState s) with
      | [h] =>
          match data (arrayState s) !! h with
          | Some v => bool_decide (data (arrayState s) = <[h := v]> prev)
          | None => false
          end
      | _ => false
      end
  | _ => bool_decide (data (arrayState s) = prev)
  end.

Fixpoint writes_replay (d : list Z) (stps : list AlgorithmStep) : bool :=
  match stps with
  | [] => true
  | s :: rest => shows_after d s && writes_replay (data (arrayState s)) rest
  end.

(** The array of the last step, [d0] when there is none. *)
Definition shown_last (d0 : list Z) (stps : list AlgorithmStep) : list Z :=
  match last stps with
  | Some s => data (arrayState s)
  | None => d0
  end.

(** [this] is [this0] after some more steps, which follow the writes from
    [d0] and end showing [d]. *)
Definition written_to (this0 : SortingAlgorithm) (d0 d : list Z) (this : SortingAlgorithm)
    : Prop :=
  exists added,
    steps this = steps this0 ++ added /\
    writes_replay d0 added = true /\ shown_last d0 added = d.

End WriteViews.

(** ** Sorted regions *)

Section RegionViews.
Import Mapping Sorting.

(** The part of the array [d] that region [r] covers, both ends included. *)
Definition region_slice (r : SortedRegion) (d : list Z) : list Z :=
  take (S (r_end r) - r_start r) (drop (r_start r) d).

(** Every region a step marks as sorted is in non-decreasing order in the
    array the step shows. *)
Definition regions_sorted (a : ArrayState) : Prop :=
  Forall (fun r => StronglySorted Z.le (region_slice r (data a))) (sortedRegions a).

(** [regions_sorted] as a property of what is pushed. *)
Definition marked (a : ArrayState) (o : OperationInfo) : Prop := regions_sorted a.

End RegionViews.

(** ** The controller's timers *)

Section TimerViews.
Import Player.

(** The events under which the controller keeps its timers in order:
    everything except [reset] and [loadSteps], which leave the [playing]
    state without clearing the pending advance, and switching loop mode on,
    which makes [complete] start a restart timer. *)
Definition disciplined_event (e : Event) : bool :=
  match e with
  | Call m_reset | Call (m_loadSteps _) | Call (m_setLoopMode true) => false
  | _ => true
  end.

(** Loop mode is off; while [playing] exactly one timer is pending, it is
    an advance and its handle is in [playTimer]; in every other state no
    timer is pending and [playTimer] is [null]. *)
Definition single_timer (w : World) : Prop :=
  loopMode (config w) = false /\
  match state w with
  | playing =>
      exists t, timers w = [t] /\ playTimer w = Some (handle t) /\
                callback t = AdvanceCallback
  | _ => timers w = [] /\ playTimer w = None
  end.

(** What holds in the middle of a method: at most the timer of [playTimer]
    is pending. *)
Definition at_most_playTimer (w : World) : Prop :=
  timers w = [] \/ exists t, timers w = [t] /\ playTimer w = Some (handle t).



End TimerViews.

(** ** Runs of the store *)

Section StoreViews.
Import Mapping Sorting Store.

(** The actions of the store that change its state. *)
Inductive Action :=
| a_setData (data : list Z)
| a_selectAlgorithm (algorithm : SortingAlgorithmType)
| a_startSorting
| a_pausePlayback
| a_resumePlayback
| a_stopPlayback
| a_resetPlayback
| a_jumpToStep (stepIndex : JS.number)
| a_nextStep
| a_previousStep
| a_updatePlaybackSpeed (speed : JS.number)
| a_updateConfig (new_playbackSpeed : option JS.number)
| a_setError (message : string)
| a_clearError
| a_saveSnapshot (description : string) (details : option string)
| a_restoreSnapshot (snapshotId : string)
| a_clearTimeline
| a_importTimeline (snapshots' : list TimelineSnapshot).

Section Runs.
Context {NT : JS.NumberText}.

(** The store after an action; of an action that throws, what it has
    assigned before. *)
Definition do_action (Date_now : nat -> Z) (e : Env) (a : Action) (st : Store) : Store :=
  match a with
  | a_setData d => (setData e d st).2
  | a_selectAlgorithm t => (selectAlgorithm e t st).2
  | a_startSorting => (startSorting Date_now e st).2
  | a_pausePlayback => pausePlayback e st
  | a_resumePlayback => resumePlayback e st
  | a_stopPlayback => stopPlayback e st
  | a_resetPlayback => resetPlayback st
  | a_jumpToStep i => (jumpToStep e i st).2
  | a_nextStep => (nextStep e st).2
  | a_previousStep => (previousStep e st).2
  | a_updatePlaybackSpeed x => updatePlaybackSpeed e x st
  | a_updateConfig v => updateConfig e v st
  | a_setError m => setError m st
  | a_clearError => clearError st
  | a_saveSnapshot d ds => saveSnapshot e d ds st
  | a_restoreSnapshot i => (restoreSnapshot i st).2
  | a_clearTimeline => clearTimeline st
  | a_importTimeline l => importTimeline l st
  end.

(** A run: each action with what it reads from the environment. *)
Fixpoint run_actions (Date_now : nat -> Z) (acts : list (Env * Action)) (st : Store)
    : Store :=
  match acts with
  | [] => st
  | (e, a) :: rest => run_actions Date_now rest (do_action Date_now e a st)
  end.

End Runs.

(** Imports of at most [maxSnapshots] snapshots. *)
Definition small_import (ea : Env * Action) : bool :=
  match ea.2 with
  | a_importTimeline l => (length l <=? maxSnapshots)%nat
  | _ => true
  end.

Definition no_import (ea : Env * Action) : bool :=
  match ea.2 with
  | a_importTimeline _ => false
  | _ => true
  end.

(** The actions in which [jumpToStep], if it is called, is given an integer,
    and [updatePlaybackSpeed] a speed that is not NaN. *)
Definition plain_numbers (ea : Env * Action) : bool :=
  match ea.2 with
  | a_jumpToStep stepIndex => JS.is_integer stepIndex
  | a_updatePlaybackSpeed speed => negb (JS.is_NaN speed)
  | _ => true
  end.

(** The bookkeeping of the timeline. *)
Definition timeline_ok (st : Store) : Prop :=
  (length (timeline st) <= maxSnapshots)%nat /\
  (-1 <= currentSnapshotIndex st < Z.of_nat (length (timeline st)))%Z /\
  isTimeTravel st = false.

(** A playback position that makes sense: the state is not [completed], it
    is [idle] unless steps are loaded, and the current step is a position of
    the step list, or 0 when there are no steps. *)
Definition position_ok (ps : Player.PlayerState) (cs : JS.number)
    (stps : list AlgorithmStep) : Prop :=
  ps <> Player.completed /\
  (ps = Player.idle \/ stps <> []) /\
  ((exists k, JS.as_integer cs = Some k /\ (0 <= k < Z.of_nat (length stps))%Z) \/
   (cs = JS.of_Z 0 /\ stps = [])).

Definition snapshot_ok (s : TimelineSnapshot) : Prop :=
  position_ok (s_playerState (snap_state s)) (s_currentStep (snap_state s))
    (s_steps (snap_state s)).

(** A speed within [0.1, 5]. *)
Definition speed_ok (x : JS.number) : Prop :=
  exists q, x = JS.Fin q /\ (1 # 10 <= q <= 5)%Q.

Definition playback_ok (st : Store) : Prop :=
  position_ok (playerState st) (currentStep st) (steps st) /\
  Forall snapshot_ok (timeline st) /\
  speed_ok (playbackSpeed st).

(** The id [saveSnapshot] gives to the snapshot it takes in [e]. *)
Definition snapshot_id (e : Env) : string :=
  ("snapshot-" +:+ JS.Z_toString 10 (now_id e) +:+ "-" +:+ random_part e)%string.

End StoreViews.

(** ** Runs of the theme manager *)

Section ThemeViews.
Import Theme.

(** What can happen to a theme manager: the user picks a theme, the system
    preference changes, a callback is registered. *)
Inductive ThemeEvent :=
| SetTheme (theme : Theme)
| SystemChange (matches : bool)
| Subscribe.

Definition theme_step (ev : ThemeEvent) (m : ThemeManager) : ThemeManager :=
  match ev with
  | SetTheme t => setTheme t m
  | SystemChange b => handleSystemThemeChange b m
  | Subscribe => onThemeChange m
  end.

Definition theme_run (evs : list ThemeEvent) (m : ThemeManager) : ThemeManager :=
  fold_left (fun m ev => theme_step ev m) evs m.

(** The user's latest choice, [saved] being the one found at start-up. *)
Fixpoint chosen (saved : option Theme) (evs : list ThemeEvent) : option Theme :=
  match evs with
  | [] => saved
  | SetTheme t :: rest => chosen (Some t) rest
  | _ :: rest => chosen saved rest
  end.

(** The system's latest preference, [dark] being the one found at start-up. *)
Fixpoint system_now (dark : bool) (evs : list ThemeEvent) : bool :=
  match evs with
  | [] => dark
  | SystemChange b :: rest => system_now b rest
  | _ :: rest => system_now dark rest
  end.

End ThemeViews.

(** ** Formatting a duration *)



(** * Properties *)

(** ** Step ids *)

Section StepIds.
Import Mapping.

Lemma append_cons x (a b : string) : (String x a +:+ b)%string = String x (a +:+ b).
Proof. reflexivity. Qed.

Lemma string_app_assoc (a b c : string) : (a +:+ (b +:+ c) = (a +:+ b) +:+ c)%string.
Proof. induction a as [|x a IH]; [done|]. rewrite !append_cons. by f_equal. Qed.

Lemma has_us_app (a b : string) : has_us (a +:+ b) = has_us a || has_us b.
Proof.
  induction a as [|x a IH]; [done|].
  rewrite append_cons. cbn [has_us]. by rewrite IH, orb_assoc.
Qed.

Lemma after_last_us_app (p h : string) :
  has_us h = false -> after_last_us (p +:+ String "_" h) = h.
Proof.
  intros Hh. induction p as [|c p IH].
  - change (after_last_us (String "_" h) = h). cbn. by rewrite Hh.
  - rewrite append_cons. cbn [after_last_us].
    rewrite has_us_app. cbn. by rewrite orb_true_r.
Qed.

Lemma digit_char_not_us (d : N) : is_us (JS.digit_char d) = false.
Proof.
  unfold JS.digit_char. generalize (N.to_nat d) as k. intros k.
  do 37 (destruct k as [|k]; [reflexivity|]). reflexivity.
Qed.

Lemma digit_val_char (d : N) : (d < 36)%N -> digit_val (JS.digit_char d) = d.
Proof.
  intros Hd. rewrite <- (N2Nat.id d). unfold JS.digit_char.
  assert (Hk : N.to_nat d < 36) by lia. rewrite Nat2N.id.
  revert Hk. generalize (N.to_nat d) as k. intros k Hk.
  do 36 (destruct k as [|k]; [reflexivity|]). lia.
Qed.

Lemma has_us_toString_aux radix fuel : forall n acc,
  has_us (JS.toString_aux radix fuel n acc) = has_us acc.
Proof.
  induction fuel as [|fuel IH]; intros n acc; cbn [JS.toString_aux]; [done|].
  destruct (n / radix =? 0)%N.
  - cbn. by rewrite digit_char_not_us.
  - rewrite IH. cbn. by rewrite digit_char_not_us.
Qed.

Lemma has_us_N_toString radix n : has_us (JS.N_toString radix n) = false.
Proof. unfold JS.N_toString. by rewrite has_us_toString_aux. Qed.

Lemma has_us_repeat_zero k : has_us (JS.repeat_char k "0") = false.
Proof. induction k as [|k IH]; cbn; [done|]. by rewrite IH. Qed.

Lemma has_us_padStart len s :
  has_us s = false -> has_us (JS.padStart len "0" s) = false.
Proof.
  intros Hs. unfold JS.padStart. by rewrite has_us_app, has_us_repeat_zero, Hs.
Qed.

Lemma hexval_toString_aux fuel : forall n acc,
  (n < 2 ^ N.of_nat fuel)%N -> fuel <> 0 ->
  hexval (JS.toString_aux 16 fuel n acc)
  = (n * 16 ^ N.of_nat (String.length acc) + hexval acc)%N.
Proof.
  induction fuel as [|fuel IH]; intros n acc Hn Hf; [done|].
  cbn [JS.toString_aux].
  assert (Hmod : (n mod 16 < 16)%N) by (apply N.mod_lt; lia).
  pose proof (N.div_mod n 16 ltac:(lia)) as Hdm.
  destruct (n / 16 =? 0)%N eqn:Hq.
  - apply N.eqb_eq in Hq. cbn [hexval]. rewrite digit_val_char by lia. nia.
  - apply N.eqb_neq in Hq.
    assert (Hlt : (n / 16 < 2 ^ N.of_nat fuel)%N).
    { apply N.Div0.div_lt_upper_bound.
      rewrite Nat2N.inj_succ, N.pow_succ_r' in Hn. lia. }
    rewrite IH; [|done|].
    + cbn [hexval String.length]. rewrite digit_val_char by lia.
      rewrite Nat2N.inj_succ, N.pow_succ_r'. nia.
    + intros ->. cbn in Hlt. lia.
Qed.

Lemma size_nat_gt n : (n < 2 ^ N.of_nat (N.size_nat n))%N.
Proof.
  destruct n as [|p]; [done|]. cbn [N.size_nat].
  induction p as [p IH|p IH|]; cbn [Pos.size_nat];
    rewrite ?Nat2N.inj_succ, ?N.pow_succ_r'; [lia|lia|done].
Qed.

Lemma hexval_N_toString n : hexval (JS.N_toString 16 n) = n.
Proof.
  unfold JS.N_toString.
  rewrite hexval_toString_aux;
    [cbn [hexval String.length N.of_nat]; rewrite N.pow_0_r; lia| |done].
  pose proof (size_nat_gt n) as Hs.
  rewrite Nat2N.inj_succ, N.pow_succ_r'. lia.
Qed.

Lemma hexval_repeat_zero k s : hexval (JS.repeat_char k "0" +:+ s) = hexval s.
Proof.
  induction k as [|k IH]; [done|].
  cbn [JS.repeat_char]. rewrite append_cons. cbn [hexval]. rewrite IH.
  change (digit_val "0") with 0%N. lia.
Qed.

Lemma hexval_padStart len n : hexval (JS.padStart len "0" (JS.N_toString 16 n)) = n.
Proof. unfold JS.padStart. by rewrite hexval_repeat_zero, hexval_N_toString. Qed.

Lemma make_step_id_suffix prefix timestamp k :
  after_last_us (make_step_id prefix timestamp k)
  = JS.padStart 4 "0" (JS.N_toString 16 (N.of_nat k)).
Proof.
  set (h := JS.padStart 4 "0" (JS.N_toString 16 (N.of_nat k))).
  assert (Hshape : make_step_id prefix timestamp k
                   = ((prefix +:+ String "_" (JS.Z_toString 36 timestamp))
                        +:+ String "_" h)%string).
  { unfold make_step_id. by rewrite <- string_app_assoc. }
  rewrite Hshape. apply after_last_us_app.
  apply has_us_padStart, has_us_N_toString.
Qed.

(** Two ids of one generator agree only when the counter values agree. *)
Lemma make_step_id_inj p1 p2 t1 t2 k1 k2 :
  make_step_id p1 t1 k1 = make_step_id p2 t2 k2 -> k1 = k2.
Proof.
  intros Heq. apply (f_equal after_last_us) in Heq.
  rewrite !make_step_id_suffix in Heq.
  apply (f_equal hexval) in Heq. rewrite !hexval_padStart in Heq. lia.
Qed.

End StepIds.

(** ** The sorting loops *)

Section SortingFacts.
Import Mapping Sorting.
Variable Date_now : nat -> Z.

Arguments push_step : simpl never.

Lemma insert_middle_0 {A} (d : list A) (x v : A) (r : list A) :
  <[length d := v]> (d ++ x :: r) = d ++ v :: r.
Proof. rewrite insert_app_r_alt by lia. by rewrite Nat.sub_diag. Qed.

Lemma insert_middle_1 {A} (d : list A) (x y v : A) (r : list A) :
  <[length d + 1 := v]> (d ++ x :: y :: r) = d ++ x :: v :: r.
Proof.
  rewrite insert_app_r_alt by lia.
  by replace (length d + 1 - length d) with 1 by lia.
Qed.

Lemma lookup_middle_1 {A} (d : list A) (x y : A) (r : list A) :
  (d ++ x :: y :: r) !! (length d + 1) = Some y.
Proof.
  rewrite lookup_app_r by lia.
  by replace (length d + 1 - length d) with 1 by lia.
Qed.

(** *** Bubble sort *)

Lemma bubble_inner_loop n i rest : forall d x suf hs this,
  (JS.for_loop (length rest) (length d) (bubble_inner Date_now n i)
     (d ++ x :: rest ++ suf, hs, this)).1 =
  (d ++ (bubble_pass x rest).1 ++ suf, hs || (bubble_pass x rest).2).
Proof.
  induction rest as [|y rest IH]; intros d x suf hs this.
  - simpl. by rewrite orb_false_r.
  - cbn [length JS.for_loop].
    unfold bubble_inner at 2.
    rewrite (list_lookup_middle d _ x (length d)) by done.
    cbn [app]. rewrite lookup_middle_1.
    destruct (y <? x)%Z eqn:Hlt.
    + rewrite insert_middle_0, insert_middle_1.
      pose proof (IH (d ++ [y]) x suf true) as IH'.
      rewrite length_app in IH'. cbn [length] in IH'.
      rewrite Nat.add_1_r, <- !app_assoc in IH'. cbn [app] in IH'.
      rewrite IH'. cbn [bubble_pass]. rewrite Hlt. cbn [fst snd app orb].
      by rewrite orb_true_r.
    + pose proof (IH (d ++ [x]) y suf hs) as IH'.
      rewrite length_app in IH'. cbn [length] in IH'.
      rewrite Nat.add_1_r, <- !app_assoc in IH'. cbn [app] in IH'.
      rewrite IH'. cbn [bubble_pass]. rewrite Hlt. reflexivity.
Qed.

Lemma bubble_pass_perm rest : forall x, (bubble_pass x rest).1 ≡ₚ x :: rest.
Proof.
  induction rest as [|y rest IH]; intros x; cbn [bubble_pass]; [done|].
  destruct (y <? x)%Z; cbn [fst].
  - rewrite IH. apply Permutation_swap.
  - by rewrite IH.
Qed.

Lemma bubble_pass_snoc rest : forall x,
  exists init m, (bubble_pass x rest).1 = init ++ [m] /\
                 Forall (fun y => y <= m)%Z init /\ (x <= m)%Z.
Proof.
  induction rest as [|y rest IH]; intros x; cbn [bubble_pass].
  - exists [], x. repeat split; [constructor | lia].
  - destruct (y <? x)%Z eqn:Hlt; cbn [fst].
    + destruct (IH x) as (init & m & -> & Hall & Hx).
      exists (y :: init), m. repeat split; [|done].
      constructor; [|done]. apply Z.ltb_lt in Hlt. lia.
    + destruct (IH y) as (init & m & -> & Hall & Hy).
      apply Z.ltb_ge in Hlt.
      exists (x :: init), m. repeat split; [|lia].
      constructor; [lia|done].
Qed.

Lemma bubble_pass_quiet rest : forall x,
  (bubble_pass x rest).2 = false ->
  (bubble_pass x rest).1 = x :: rest /\ Sorted Z.le (x :: rest).
Proof.
  induction rest as [|y rest IH]; intros x; cbn [bubble_pass].
  - intros _. split; [done|]. repeat constructor.
  - destruct (y <? x)%Z eqn:Hlt; cbn [fst snd]; [done|].
    intros Hq. destruct (IH y Hq) as [-> Hs].
    apply Z.ltb_ge in Hlt.
    split; [done|]. constructor; [done|]. by constructor.
Qed.

Lemma bubble_outer_step n x rest suf this :
  n = length (x :: rest) + length suf ->
  let r := bubble_outer Date_now n (length suf) ((x :: rest) ++ suf, this) in
  r.1.1 = (bubble_pass x rest).1 ++ suf /\ r.2 = negb (bubble_pass x rest).2.
Proof.
  intros Hn. unfold bubble_outer. cbn [fst snd].
  replace (n - length suf - 1) with (length rest) by (cbn [length] in *; lia).
  pose proof (bubble_inner_loop n (length suf) rest [] x suf false this) as Hin.
  cbn [app length] in Hin.
  destruct (JS.for_loop _ _ _ _) as [[data' hs'] this'].
  cbn [fst] in Hin. injection Hin as -> ->. done.
Qed.

Lemma bubble_outer_loop n c : forall pre suf this,
  length pre = S c -> n = length pre + length suf ->
  settled_suffix pre suf ->
  let r := JS.for_loop_break c (length suf) (bubble_outer Date_now n) (pre ++ suf, this) in
  StronglySorted Z.le r.1 /\ r.1 ≡ₚ pre ++ suf.
Proof.
  induction c as [|c IH]; intros pre suf this Hlen Hn [Hsuf Hle]; cbn zeta.
  - destruct pre as [|x [|? ?]]; try done. cbn [JS.for_loop_break fst].
    split; [|done]. apply StronglySorted_app. repeat split; [done| |done].
    repeat constructor.
  - destruct pre as [|x rest]; [done|].
    cbn [JS.for_loop_break].
    destruct (bubble_outer_step n x rest suf this Hn) as [Hd Hb].
    destruct (bubble_outer Date_now n (length suf) _) as [[data' this'] brk].
    cbn [fst snd] in *. subst data' brk.
    destruct (bubble_pass x rest).2 eqn:Hflag; cbn [negb].
    + destruct (bubble_pass_snoc rest x) as (init & m & Heq & Hall & Hx).
      pose proof (bubble_pass_perm rest x) as Hperm.
      rewrite Heq in *. rewrite <- app_assoc. cbn [app].
      assert (Hm : m ∈ x :: rest).
      { rewrite <- Hperm. apply elem_of_app. right. by apply list_elem_of_singleton. }
      assert (Hinit : forall a, a ∈ init -> a ∈ x :: rest).
      { intros a Ha. rewrite <- Hperm. apply elem_of_app. by left. }
      specialize (IH init (m :: suf)).
      cbn [length] in IH.
      edestruct IH as [Hs Hp]; [| | |split; [exact Hs|]].
      * apply Permutation_length in Hperm. rewrite length_app in Hperm.
        cbn [length] in *. lia.
      * apply Permutation_length in Hperm. rewrite length_app in Hperm.
        cbn [length] in *. lia.
      * split.
        -- constructor; [done|]. apply Forall_forall. intros b Hb. by apply Hle.
        -- intros a b Ha Hb. apply elem_of_cons in Hb as [->|Hb].
           ++ rewrite Forall_forall in Hall. by apply Hall.
           ++ apply Hle; [by apply Hinit|done].
      * rewrite Hp. transitivity ((init ++ [m]) ++ suf).
        -- by rewrite <- app_assoc.
        -- by rewrite Hperm.
    + destruct (bubble_pass_quiet rest x Hflag) as [-> Hs].
      cbn [fst]. split; [|done].
      apply StronglySorted_app. repeat split; [done| |done].
      apply Sorted_StronglySorted; [|done]. intros ???; lia.
Qed.

(** *** Selection sort *)

Lemma selection_scan data i cnt : forall lo m this,
  i <= m < lo -> lo + cnt = length data ->
  (forall k vk vm, i <= k < lo -> data !! k = Some vk -> data !! m = Some vm ->
                   (vm <= vk)%Z) ->
  let r := JS.for_loop cnt lo (selection_inner Date_now data i) (m, this) in
  i <= r.1 < length data /\
  (forall k vk vm, i <= k -> data !! k = Some vk -> data !! r.1 = Some vm ->
                   (vm <= vk)%Z).
Proof.
  induction cnt as [|cnt IH]; intros lo m this Hm Hlen Hmin; cbn zeta.
  - cbn [JS.for_loop fst]. split; [lia|].
    intros k vk vm Hk Hvk Hvm. apply (Hmin k vk vm); [|done|done].
    apply lookup_lt_Some in Hvk. lia.
  - cbn [JS.for_loop].
    destruct (lookup_lt_is_Some_2 data lo) as [a Ha]; [lia|].
    destruct (lookup_lt_is_Some_2 data m) as [b Hb]; [lia|].
    destruct (selection_inner Date_now data i lo (m, this)) as [m' this'] eqn:Hbody.
    unfold selection_inner in Hbody. rewrite Ha, Hb in Hbody.
    destruct (a <? b)%Z eqn:Hlt; injection Hbody as <- <-.
    + apply Z.ltb_lt in Hlt. apply (IH (S lo) lo); [lia|lia|].
      intros k vk vm Hk Hvk Hvm. assert (vm = a) as -> by congruence.
      destruct (decide (k = lo)) as [->|Hne]; [assert (vk = a) by congruence; lia|].
      assert (b <= vk)%Z by (apply (Hmin k vk b); [lia|done|done]). lia.
    + apply Z.ltb_ge in Hlt. apply (IH (S lo) m); [lia|lia|].
      intros k vk vm Hk Hvk Hvm. assert (vm = b) as -> by congruence.
      destruct (decide (k = lo)) as [->|Hne]; [assert (vk = a) by congruence; lia|].
      apply (Hmin k vk b); [lia|done|done].
Qed.

Lemma selection_outer_step n pre x rest this :
  n = length pre + S (length rest) ->
  exists vm rest',
    (selection_outer Date_now n (length pre) (pre ++ x :: rest, this)).1
      = pre ++ vm :: rest' /\
    vm :: rest' ≡ₚ x :: rest /\
    (forall b, b ∈ x :: rest -> (vm <= b)%Z).
Proof.
  intros Hn. unfold selection_outer.
  pose proof (selection_scan (pre ++ x :: rest) (length pre) (n - (length pre + 1))
                (length pre + 1) (length pre) this) as Hscan.
  cbn zeta in Hscan.
  assert (H1 : length pre <= length pre < length pre + 1) by lia.
  assert (H2 : length pre + 1 + (n - (length pre + 1)) = length (pre ++ x :: rest)).
  { rewrite length_app. cbn [length]. lia. }
  assert (H3 : forall k vk vm, length pre <= k < length pre + 1 ->
             (pre ++ x :: rest) !! k = Some vk ->
             (pre ++ x :: rest) !! length pre = Some vm -> (vm <= vk)%Z).
  { intros k vk vm Hk Hvk Hvm. assert (k = length pre) as -> by lia.
    assert (vk = vm) by congruence. lia. }
  specialize (Hscan H1 H2 H3). clear H1 H2 H3.
  destruct (JS.for_loop _ _ _ _) as [minIndex this1]. cbn [fst] in Hscan.
  destruct Hscan as [Hrange Hmin].
  rewrite length_app in Hrange. cbn [length] in Hrange.
  assert (Hx : (pre ++ x :: rest) !! length pre = Some x)
    by (by apply list_lookup_middle).
  assert (Hall : forall vm b, (pre ++ x :: rest) !! minIndex = Some vm ->
                              b ∈ x :: rest -> (vm <= b)%Z).
  { intros vm b Hvm Hb. apply list_elem_of_lookup_1 in Hb as [j Hj].
    apply (Hmin (length pre + j) b vm); [lia| |done].
    rewrite lookup_app_r by lia. by replace (length pre + j - length pre) with j by lia. }
  destruct (minIndex =? length pre) eqn:Heq.
  - apply Nat.eqb_eq in Heq. subst minIndex. cbn [fst].
    exists x, rest. split; [done|]. split; [done|]. intros b Hb. by apply Hall.
  - apply Nat.eqb_neq in Heq. rewrite Hx.
    assert (Hq : exists q, minIndex = length pre + S q)
      by (exists (minIndex - length pre - 1); lia).
    destruct Hq as [q ->].
    destruct (lookup_lt_is_Some_2 (pre ++ x :: rest) (length pre + S q)) as [vm Hvm].
    { rewrite length_app. cbn [length]. lia. }
    rewrite Hvm. cbn [fst].
    exists vm, (<[q := x]> rest).
    assert (Hshape : <[length pre + S q := x]> (<[length pre := vm]> (pre ++ x :: rest))
                     = pre ++ vm :: <[q := x]> rest).
    { rewrite insert_middle_0. rewrite insert_app_r_alt by lia.
      by replace (length pre + S q - length pre) with (S q) by lia. }
    split; [done|]. split; [|intros b Hb; by apply Hall].
    apply (Permutation_app_inv_l pre). rewrite <- Hshape.
    by apply Permutation_insert_swap.
Qed.

Lemma selection_outer_loop n c : forall pre rest this,
  length rest = S c -> n = length pre + length rest ->
  settled_prefix pre rest ->
  let r := JS.for_loop c (length pre) (selection_outer Date_now n) (pre ++ rest, this) in
  StronglySorted Z.le r.1 /\ r.1 ≡ₚ pre ++ rest.
Proof.
  induction c as [|c IH]; intros pre rest this Hlen Hn [Hpre Hle]; cbn zeta.
  - destruct rest as [|x [|? ?]]; try done. cbn [JS.for_loop fst].
    split; [|done]. apply StronglySorted_app. repeat split; [done|done|].
    repeat constructor.
  - destruct rest as [|x rest]; [done|].
    cbn [JS.for_loop].
    destruct (selection_outer_step n pre x rest this) as (vm & rest' & Hd & Hperm & Hmin).
    { cbn [length] in Hn. lia. }
    destruct (selection_outer Date_now n (length pre) _) as [data' this'].
    cbn [fst] in Hd. subst data'.
    assert (Hvm : vm ∈ x :: rest) by (rewrite <- Hperm; by left).
    specialize (IH (pre ++ [vm]) rest' this').
    rewrite length_app in IH. cbn [length] in IH. rewrite Nat.add_1_r in IH.
    rewrite <- app_assoc in IH. cbn [app] in IH.
    pose proof (Permutation_length Hperm) as Hl. cbn [length] in Hl, Hlen, Hn.
    edestruct IH as [Hs Hp]; [lia|lia| |split; [exact Hs|]].
    + split.
      * apply StronglySorted_app. repeat split; [|done|repeat constructor].
        intros a b Ha Hb. apply list_elem_of_singleton in Hb as ->. by apply Hle.
      * intros a b Ha Hb.
        assert (Hb' : b ∈ x :: rest) by (rewrite <- Hperm; by right).
        apply elem_of_app in Ha as [Ha|Ha]; [by apply Hle|].
        apply list_elem_of_singleton in Ha as ->. by apply Hmin.
    + rewrite Hp. by apply Permutation_app_head.
Qed.

(** *** Insertion sort *)

Lemma insertion_while_spec i key pre : forall c suf this,
  let r := insertion_while Date_now i key (length pre) (pre ++ c :: suf, this) in
  exists pre1 pre2,
    pre = pre1 ++ pre2 /\
    Forall (fun a => key < a)%Z pre2 /\
    (forall a, last pre1 = Some a -> (a <= key)%Z) /\
    <[r.1 := key]> r.2.1 = pre1 ++ key :: pre2 ++ suf.
Proof.
  induction pre as [|a pre IH] using rev_ind; intros c suf this; cbn zeta.
  - exists [], []. cbn. repeat split; [constructor|done].
  - rewrite length_app. cbn [length]. rewrite Nat.add_1_r.
    cbn [insertion_while fst snd]. rewrite <- app_assoc. cbn [app].
    rewrite (list_lookup_middle pre _ a (length pre)) by done.
    destruct (key <? a)%Z eqn:Hlt.
    + rewrite insert_middle_1.
      edestruct (IH a (a :: suf)) as (pre1 & pre2 & Hsplit & Hgt & Hlast & Heq).
      exists pre1, (pre2 ++ [a]). split; [by rewrite Hsplit, app_assoc|].
      split; [apply Forall_app; split; [done|]; constructor; [by apply Z.ltb_lt|constructor]|].
      split; [done|]. rewrite Heq. by rewrite <- app_assoc.
    + apply Z.ltb_ge in Hlt. exists (pre ++ [a]), [].
      split; [by rewrite app_nil_r|]. split; [constructor|].
      split; [intros a'; rewrite last_snoc; congruence|].
      cbn [fst snd app].
      replace (S (length pre)) with (length (pre ++ [a]))
        by (rewrite length_app; cbn [length]; lia).
      replace (pre ++ a :: c :: suf) with ((pre ++ [a]) ++ c :: suf)
        by (by rewrite <- app_assoc).
      by rewrite insert_middle_0.
Qed.

Lemma sorted_le_last (l : list Z) a z :
  StronglySorted Z.le l -> a ∈ l -> last l = Some z -> (a <= z)%Z.
Proof.
  intros Hs Ha Hlast. apply last_Some in Hlast as [l' ->].
  apply StronglySorted_app in Hs as (Hle & _ & _).
  apply elem_of_app in Ha as [Ha|Ha].
  - apply Hle; [done|]. by apply list_elem_of_singleton.
  - apply list_elem_of_singleton in Ha. lia.
Qed.

Lemma insertion_outer_step pre key suf this :
  StronglySorted Z.le pre ->
  exists pre',
    (insertion_outer Date_now (length pre) (pre ++ key :: suf, this)).1 = pre' ++ suf /\
    length pre' = S (length pre) /\
    StronglySorted Z.le pre' /\
    pre' ≡ₚ pre ++ [key].
Proof.
  intros Hs. unfold insertion_outer. cbn [fst snd].
  rewrite (list_lookup_middle pre _ key (length pre)) by done.
  match goal with
  | |- context [insertion_while _ _ _ _ (_, ?t)] =>
      destruct (insertion_while_spec (length pre) key pre key suf t)
        as (pre1 & pre2 & Hsplit & Hgt & Hlast & Heq)
  end.
  cbn [fst]. rewrite Heq. clear Heq.
  exists (pre1 ++ key :: pre2). subst pre.
  apply StronglySorted_app in Hs as (Hle & Hs1 & Hs2).
  rewrite Forall_forall in Hgt.
  split; [by rewrite <- (app_assoc pre1 (key :: pre2) suf)|].
  split; [rewrite !length_app; cbn [length]; lia|].
  split.
  - apply StronglySorted_app. repeat split; [|done|].
    + intros a b Ha Hb. apply elem_of_cons in Hb as [->|Hb]; [|by apply Hle].
      destruct (last pre1) as [z|] eqn:Hz.
      * pose proof (sorted_le_last pre1 a z Hs1 Ha Hz). specialize (Hlast z eq_refl). lia.
      * apply last_None in Hz. subst pre1. by apply elem_of_nil in Ha.
    + constructor; [done|]. apply Forall_forall. intros b Hb.
      specialize (Hgt b Hb). lia.
  - rewrite <- app_assoc. apply Permutation_app_head.
    apply Permutation_cons_append.
Qed.

Lemma insertion_outer_loop rest : forall pre this,
  StronglySorted Z.le pre ->
  let r := JS.for_loop (length rest) (length pre) (insertion_outer Date_now)
             (pre ++ rest, this) in
  StronglySorted Z.le r.1 /\ r.1 ≡ₚ pre ++ rest.
Proof.
  induction rest as [|key rest IH]; intros pre this Hs; cbn zeta.
  - cbn [length JS.for_loop fst]. by rewrite app_nil_r.
  - cbn [length JS.for_loop].
    destruct (insertion_outer_step pre key rest this Hs) as (pre' & Hd & Hlen & Hs' & Hp).
    destruct (insertion_outer Date_now (length pre) _) as [data' this'].
    cbn [fst] in Hd. subst data'. rewrite <- Hlen.
    destruct (IH pre' this' Hs') as [Hsorted Hperm].
    split; [done|]. rewrite Hperm, Hp. by rewrite <- app_assoc.
Qed.

(** *** What the generator pushes *)

Lemma steps_push_step a o this :
  steps (push_step Date_now a o this)
  = steps this ++ [(createStep Date_now a o this).1].
Proof. reflexivity. Qed.

Lemma grows_trans a b c :
  grows Date_now a b -> grows Date_now b c -> grows Date_now a c.
Proof.
  intros Hab Hbc. induction Hbc as [|b c' x o Hbc IH]; [exact Hab|].
  apply grows_push. by apply IH.
Qed.

Lemma for_loop_grows {A} (body : nat -> A * SortingAlgorithm -> A * SortingAlgorithm) :
  (forall j st, grows Date_now st.2 (body j st).2) ->
  forall cnt lo st, grows Date_now st.2 (JS.for_loop cnt lo body st).2.
Proof.
  intros Hbody cnt. induction cnt as [|cnt IH]; intros lo st; cbn [JS.for_loop].
  - constructor.
  - eapply grows_trans; [apply Hbody|apply IH].
Qed.

Lemma for_loop_break_grows {A}
    (body : nat -> A * SortingAlgorithm -> A * SortingAlgorithm * bool) :
  (forall j st, grows Date_now st.2 (body j st).1.2) ->
  forall cnt lo st, grows Date_now st.2 (JS.for_loop_break cnt lo body st).2.
Proof.
  intros Hbody cnt. induction cnt as [|cnt IH]; intros lo st; cbn [JS.for_loop_break].
  - constructor.
  - destruct (body lo st).2 eqn:Hb; [apply Hbody|].
    eapply grows_trans; [apply Hbody|apply IH].
Qed.

Lemma bubble_inner_grows n i j st :
  grows Date_now st.2 (bubble_inner Date_now n i j st).2.
Proof.
  destruct st as [[d h] this]. unfold bubble_inner. cbn [snd].
  destruct (d !! j) as [a|]; [destruct (d !! (j + 1)) as [b|];
    [destruct (b <? a)%Z|]|]; cbn [snd]; repeat constructor.
Qed.

Lemma bubble_outer_grows n i st :
  grows Date_now st.2 (bubble_outer Date_now n i st).1.2.
Proof.
  unfold bubble_outer.
  pose proof (for_loop_grows (bubble_inner Date_now n i) (bubble_inner_grows n i)
                (n - i - 1) 0 (st.1, false, st.2)) as Hin.
  destruct (JS.for_loop _ _ _ _) as [[d h] this1]. cbn [fst snd] in *.
  by constructor.
Qed.

Lemma selection_inner_grows d i j st :
  grows Date_now st.2 (selection_inner Date_now d i j st).2.
Proof.
  destruct st as [m this]. unfold selection_inner. cbn [snd].
  destruct (d !! j) as [a|]; [destruct (d !! m) as [b|];
    [destruct (a <? b)%Z|]|]; cbn [snd]; repeat constructor.
Qed.

Lemma selection_outer_grows n i st :
  grows Date_now st.2 (selection_outer Date_now n i st).2.
Proof.
  destruct st as [d this]. unfold selection_outer. cbn [snd].
  pose proof (for_loop_grows (selection_inner Date_now d i) (selection_inner_grows d i)
                (n - (i + 1)) (i + 1) (i, this)) as Hin.
  destruct (JS.for_loop _ _ _ _) as [m this1]. cbn [snd] in Hin.
  destruct (m =? i); [by constructor|].
  destruct (d !! i) as [a|]; [destruct (d !! m) as [b|]|]; cbn [snd];
    by repeat constructor.
Qed.

Lemma insertion_while_grows i key k : forall st,
  grows Date_now st.2 (insertion_while Date_now i key k st).2.2.
Proof.
  induction k as [|j IH]; intros st; cbn [insertion_while snd]; [constructor|].
  destruct (st.1 !! j) as [a|]; [|constructor].
  destruct (key <? a)%Z; [|constructor].
  eapply grows_trans; [|apply IH]. cbn [snd]. repeat constructor.
Qed.

Lemma insertion_outer_grows i st :
  grows Date_now st.2 (insertion_outer Date_now i st).2.
Proof.
  unfold insertion_outer. destruct (st.1 !! i) as [key|]; [|constructor].
  cbn [snd]. do 2 constructor.
  eapply grows_trans; [|apply insertion_while_grows]. cbn [snd]. repeat constructor.
Qed.

Lemma numbered_new t input : numbered Date_now (new_SortingAlgorithm t input).
Proof. repeat split; intros; done. Qed.

Lemma numbered_push a o this :
  numbered Date_now this -> numbered Date_now (push_step Date_now a o this).
Proof.
  intros (Hc & Hs & Hk). unfold numbered. rewrite steps_push_step.
  rewrite length_app. cbn [length]. rewrite Nat.add_1_r.
  change (idCounter (push_step Date_now a o this)) with (S (idCounter this)).
  change (cur_sequenceNumber (push_step Date_now a o this))
    with (S (cur_sequenceNumber this)).
  change (algorithmType (push_step Date_now a o this)) with (algorithmType this).
  split; [by rewrite Hc|]. split; [by rewrite Hs|].
  intros k s Hlook. apply lookup_app_Some in Hlook as [Hlook|[Hge Hlook]].
  - by apply Hk.
  - apply list_lookup_singleton_Some in Hlook as [Hz <-].
    assert (k = length (steps this)) as -> by lia.
    unfold createStep. cbn [fst sequenceNumber stepId]. by rewrite Hc, Hs.
Qed.

Lemma numbered_grows this this' :
  grows Date_now this this' -> numbered Date_now this -> numbered Date_now this'.
Proof. induction 1; [done|]. intros Hn. by apply numbered_push, IHgrows. Qed.

(** *** The three [sort] methods *)

Lemma length_nonzero {A} (l : list A) : l <> [] -> (length l =? 0) = false.
Proof. destruct l; [done|]. intros _. done. Qed.

Lemma BubbleSort_sort_spec this :
  inputData this <> [] ->
  exists this', sorted_result Date_now (inputData this) this this' (BubbleSort_sort Date_now this).
Proof.
  intros Hne. unfold BubbleSort_sort. rewrite length_nonzero by done.
  set (n := length (inputData this)).
  pose proof (bubble_outer_loop n (n - 1) (inputData this) [] this) as Hloop.
  pose proof (for_loop_break_grows (bubble_outer Date_now n) (bubble_outer_grows n)
                (n - 1) 0 (inputData this, this)) as Hg.
  cbn zeta in Hloop. rewrite app_nil_r in Hloop. cbn [length] in Hloop.
  destruct (JS.for_loop_break _ _ _ _) as [d this1]. cbn [fst snd] in *.
  destruct Hloop as [Hs Hp].
  { subst n. destruct (inputData this); [done|]. cbn [length]. lia. }
  { lia. }
  { split; [constructor|]. intros a b _ Hb. by apply elem_of_nil in Hb. }
  eexists. split; [reflexivity|]. split; [by constructor|].
  eexists. rewrite steps_push_step. split; [apply last_snoc|]. by split.
Qed.

Lemma SelectionSort_sort_spec this :
  inputData this <> [] ->
  exists this', sorted_result Date_now (inputData this) this this' (SelectionSort_sort Date_now this).
Proof.
  intros Hne. unfold SelectionSort_sort. rewrite length_nonzero by done.
  set (n := length (inputData this)).
  pose proof (selection_outer_loop n (n - 1) [] (inputData this) this) as Hloop.
  pose proof (for_loop_grows (selection_outer Date_now n) (selection_outer_grows n)
                (n - 1) 0 (inputData this, this)) as Hg.
  cbn zeta in Hloop. cbn [length app] in Hloop.
  destruct (JS.for_loop _ _ _ _) as [d this1]. cbn [fst snd] in *.
  destruct Hloop as [Hs Hp].
  { subst n. destruct (inputData this); [done|]. cbn [length]. lia. }
  { lia. }
  { split; [constructor|]. intros a b Ha _. by apply elem_of_nil in Ha. }
  eexists. split; [reflexivity|]. split; [by constructor|].
  eexists. rewrite steps_push_step. split; [apply last_snoc|]. by split.
Qed.

Lemma InsertionSort_sort_spec this :
  inputData this <> [] ->
  exists this', sorted_result Date_now (inputData this) this this' (InsertionSort_sort Date_now this).
Proof.
  intros Hne. unfold InsertionSort_sort. rewrite length_nonzero by done.
  destruct (inputData this) as [|x rest] eqn:Hin; [done|].
  pose proof (insertion_outer_loop rest [x] this) as Hloop.
  pose proof (for_loop_grows (insertion_outer Date_now) insertion_outer_grows
                (length rest) 1 (x :: rest, this)) as Hg.
  cbn zeta in Hloop. cbn [length app] in Hloop.
  replace (length (x :: rest) - 1) with (length rest) by (cbn [length]; lia).
  destruct (JS.for_loop _ _ _ _) as [d this1]. cbn [fst snd] in *.
  destruct Hloop as [Hs Hp]; [repeat constructor|].
  eexists. split; [reflexivity|]. split; [by constructor|].
  eexists. rewrite steps_push_step. split; [apply last_snoc|]. by split.
Qed.

Lemma sort_spec t input :
  input <> [] ->
  exists this',
    sorted_result Date_now input (new_SortingAlgorithm t input) this'
      (sort Date_now (new_SortingAlgorithm t input)).
Proof.
  intros Hne. unfold sort.
  destruct t; cbn [algorithmType new_SortingAlgorithm].
  - by apply (BubbleSort_sort_spec (new_SortingAlgorithm bubble_sort input)).
  - by apply (SelectionSort_sort_spec (new_SortingAlgorithm selection_sort input)).
  - by apply (InsertionSort_sort_spec (new_SortingAlgorithm insertion_sort input)).
Qed.

End SortingFacts.

(** ** Numbers *)

Section NumberFacts.

Lemma Qltb_lt x y : JS.Qltb x y = true <-> (x < y)%Q.
Proof.
  unfold JS.Qltb. rewrite negb_true_iff. split.
  - intros Hb. apply Qnot_le_lt. intros Hle. apply Qle_bool_iff in Hle. congruence.
  - intros Hlt. destruct (Qle_bool y x) eqn:Hb; [|done].
    apply Qle_bool_iff in Hb. by apply Qlt_not_le in Hlt.
Qed.

Lemma Qle_bool_inject a b : Qle_bool (inject_Z a) (inject_Z b) = (a <=? b)%Z.
Proof. unfold Qle_bool. cbn. by rewrite !Z.mul_1_r. Qed.

Lemma Qltb_inject a b : JS.Qltb (inject_Z a) (inject_Z b) = (a <? b)%Z.
Proof. unfold JS.Qltb. rewrite Qle_bool_inject. apply eq_sym, Z.ltb_antisym. Qed.

Lemma Qle_bool_Qeq x x' y y' :
  (x == x')%Q -> (y == y')%Q -> Qle_bool x y = Qle_bool x' y'.
Proof.
  intros Hx Hy. destruct (Qle_bool x' y') eqn:Hb.
  - apply Qle_bool_iff. rewrite Hx, Hy. by apply Qle_bool_iff.
  - destruct (Qle_bool x y) eqn:Hb'; [|done].
    apply Qle_bool_iff in Hb'. rewrite Hx, Hy in Hb'. apply Qle_bool_iff in Hb'.
    congruence.
Qed.

Lemma as_integer_Fin q k : JS.as_integer (JS.Fin q) = Some k <-> (q == inject_Z k)%Q.
Proof.
  cbn [JS.as_integer]. split.
  - destruct (Qeq_bool q _) eqn:Hb; [|done]. intros [= <-]. by apply Qeq_bool_iff.
  - intros Hq. assert (Qfloor q = k) as -> by (rewrite Hq; apply Qfloor_Z).
    apply Qeq_bool_iff in Hq. by rewrite Hq.
Qed.

Lemma as_integer_of_Z k : JS.as_integer (JS.of_Z k) = Some k.
Proof. by apply as_integer_Fin. Qed.

Lemma as_integer_inv x k :
  JS.as_integer x = Some k -> exists q, x = JS.Fin q /\ (q == inject_Z k)%Q.
Proof.
  destruct x as [| |q|]; try done. intros Hq. exists q. split; [done|].
  by apply as_integer_Fin.
Qed.

Lemma is_integer_spec x : JS.is_integer x = true <-> exists k, JS.as_integer x = Some k.
Proof.
  unfold JS.is_integer. destruct (JS.as_integer x) as [k|]; split; try done.
  - by exists k.
  - by intros [k ?].
Qed.

(** Comparing an integer with an integer. *)
Lemma lt_integer x k m :
  JS.as_integer x = Some k -> JS.lt x (JS.of_Z m) = (k <? m)%Z.
Proof.
  intros (q & -> & Hq)%as_integer_inv. cbn [JS.lt JS.of_Z]. unfold JS.Qltb.
  rewrite (Qle_bool_Qeq _ (inject_Z m) _ (inject_Z k)) by done.
  rewrite Qle_bool_inject. apply eq_sym, Z.ltb_antisym.
Qed.

Lemma gt_integer x k m :
  JS.as_integer x = Some k -> JS.gt x (JS.of_Z m) = (m <? k)%Z.
Proof.
  intros (q & -> & Hq)%as_integer_inv. cbn [JS.gt JS.lt JS.of_Z]. unfold JS.Qltb.
  rewrite (Qle_bool_Qeq _ (inject_Z k) _ (inject_Z m)) by done.
  rewrite Qle_bool_inject. apply eq_sym, Z.ltb_antisym.
Qed.

Lemma ge_integer x k m :
  JS.as_integer x = Some k -> JS.ge x (JS.of_Z m) = (m <=? k)%Z.
Proof.
  intros (q & -> & Hq)%as_integer_inv. cbn [JS.ge JS.le JS.of_Z].
  rewrite (Qle_bool_Qeq _ (inject_Z m) _ (inject_Z k)) by done.
  apply Qle_bool_inject.
Qed.

(** Adding an integer to an integer, and taking it away. *)
Lemma add_integer x k m :
  JS.as_integer x = Some k -> JS.as_integer (JS.add x (JS.of_Z m)) = Some (k + m)%Z.
Proof.
  intros (q & -> & Hq)%as_integer_inv. cbn [JS.add JS.of_Z].
  apply as_integer_Fin. by rewrite Hq, inject_Z_plus.
Qed.

Lemma sub_integer x k m :
  JS.as_integer x = Some k -> JS.as_integer (JS.sub x (JS.of_Z m)) = Some (k - m)%Z.
Proof.
  intros (q & -> & Hq)%as_integer_inv. cbn [JS.sub JS.of_Z].
  apply as_integer_Fin. rewrite Hq. unfold Z.sub, Qminus.
  by rewrite inject_Z_plus, inject_Z_opp.
Qed.

(** Reading an array at an integer. *)
Lemma index_integer {A : Type} (a : list A) x k :
  JS.as_integer x = Some k ->
  JS.index a x = if (k <? 0)%Z then None else a !! Z.to_nat k.
Proof. intros Hk. unfold JS.index. by rewrite Hk. Qed.

Lemma index_in_range {A : Type} (a : list A) x k :
  JS.as_integer x = Some k -> (0 <= k < Z.of_nat (length a))%Z ->
  is_Some (JS.index a x).
Proof.
  intros Hk Hr. rewrite (index_integer a x k Hk).
  destruct (k <? 0)%Z eqn:Hneg; [lia|]. apply lookup_lt_is_Some_2. lia.
Qed.

(** Only an integer within the bounds reads an element. *)
Lemma index_is_Some {A : Type} (a : list A) x :
  is_Some (JS.index a x) ->
  exists k, JS.as_integer x = Some k /\ (0 <= k < Z.of_nat (length a))%Z.
Proof.
  unfold JS.index. destruct (JS.as_integer x) as [k|]; [|by intros [? ?]].
  destruct (k <? 0)%Z eqn:Hneg; [by intros [? ?]|].
  intros Hs%lookup_lt_is_Some_1. exists k. split; [done|lia].
Qed.

(** Dividing by a number that is not 0. *)
Lemma div_Fin x y : ~ (y == 0)%Q -> JS.div (JS.Fin x) (JS.Fin y) = JS.Fin (x / y).
Proof.
  intros Hy. cbn [JS.div]. destruct (Qeq_bool y 0) eqn:Hb; [|done].
  by apply Qeq_bool_iff in Hb.
Qed.

End NumberFacts.

(** ** The controller's fields under its methods *)

Section PlayerFacts.
Import Player.
Context {NT : JS.NumberText}.

Lemma nav_clearTimer w : nav (clearTimer w) = nav w.
Proof. unfold clearTimer. by destruct (playTimer w). Qed.

Lemma nav_scheduleNextStep w : nav (scheduleNextStep w) = nav w.
Proof. unfold scheduleNextStep. by destruct (negb _). Qed.

Lemma nav_complete w : nav (complete w) = nav w.
Proof.
  unfold complete. destruct (loopMode _); cbn [snd setTimeout nav steps currentStepIndex];
    apply (nav_clearTimer w).
Qed.

Lemma nav_reset w : nav (reset w) = (steps w, JS.of_Z 0).
Proof. reflexivity. Qed.

Lemma nav_play w : nav (play w) = nav w \/ nav (play w) = (steps w, JS.of_Z 0).
Proof.
  unfold play. destruct (PlayerState_eqb (state w) playing); [by left|].
  rewrite nav_scheduleNextStep. destruct (_ && _); [by right|by left].
Qed.

Lemma nav_pause w : nav (pause w) = nav w.
Proof. unfold pause. destruct (negb _); [done|]. by rewrite nav_clearTimer. Qed.

Lemma nav_stop w : nav (stop w) = (steps w, JS.of_Z 0).
Proof.
  unfold stop. rewrite nav_reset. f_equal.
  by pose proof (f_equal fst (nav_pause w)).
Qed.

Lemma nav_nextStep w :
  nav (nextStep w)
  = (steps w, if JS.lt (currentStepIndex w) (JS.of_Z (last_index w))
              then JS.add (currentStepIndex w) (JS.of_Z 1) else currentStepIndex w).
Proof.
  unfold nextStep, last_index. destruct (JS.lt _ _); [done|]. by rewrite nav_complete.
Qed.

Lemma nav_previousStep w :
  nav (previousStep w)
  = (steps w, if JS.gt (currentStepIndex w) (JS.of_Z 0)
              then JS.sub (currentStepIndex w) (JS.of_Z 1) else currentStepIndex w).
Proof. unfold previousStep. by destruct (JS.gt _ _). Qed.

(** [jumpToStep] asks two comparisons of its argument and nothing else. *)
Lemma nav_jumpToStep i w :
  (jumpToStep i w = (None, set_currentStepIndex i w) /\
   JS.lt i (JS.of_Z 0) = false /\
   JS.ge i (JS.of_Z (Z.of_nat (length (steps w)))) = false) \/
  (jumpToStep i w = (Some (err_index i), w) /\
   (JS.lt i (JS.of_Z 0) = true \/
    JS.ge i (JS.of_Z (Z.of_nat (length (steps w)))) = true)).
Proof.
  unfold jumpToStep. destruct (_ || _) eqn:Hb.
  - right. split; [done|]. by apply orb_true_iff in Hb.
  - left. split; [done|]. by apply orb_false_iff in Hb.
Qed.

(** For an integer the two comparisons say that it is a position of the
    step list. *)
Lemma jumpToStep_integer i k w :
  JS.as_integer i = Some k ->
  (jumpToStep i w = (None, set_currentStepIndex i w) /\
   (0 <= k < Z.of_nat (length (steps w)))%Z) \/
  (jumpToStep i w = (Some (err_index i), w) /\
   ~ (0 <= k < Z.of_nat (length (steps w)))%Z).
Proof.
  intros Hk. destruct (nav_jumpToStep i w) as [(-> & H1 & H2)|[-> H]];
    rewrite (lt_integer i k 0 Hk), (ge_integer i k _ Hk) in *.
  - left. split; [done|]. lia.
  - right. split; [done|]. lia.
Qed.

Lemma nav_setPlaybackSpeed x w : nav (setPlaybackSpeed x w).2 = nav w.
Proof.
  unfold setPlaybackSpeed. destruct (_ || _); [done|]. cbn [snd].
  destruct (PlayerState_eqb _ _); [|done].
  by rewrite nav_scheduleNextStep, nav_clearTimer.
Qed.

Lemma nav_loadSteps arg w :
  (exists l, arg = Some l /\ l <> [] /\ (loadSteps arg w).1 = None /\
             nav (loadSteps arg w).2 = (l, JS.of_Z 0)) \/
  ((arg = None \/ arg = Some []) /\ loadSteps arg w = (Some err_empty_steps, w)).
Proof.
  unfold loadSteps. destruct arg as [[|s l]|]; [right; by auto| |right; by auto].
  left. exists (s :: l). split; [done|]. split; [done|]. cbn [length Nat.eqb fst snd].
  split; [done|]. destruct (autoPlay _); [|done].
  destruct (nav_play (setState idle (set_currentStepIndex (JS.of_Z 0) (set_steps (s :: l) w))))
    as [->| ->]; done.
Qed.

Lemma nav_run_callback cb w :
  nav (run_callback cb w) = nav (nextStep w) \/
  nav (run_callback cb w) = (steps w, JS.of_Z 0).
Proof.
  destruct cb; cbn [run_callback].
  - left. destruct (PlayerState_eqb _ _); [|done]. by rewrite nav_scheduleNextStep.
  - right. destruct (nav_play (reset w)) as [-> | ->]; done.
Qed.

Lemma nav_fields w l i :
  nav w = (l, i) -> steps w = l /\ currentStepIndex w = i.
Proof. unfold nav. by intros [= -> ->]. Qed.

(** *** The index as an integer *)

Lemma at_index_nextStep w k :
  at_index w k ->
  at_index (nextStep w) (if (k <? last_index w)%Z then k + 1 else k)%Z.
Proof.
  intros Hk. destruct (nav_fields _ _ _ (nav_nextStep w)) as [_ Hi].
  unfold at_index in *. rewrite Hi, (lt_integer _ k _ Hk).
  destruct (_ <? _)%Z; [by apply add_integer|done].
Qed.

Lemma at_index_previousStep w k :
  at_index w k ->
  at_index (previousStep w) (if (0 <? k)%Z then k - 1 else k)%Z.
Proof.
  intros Hk. destruct (nav_fields _ _ _ (nav_previousStep w)) as [_ Hi].
  unfold at_index in *. rewrite Hi, (gt_integer _ k _ Hk).
  destruct (_ <? _)%Z; [by apply sub_integer|done].
Qed.

Lemma index_ok_nav w w' :
  nav w' = nav w -> index_ok w -> index_ok w'.
Proof. intros [Hs Hi]%nav_fields. unfold index_ok, at_index. by rewrite Hs, Hi. Qed.

Lemma index_ok_zero w w' :
  nav w' = (steps w, JS.of_Z 0) -> index_ok w -> index_ok w'.
Proof.
  intros [Hs Hi]%nav_fields (k & _ & Hr). exists 0%Z. unfold at_index.
  rewrite Hs, Hi. split; [apply as_integer_of_Z|lia].
Qed.

Lemma index_ok_nextStep w : index_ok w -> index_ok (nextStep w).
Proof.
  intros (k & Hk & Hr). pose proof (at_index_nextStep w k Hk) as Hk'.
  destruct (nav_fields _ _ _ (nav_nextStep w)) as [Hs _].
  eexists. split; [exact Hk'|]. rewrite Hs. unfold last_index in *.
  destruct (_ <? _)%Z eqn:Hlt; lia.
Qed.

Lemma index_ok_previousStep w : index_ok w -> index_ok (previousStep w).
Proof.
  intros (k & Hk & Hr). pose proof (at_index_previousStep w k Hk) as Hk'.
  destruct (nav_fields _ _ _ (nav_previousStep w)) as [Hs _].
  eexists. split; [exact Hk'|]. rewrite Hs.
  destruct (_ <? _)%Z eqn:Hlt; lia.
Qed.

Lemma index_ok_is_Some w : index_ok w <-> is_Some (currentStep w).
Proof.
  unfold index_ok, at_index, currentStep. split.
  - intros (k & Hk & Hr). by apply (index_in_range _ _ k).
  - apply index_is_Some.
Qed.

Lemma call_index_ok m w :
  m <> m_cleanup -> integer_jump (Call m) = true ->
  index_ok w -> index_ok (call m w).2.
Proof.
  intros Hm Hint Hok. destruct m; unfold call; cbn [snd]; try done.
  - destruct (nav_loadSteps arg w) as [(l & _ & Hl & _ & Hnav)|[_ ->]]; [|done].
    apply nav_fields in Hnav as [Hs Hi]. exists 0%Z. unfold at_index. rewrite Hs, Hi.
    split; [apply as_integer_of_Z|]. destruct l; [done|]. cbn [length]. lia.
  - destruct (nav_play w) as [H|H];
      [by apply (index_ok_nav w)|by apply (index_ok_zero w)].
  - apply (index_ok_nav w); [apply nav_pause|done].
  - apply (index_ok_zero w); [apply nav_stop|done].
  - apply (index_ok_zero w); [apply nav_reset|done].
  - by apply index_ok_nextStep.
  - by apply index_ok_previousStep.
  - cbn [integer_jump] in Hint. apply is_integer_spec in Hint as [k Hk].
    destruct (jumpToStep_integer stepIndex k w Hk) as [[-> Hr]|[-> _]]; [|done].
    by exists k.
  - apply (index_ok_nav w); [apply nav_setPlaybackSpeed|done].
Qed.

Lemma run_callback_index_ok cb w : index_ok w -> index_ok (run_callback cb w).
Proof.
  intros Hok. destruct (nav_run_callback cb w) as [H|H].
  - apply (index_ok_nav (nextStep w)); [done|]. by apply index_ok_nextStep.
  - by apply (index_ok_zero w).
Qed.

Lemma step_event_index_ok e w w' :
  not_cleanup e = true -> integer_jump e = true ->
  step_event e w = Some w' -> index_ok w -> index_ok w'.
Proof.
  intros He Hint Hstep Hok. destruct e as [m|dt|h]; cbn [step_event] in Hstep.
  - injection Hstep as <-. apply call_index_ok; [|done|done]. by intros ->.
  - destruct (Qle_bool 0 dt); [|done]. by injection Hstep as <-.
  - destruct (find_timer h w) as [t|]; [|done].
    injection Hstep as <-.
    by apply run_callback_index_ok.
Qed.

Lemma run_index_ok evs : forall w w',
  forallb not_cleanup evs = true -> forallb integer_jump evs = true ->
  run evs w = Some w' -> index_ok w -> index_ok w'.
Proof.
  induction evs as [|e evs IH]; intros w w' Hall Hint Hrun Hok; cbn [run] in Hrun.
  - by injection Hrun as <-.
  - cbn [forallb] in Hall, Hint. apply andb_true_iff in Hall as [He Hall].
    apply andb_true_iff in Hint as [Hi Hint].
    destruct (step_event e w) as [w1|] eqn:Hstep; [|done].
    apply (IH w1 w'); [done|done|done|]. by apply (step_event_index_ok e w).
Qed.

(** *** How the state field moves *)

Lemma state_clearTimer w : state (clearTimer w) = state w.
Proof. unfold clearTimer. by destruct (playTimer w). Qed.

Lemma state_scheduleNextStep w : state (scheduleNextStep w) = state w.
Proof. unfold scheduleNextStep. by destruct (negb _). Qed.

Lemma state_complete w : state (complete w) = completed.
Proof. unfold complete. by destruct (loopMode _). Qed.

Lemma PlayerState_eqb_eq a b : PlayerState_eqb a b = true <-> a = b.
Proof. destruct a, b; cbn; split; congruence. Qed.

Lemma state_play w : state (play w) = playing.
Proof.
  unfold play. destruct (PlayerState_eqb (state w) playing) eqn:Hp.
  - by apply PlayerState_eqb_eq.
  - by rewrite state_scheduleNextStep.
Qed.

Lemma state_pause w :
  state (pause w) = if PlayerState_eqb (state w) playing then paused else state w.
Proof.
  unfold pause. destruct (PlayerState_eqb (state w) playing); cbn [negb]; [|done].
  by rewrite state_clearTimer.
Qed.

Lemma state_nextStep w :
  state (nextStep w)
  = if JS.lt (currentStepIndex w) (JS.of_Z (last_index w)) then state w else completed.
Proof.
  unfold nextStep, last_index. destruct (JS.lt _ _); [done|]. apply state_complete.
Qed.

Lemma state_previousStep w : state (previousStep w) = state w.
Proof. unfold previousStep. by destruct (JS.gt _ _). Qed.

Lemma state_jumpToStep i w : state (jumpToStep i w).2 = state w.
Proof. unfold jumpToStep. by destruct (_ || _). Qed.

(** A playback event leaves the step list alone, and can only produce
    [completed] out of another state by running [nextStep] at the last
    index. *)
Lemma playback_event_step e w w' :
  playback_event e = true -> step_event e w = Some w' -> index_ok w ->
  steps w' = steps w /\
  (state w' = completed ->
   state w = completed \/
   (advance_event e w = true /\
    at_index w (last_index w) /\ at_index w' (last_index w))).
Proof.
  intros He Hstep (k & Hk & Hr).
  assert (Hnext : forall v, nav v = nav w -> state v = state w ->
            steps (nextStep v) = steps w /\
            (state (nextStep v) = completed ->
             state w = completed \/
             (at_index w (last_index w) /\ at_index (nextStep v) (last_index w)))).
  { intros v Hv Hsv. apply nav_fields in Hv as [Hs Hi].
    assert (at_index v k) as Hkv by (unfold at_index; by rewrite Hi).
    pose proof (at_index_nextStep v k Hkv) as Hk'.
    destruct (nav_fields _ _ _ (nav_nextStep v)) as [Hs' _].
    rewrite state_nextStep, Hs', Hs, Hsv. split; [done|].
    rewrite (lt_integer _ k _ Hkv). unfold last_index in *. rewrite Hs in *.
    destruct (k <? _)%Z eqn:Hlt; [intros ?; by left|].
    intros _. right. replace (Z.of_nat (length (steps w)) - 1)%Z with k by lia.
    done. }
  destruct e as [m|dt|h]; cbn [step_event] in Hstep.
  - injection Hstep as <-. destruct m; try discriminate He; unfold call; cbn [snd].
    + rewrite state_play. split; [|done].
      destruct (nav_play w) as [[-> _]%nav_fields|[-> _]%nav_fields]; done.
    + rewrite state_pause. destruct (nav_fields _ _ _ (nav_pause w)) as [-> _].
      split; [done|]. destruct (PlayerState_eqb _ _); [done|by left].
    + destruct (Hnext w) as [Hs Hc]; [done|done|]. split; [done|].
      intros Hcomp. destruct (Hc Hcomp) as [?|[? ?]]; [by left|by right].
    + rewrite state_previousStep.
      destruct (nav_fields _ _ _ (nav_previousStep w)) as [-> _]. by auto.
    + rewrite state_jumpToStep.
      destruct (nav_jumpToStep stepIndex w) as [[-> _]|[-> _]]; by auto.
  - destruct (Qle_bool 0 dt); [|done]. injection Hstep as <-. by auto.
  - cbn [advance_event]. destruct (find_timer h w) as [t|]; [|done].
    injection Hstep as <-.
    destruct (callback t); cbn [run_callback].
    + destruct (Hnext (clearTimeout h w)) as [Hs Hc]; [done|done|].
      destruct (PlayerState_eqb _ _) eqn:Hp.
      * apply PlayerState_eqb_eq in Hp.
        destruct (nav_fields _ _ _ (nav_scheduleNextStep (nextStep (clearTimeout h w))))
          as [-> _].
        rewrite state_scheduleNextStep. split; [done|]. congruence.
      * split; [done|]. intros Hcomp.
        destruct (Hc Hcomp) as [?|[? ?]]; [by left|by right].
    + rewrite state_play. split; [|done].
      destruct (nav_play (reset (clearTimeout h w)))
        as [[-> _]%nav_fields|[-> _]%nav_fields]; done.
Qed.

Lemma run_playback evs : forall w w',
  forallb playback_event evs = true -> forallb integer_jump evs = true ->
  run evs w = Some w' -> index_ok w ->
  steps w' = steps w /\ index_ok w'.
Proof.
  induction evs as [|e evs IH]; intros w w' Hall Hint Hrun Hok; cbn [run] in Hrun.
  - by injection Hrun as <-.
  - cbn [forallb] in Hall, Hint. apply andb_true_iff in Hall as [He Hall].
    apply andb_true_iff in Hint as [Hi Hint].
    destruct (step_event e w) as [w1|] eqn:Hstep; [|done].
    destruct (playback_event_step e w w1 He Hstep Hok) as [Hs _].
    assert (Hok1 : index_ok w1).
    { apply (step_event_index_ok e w); [|done|done|done]. by destruct e as [[]| |]. }
    destruct (IH w1 w' Hall Hint Hrun Hok1) as [Hs' Hok']. split; [congruence|done].
Qed.

Lemma loaded_fields cfg l :
  l <> [] -> steps (loaded cfg l) = l /\ currentStepIndex (loaded cfg l) = JS.of_Z 0.
Proof.
  intros Hl. unfold loaded.
  destruct (nav_loadSteps (Some l) (new_SortingPlayer cfg))
    as [(l' & [= <-] & _ & _ & Hnav)|[[?|[= ->]] _]]; [|done|done].
  by apply nav_fields in Hnav.
Qed.

Lemma loaded_index_ok cfg l : l <> [] -> index_ok (loaded cfg l).
Proof.
  intros Hl. destruct (loaded_fields cfg l Hl) as [Hs Hi].
  exists 0%Z. unfold at_index. rewrite Hs, Hi. split; [apply as_integer_of_Z|].
  destruct l; [done|]. cbn [length]. lia.
Qed.

(** *** Timers *)

Lemma speed_rejected x :
  JS.lt (JS.Fin x) (JS.Fin (1 # 10)) || JS.gt (JS.Fin x) (JS.Fin 5) = true
  <-> (x < 1 # 10 \/ 5 < x)%Q.
Proof. cbn [JS.lt JS.gt]. rewrite orb_true_iff, !Qltb_lt. done. Qed.

Lemma speed_accepted x :
  JS.lt (JS.Fin x) (JS.Fin (1 # 10)) || JS.gt (JS.Fin x) (JS.Fin 5) = false
  <-> (1 # 10 <= x /\ x <= 5)%Q.
Proof.
  cbn [JS.lt JS.gt]. rewrite orb_false_iff. split.
  - intros [H1 H2]. split; apply Qnot_lt_le; intros Hlt; apply Qltb_lt in Hlt; congruence.
  - intros [H1 H2]. split.
    + destruct (JS.Qltb x (1 # 10)) eqn:Hb; [|done]. apply Qltb_lt in Hb.
      by apply Qle_not_lt in H1.
    + destruct (JS.Qltb 5 x) eqn:Hb; [|done]. apply Qltb_lt in Hb.
      by apply Qle_not_lt in H2.
Qed.

Lemma Qmax_0_nonneg d : (0 <= d)%Q -> (Qmax 0 d == d)%Q.
Proof. intros Hd. by apply Q.max_r. Qed.

Lemma config_clearTimer w : config (clearTimer w) = config w.
Proof. unfold clearTimer. by destruct (playTimer w). Qed.

Lemma nextHandle_clearTimer w : nextHandle (clearTimer w) = nextHandle w.
Proof. unfold clearTimer. by destruct (playTimer w). Qed.

Lemma clock_clearTimer w : clock (clearTimer w) = clock w.
Proof. unfold clearTimer. by destruct (playTimer w). Qed.

Lemma config_scheduleNextStep w : config (scheduleNextStep w) = config w.
Proof. unfold scheduleNextStep. by destruct (negb _). Qed.

Lemma timers_clearTimer w : timers (clearTimer w) = without_playTimer w.
Proof. unfold clearTimer, without_playTimer. by destruct (playTimer w). Qed.

Lemma pending_without_playTimer w t0 :
  playTimer w = Some (handle t0) -> pendingAdvances w = [t0] ->
  filter (fun t => callback t = AdvanceCallback) (without_playTimer w) = [].
Proof.
  unfold pendingAdvances, without_playTimer. intros -> Hp.
  rewrite list_filter_filter.
  rewrite (list_filter_iff _
             (fun t => handle t <> handle t0 /\ callback t = AdvanceCallback))
    by (intros t; tauto).
  rewrite <- list_filter_filter, Hp.
  by rewrite filter_cons_False by (intros H; by apply H).
Qed.

End PlayerFacts.

(** ** The timeline *)

Section StoreFacts.
Import Store.

Lemma timeline_saveSnapshot e d ds st :
  isTimeTravel st = false ->
  exists snap,
    timeline (saveSnapshot e d ds st)
    = if (maxSnapshots <? S (length (timeline st)))%nat
      then tail (timeline st ++ [snap]) else timeline st ++ [snap].
Proof.
  intros Ht. unfold saveSnapshot. rewrite Ht. eexists.
  cbn [timeline set_timeline set_currentSnapshotIndex].
  rewrite length_app. cbn [length]. rewrite Nat.add_1_r.
  destruct (_ <? _)%nat; reflexivity.
Qed.

Lemma length_tail_snoc {A} (l : list A) x : length (tail (l ++ [x])) = length l.
Proof. destruct l; cbn; [done|]. rewrite length_app. cbn. lia. Qed.

(** [saveSnapshot] never grows the timeline beyond the larger of its
    previous length and [maxSnapshots]. *)
Lemma saveSnapshot_bounded e d ds st :
  (length (timeline st) <= maxSnapshots)%nat ->
  (length (timeline (saveSnapshot e d ds st)) <= maxSnapshots)%nat.
Proof.
  intros Hb. destruct (isTimeTravel st) eqn:Ht.
  - unfold saveSnapshot. by rewrite Ht.
  - destruct (timeline_saveSnapshot e d ds st Ht) as [snap ->].
    destruct (_ <? _)%nat eqn:Hlt.
    + by rewrite length_tail_snoc.
    + apply Nat.ltb_ge in Hlt. rewrite length_app. cbn [length]. lia.
Qed.

(** Saving into a full timeline evicts the oldest entry and moves the
    bookkeeping index back by one. *)
Lemma saveSnapshot_evicts e d ds st old rest :
  isTimeTravel st = false -> timeline st = old :: rest ->
  length (timeline st) = maxSnapshots ->
  exists snap,
    timeline (saveSnapshot e d ds st) = rest ++ [snap] /\
    length (timeline (saveSnapshot e d ds st)) = maxSnapshots /\
    currentSnapshotIndex (saveSnapshot e d ds st) = (Z.of_nat maxSnapshots - 1)%Z.
Proof.
  intros Ht Htl Hlen. unfold saveSnapshot. rewrite Ht. eexists.
  cbn [timeline set_timeline set_currentSnapshotIndex currentSnapshotIndex].
  rewrite length_app, Hlen. cbn [length].
  change (maxSnapshots <? maxSnapshots + 1)%nat with true. cbn iota.
  cbn [timeline set_timeline set_currentSnapshotIndex currentSnapshotIndex].
  rewrite Htl. cbn [app tail]. split; [reflexivity|].
  rewrite length_app. cbn [length]. rewrite Htl in Hlen. cbn [length] in Hlen.
  split; lia.
Qed.

Lemma timeline_restoreSnapshot i st :
  timeline (restoreSnapshot i st).2 = timeline st.
Proof. unfold restoreSnapshot. by destruct (find_snapshot i st). Qed.

Lemma timeline_clearTimeline st : timeline (clearTimeline st) = [].
Proof. reflexivity. Qed.

Lemma timeline_importTimeline l st : timeline (importTimeline l st) = l.
Proof. reflexivity. Qed.

Lemma playbackSpeed_saveSnapshot e d ds st :
  playbackSpeed (saveSnapshot e d ds st) = playbackSpeed st.
Proof.
  unfold saveSnapshot. destruct (isTimeTravel st); [done|].
  cbn [timeline set_timeline set_currentSnapshotIndex]. by destruct (_ <? _)%nat.
Qed.

(** [Math.max(0.1, Math.min(5.0, x))] lies within [0.1, 5.0] unless [x] is
    NaN, and then it is NaN. *)
Lemma clamp_speed x :
  JS.is_NaN x = false -> speed_ok (JS.max (JS.Fin (1 # 10)) (JS.min (JS.Fin 5) x)).
Proof.
  intros Hx. destruct x as [| |q|]; [done| | |].
  - exists (1 # 10)%Q. split; [reflexivity|]. split; discriminate.
  - cbn [JS.min JS.lt]. destruct (JS.Qltb q 5) eqn:H5; cbn [JS.max JS.lt].
    + destruct (JS.Qltb (1 # 10) q) eqn:H1.
      * exists q. split; [done|]. apply Qltb_lt in H5, H1. split; by apply Qlt_le_weak.
      * exists (1 # 10)%Q. split; [done|]. split; discriminate.
    + exists 5%Q. split; [reflexivity|]. split; discriminate.
  - exists 5%Q. split; [reflexivity|]. split; discriminate.
Qed.

Lemma clamp_NaN : JS.max (JS.Fin (1 # 10)) (JS.min (JS.Fin 5) JS.NaN) = JS.NaN.
Proof. reflexivity. Qed.

(** The store's [updatePlaybackSpeed] never fails: it clamps the given speed
    into [0.1, 5.0], unless it is NaN. *)
Lemma updatePlaybackSpeed_clamps e x st :
  JS.is_NaN x = false -> speed_ok (playbackSpeed (updatePlaybackSpeed e x st)).
Proof.
  intros Hx. unfold updatePlaybackSpeed. rewrite playbackSpeed_saveSnapshot.
  cbn [playbackSpeed set_playbackSpeed set_config_playbackSpeed]. by apply clamp_speed.
Qed.

Lemma canNavigate_playing st : playerState st = Player.playing -> canNavigate st = false.
Proof. unfold canNavigate. by intros ->. Qed.

End StoreFacts.

(** ** Scenarios of the specification *)

Section Scenarios.
Import Mapping Sorting.

(** Scenario A: bubble sort of [64, 34, 25, 12, 22, 11, 90]. *)
Example scenario_A :
  final_data (generateSteps (fun _ => 1762041600000%Z) bubble_sort
                [64; 34; 25; 12; 22; 11; 90]%Z)
  = Some [11; 12; 22; 25; 34; 64; 90]%Z.
Proof. vm_compute. reflexivity. Qed.

(** Scenario C: a single element yields exactly the completion step. *)
Example scenario_C Date_now t :
  exists s, generateSteps Date_now t [42%Z] = inr [s] /\ data (arrayState s) = [42%Z].
Proof. destruct t; eexists; split; reflexivity. Qed.

(** Scenario D: three steps; [nextStep] twice reaches index 2, a third
    [nextStep] completes and stays at 2. *)
Example scenario_D :
  let w0 := loaded Player.defaultPlayerConfig [demo_step 1; demo_step 2; demo_step 3] in
  let w2 := Player.nextStep (Player.nextStep w0) in
  Player.currentStepIndex w2 = JS.of_Z 2 /\ Player.state w2 = Player.idle /\
  Player.currentStepIndex (Player.nextStep w2) = JS.of_Z 2 /\
  Player.state (Player.nextStep w2) = Player.completed.
Proof. repeat split. Qed.

End Scenarios.

(** ** The claims *)

(** *** Claims about the step generator *)

Section GeneratorClaims.
Import Mapping Sorting.

(** C1: for each of the three algorithms and every non-empty input, the
    generator returns a non-empty step list whose final step holds a
    permutation of the input in non-decreasing order. *)
Theorem generateSteps_sorts (Date_now : nat -> Z) (t : SortingAlgorithmType)
    (input : list Z) :
  input <> [] ->
  exists stps s,
    generateSteps Date_now t input = inr stps /\
    stps <> [] /\ last stps = Some s /\
    data (arrayState s) ≡ₚ input /\
    Sorted Z.le (data (arrayState s)).
Proof.
  intros Hne. destruct (sort_spec Date_now t input Hne) as (this' & Hr & _ & s & Hl & Hs & Hp).
  exists (steps this'), s. unfold generateSteps. rewrite Hr.
  split; [done|]. split; [by intros Hnil; rewrite Hnil in Hl|].
  split; [done|]. split; [done|]. by apply StronglySorted_Sorted.
Qed.

Lemma generateSteps_sorts_witness :
  [64; 34; 25; 12; 22; 11; 90]%Z <> [] /\
  exists stps s,
    generateSteps (fun _ => 1762041600000%Z) bubble_sort [64; 34; 25; 12; 22; 11; 90]%Z
      = inr stps /\
    stps <> [] /\ last stps = Some s /\
    data (arrayState s) ≡ₚ [64; 34; 25; 12; 22; 11; 90]%Z /\
    Sorted Z.le (data (arrayState s)).
Proof.
  split; [done|].
  exact (generateSteps_sorts (fun _ => 1762041600000%Z) bubble_sort
           [64; 34; 25; 12; 22; 11; 90]%Z ltac:(done)).
Defined.

(** C2: for every algorithm, generating steps from the empty input throws
    the empty-array error before anything is pushed: [sort] returns the error
    and the instance still has no steps. *)
Theorem generateSteps_empty (Date_now : nat -> Z) (t : SortingAlgorithmType) :
  generateSteps Date_now t [] = inl InvalidInputError /\
  steps (sort Date_now (new_SortingAlgorithm t [])).2 = [].
Proof. by destruct t. Qed.

(** C3: for each algorithm and every non-empty input, the sequence numbers
    of the generated steps are 1, 2, ..., N in this order, and the step ids
    are pairwise distinct. *)
Theorem generateSteps_numbering (Date_now : nat -> Z) (t : SortingAlgorithmType)
    (input : list Z) :
  input <> [] ->
  exists stps,
    generateSteps Date_now t input = inr stps /\
    map sequenceNumber stps = seq 1 (length stps) /\
    NoDup (map stepId stps).
Proof.
  intros Hne. destruct (sort_spec Date_now t input Hne) as (this' & Hr & Hg & _).
  pose proof (numbered_grows Date_now _ _ Hg (numbered_new Date_now t input))
    as (_ & _ & Hk).
  exists (steps this'). unfold generateSteps. rewrite Hr. split; [done|]. split.
  - apply list_eq. intros k. rewrite list_lookup_fmap.
    destruct (steps this' !! k) as [s|] eqn:Hs; cbn [fmap option_fmap option_map].
    + destruct (Hk k s Hs) as [-> _]. symmetry. apply lookup_seq.
      split; [lia|]. by apply lookup_lt_Some in Hs.
    + symmetry. apply lookup_seq_ge. by apply lookup_ge_None in Hs.
  - apply NoDup_alt. intros i j x Hi Hj.
    rewrite list_lookup_fmap in Hi, Hj.
    destruct (steps this' !! i) as [si|] eqn:Hsi; [|done].
    destruct (steps this' !! j) as [sj|] eqn:Hsj; [|done].
    cbn in Hi, Hj. injection Hi as <-. injection Hj as Hj.
    destruct (Hk i si Hsi) as [_ Hidi]. destruct (Hk j sj Hsj) as [_ Hidj].
    rewrite Hidi, Hidj in Hj. apply make_step_id_inj in Hj. lia.
Qed.

Lemma generateSteps_numbering_witness :
  [3; 1; 2]%Z <> [] /\
  exists stps,
    generateSteps (fun _ => 1762041600000%Z) insertion_sort [3; 1; 2]%Z = inr stps /\
    map sequenceNumber stps = seq 1 (length stps) /\
    NoDup (map stepId stps).
Proof.
  split; [done|].
  exact (generateSteps_numbering (fun _ => 1762041600000%Z) insertion_sort
           [3; 1; 2]%Z ltac:(done)).
Defined.

End GeneratorClaims.

(** *** Claims about the playback controller *)

Section PlayerClaims.
Import Player.

(** C4, as stated, fails: after three [nextStep] calls on a three-step
    sequence the controller is Completed at index 2, and [previousStep] then
    moves the index to 1 while the state stays Completed.  No reading of
    "playback has run to the end" makes Completed imply the last index,
    whatever text the numbers are given. *)
Lemma completed_away_from_last_index :
  ~ exists (NT : JS.NumberText) ran_to_end, completed_iff_at_end ran_to_end.
Proof.
  intros (NT & P & Hclaim).
  edestruct (Hclaim defaultPlayerConfig [demo_step 1; demo_step 2; demo_step 3]
               [Call m_nextStep; Call m_nextStep; Call m_nextStep; Call m_previousStep])
    as [_ [Hc _]]; [done|reflexivity|vm_compute; reflexivity|].
  destruct Hc as [Hidx _]; [reflexivity|]. vm_compute in Hidx. discriminate Hidx.
Qed.

(** C4 (amended): on a controller loaded with a non-empty list, after any
    sequence of [play], [pause], [nextStep], [previousStep] calls, [jumpToStep]
    calls with an integer target and timer events, the step list is the loaded
    one and [currentStepIndex] is an integer of [0, len-1]; a further such
    event can turn a state other than Completed into Completed only by running
    [nextStep] (called, or from the advance timer) at the last index, and it
    leaves the index there; [nextStep] at the last index always yields
    Completed; [previousStep] and [jumpToStep] never change the state, so they
    do not leave Completed, while [previousStep] still moves an index above 0
    down by one. *)
Theorem playback_index_invariant {NT : JS.NumberText} cfg l evs w :
  l <> [] ->
  forallb playback_event evs = true -> forallb integer_jump evs = true ->
  run evs (loaded cfg l) = Some w ->
  steps w = l /\
  (exists k, at_index w k /\ (0 <= k <= Z.of_nat (length l) - 1)%Z) /\
  (forall e w', playback_event e = true -> step_event e w = Some w' ->
     state w' = completed ->
     state w = completed \/
     (advance_event e w = true /\
      at_index w (Z.of_nat (length l) - 1) /\
      at_index w' (Z.of_nat (length l) - 1))) /\
  (at_index w (Z.of_nat (length l) - 1) ->
     state (nextStep w) = completed /\
     at_index (nextStep w) (Z.of_nat (length l) - 1)) /\
  (state (previousStep w) = state w /\
   forall stepIndex, state (jumpToStep stepIndex w).2 = state w) /\
  (forall k, at_index w k ->
     at_index (previousStep w) (if (0 <? k)%Z then k - 1 else k)%Z).
Proof.
  intros Hl Hall Hint Hrun.
  destruct (run_playback evs _ _ Hall Hint Hrun (loaded_index_ok cfg l Hl)) as [Hs Hok].
  destruct (loaded_fields cfg l Hl) as [Hs0 _]. rewrite Hs0 in Hs.
  split; [done|]. split.
  { destruct Hok as (k & Hk & Hr). exists k. split; [done|]. rewrite Hs in Hr. lia. }
  split; [|split; [|split; [split|]]].
  - intros e w' He Hstep Hc.
    destruct (playback_event_step e w w' He Hstep Hok) as [_ Hin].
    unfold last_index in Hin. rewrite Hs in Hin. by apply Hin.
  - intros Hlast. rewrite state_nextStep.
    pose proof (at_index_nextStep w _ Hlast) as Hnext.
    rewrite (lt_integer _ _ _ Hlast). unfold last_index in *. rewrite Hs in *.
    by rewrite Z.ltb_irrefl in *.
  - apply state_previousStep.
  - intros stepIndex. apply state_jumpToStep.
  - apply at_index_previousStep.
Qed.

Lemma playback_index_invariant_witness :
  [demo_step 1; demo_step 2] <> [] /\
  forallb playback_event
    [Call m_play; Call m_pause; Call (m_jumpToStep (JS.of_Z 1))] = true /\
  forallb integer_jump
    [Call m_play; Call m_pause; Call (m_jumpToStep (JS.of_Z 1))] = true /\
  exists w,
    run (NT := demo_text) [Call m_play; Call m_pause; Call (m_jumpToStep (JS.of_Z 1))]
      (loaded defaultPlayerConfig [demo_step 1; demo_step 2]) = Some w /\
    steps w = [demo_step 1; demo_step 2] /\
    (exists k, at_index w k /\ (0 <= k <= 1)%Z) /\
    state w = paused /\
    state (nextStep w) = completed /\ at_index (nextStep w) 1 /\
    (state w = completed \/
     (advance_event (Call m_nextStep) w = true /\
      at_index w 1 /\ at_index (nextStep w) 1)) /\
    state (previousStep (nextStep w)) = completed /\
    at_index (previousStep w) 0.
Proof.
  split; [done|]. split; [reflexivity|]. split; [reflexivity|].
  eexists. split; [vm_compute; reflexivity|].
  destruct (playback_index_invariant (NT := demo_text) defaultPlayerConfig
              [demo_step 1; demo_step 2]
              [Call m_play; Call m_pause; Call (m_jumpToStep (JS.of_Z 1))] _
              ltac:(done) eq_refl eq_refl eq_refl)
    as (Hs & Hi & Henter & Hlast & _ & Hprev).
  split; [exact Hs|]. split; [exact Hi|]. split; [reflexivity|].
  destruct (Hlast eq_refl) as [Hc Hidx].
  split; [exact Hc|]. split; [exact Hidx|].
  split; [exact (Henter (Call m_nextStep) _ eq_refl eq_refl Hc)|].
  split; [reflexivity|]. exact (Hprev 1%Z eq_refl).
Defined.

(** C5, as stated, fails: a controller that completed with loop mode off
    leaves Completed on [play]. *)
Lemma play_leaves_completed_without_loop :
  exists w,
    (forall NT : JS.NumberText,
       run [Call m_nextStep] (loaded defaultPlayerConfig [demo_step 1]) = Some w) /\
    state w = completed /\ loopMode (config w) = false /\
    state (play w) = playing.
Proof. eexists. split; [intros NT; vm_compute; reflexivity|]. repeat split. Qed.

(** C5 (amended): [play] is a no-op when already Playing; from Idle, Paused
    and Completed alike it moves to Playing.  Loop mode is not a condition for
    leaving Completed: it only decides whether the index is first reset to 0. *)
Theorem play_transitions w :
  match state w with
  | playing => play w = w
  | idle | paused =>
      state (play w) = playing /\ nav (play w) = nav w
  | completed =>
      state (play w) = playing /\
      nav (play w)
      = (steps w, if loopMode (config w) then JS.of_Z 0 else currentStepIndex w)
  end.
Proof.
  pose proof (state_play w) as Hp. unfold play in *.
  destruct (state w) eqn:Hs; cbn [PlayerState_eqb andb] in *;
    rewrite ?nav_scheduleNextStep; try done.
  split; [done|]. by destruct (loopMode _).
Qed.

(** C7: the code schedules two advances at once across a loop-mode restart.
    [loop_restart_trace] is a run in which every timer fires on time; after it
    the controller is Playing with the advances of handles 3 and 4 both
    pending, and [playTimer] only remembers handle 4. *)
Theorem loop_restart_double_schedule {NT : JS.NumberText} :
  exists w,
    run loop_restart_trace (new_SortingPlayer loop_config) = Some w /\
    on_time loop_restart_trace (new_SortingPlayer loop_config) = true /\
    state w = playing /\
    map handle (pendingAdvances w) = [3; 4] /\
    map due (pendingAdvances w) = [1700%Q; 2200%Q] /\
    playTimer w = Some 4.
Proof. eexists. split; [vm_compute; reflexivity|]. repeat split. Qed.

(** [setPlaybackSpeed] on a number other than NaN: it rejects every speed
    outside [0.1, 5.0], the infinities among them, without touching the
    player; inside the range it stores the speed, keeps the index, the steps
    and the state, and when Playing it clears the timer held in [playTimer]
    and schedules one advance with delay [600 / x], so that a player with one
    pending advance has exactly one afterwards. *)
Lemma setPlaybackSpeed_spec (x : Q) (w : World) :
  ((x < 1 # 10 \/ 5 < x)%Q -> setPlaybackSpeed (JS.Fin x) w = (Some err_speed, w)) /\
  setPlaybackSpeed JS.NegInf w = (Some err_speed, w) /\
  setPlaybackSpeed JS.PosInf w = (Some err_speed, w) /\
  ((1 # 10 <= x /\ x <= 5)%Q ->
   let w' := (setPlaybackSpeed (JS.Fin x) w).2 in
   (setPlaybackSpeed (JS.Fin x) w).1 = None /\
   playbackSpeed (config w') = JS.Fin x /\
   nav w' = nav w /\ state w' = state w /\
   (state w <> playing -> timers w' = timers w /\ playTimer w' = playTimer w) /\
   (state w = playing ->
    exists t,
      callback t = AdvanceCallback /\
      delay t = JS.Fin (600 / x) /\ (due t == clock w + 600 / x)%Q /\
      handle t = nextHandle w /\
      playTimer w' = Some (handle t) /\
      timers w' = without_playTimer w ++ [t] /\
      (forall t0, playTimer w = Some (handle t0) -> pendingAdvances w = [t0] ->
                  pendingAdvances w' = [t]))).
Proof.
  split; [|split; [reflexivity|split; [reflexivity|]]].
  - intros Hout. apply speed_rejected in Hout. unfold setPlaybackSpeed. by rewrite Hout.
  - intros Hin. pose proof Hin as [Hlo Hhi]. apply speed_accepted in Hin.
    assert (0 < x)%Q as Hpos by (apply Qlt_le_trans with (1 # 10)%Q; [reflexivity|exact Hlo]).
    assert (JS.div (JS.Fin baseDelay) (JS.Fin x) = JS.Fin (baseDelay / x)) as Hdiv.
    { apply div_Fin. intros H0. rewrite H0 in Hpos. by apply Qlt_irrefl in Hpos. }
    cbn zeta. split; [unfold setPlaybackSpeed; by rewrite Hin|].
    split; [|split; [apply nav_setPlaybackSpeed|]].
    { unfold setPlaybackSpeed. rewrite Hin. cbn [snd].
      destruct (PlayerState_eqb _ _); [|done].
      by rewrite config_scheduleNextStep, config_clearTimer. }
    unfold setPlaybackSpeed. rewrite Hin. cbn [snd state set_config].
    destruct (PlayerState_eqb (state w) playing) eqn:Hp.
    + apply PlayerState_eqb_eq in Hp.
      rewrite state_scheduleNextStep, state_clearTimer. cbn [state set_config].
      split; [done|]. split; [congruence|]. intros _.
      unfold scheduleNextStep. rewrite state_clearTimer. cbn [state set_config].
      rewrite Hp. cbn [PlayerState_eqb negb].
      exists {| handle := nextHandle w; delay := JS.Fin (baseDelay / x);
                due := (clock w + Qmax 0 (baseDelay / x))%Q;
                callback := AdvanceCallback |}.
      rewrite config_clearTimer. cbn [config set_config playbackSpeed].
      rewrite Hdiv.
      cbn [handle delay due callback setTimeout fst snd set_playTimer playTimer timers
           timeout_delay].
      rewrite nextHandle_clearTimer, clock_clearTimer, timers_clearTimer.
      cbn [nextHandle clock].
      change (without_playTimer (set_config _ w)) with (without_playTimer w).
      split; [reflexivity|]. split; [reflexivity|].
      split; [|split; [reflexivity|split; [reflexivity|split; [reflexivity|]]]].
      * rewrite Qmax_0_nonneg; [reflexivity|].
        apply Qle_shift_div_l; [done|]. rewrite Qmult_0_l. discriminate.
      * intros t0 Hh Hp0.
        unfold pendingAdvances at 1.
        cbn [timers set_playTimer setTimeout fst snd].
        rewrite filter_app.
        rewrite (pending_without_playTimer w t0 Hh Hp0). cbn [app].
        by rewrite filter_cons_True.
    + split; [done|]. split; [done|]. intros Hs. rewrite Hs in Hp. done.
Qed.

Example setPlaybackSpeed_spec_example :
  (10 < 1 # 10 \/ 5 < 10)%Q /\ (1 # 10 <= 2 /\ 2 <= 5)%Q /\
  let w := play (loaded defaultPlayerConfig [demo_step 1; demo_step 2]) in
  state w = playing /\
  map delay (pendingAdvances w) = [JS.Fin 600] /\
  setPlaybackSpeed (JS.Fin 10) w = (Some err_speed, w) /\
  (setPlaybackSpeed (JS.Fin 2) w).1 = None /\
  currentStepIndex (setPlaybackSpeed (JS.Fin 2) w).2 = currentStepIndex w /\
  exists t, delay t = JS.Fin (600 / 2) /\
            pendingAdvances (setPlaybackSpeed (JS.Fin 2) w).2 = [t].
Proof.
  assert (Hout : (10 < 1 # 10 \/ 5 < 10)%Q) by (right; reflexivity).
  assert (Hin : (1 # 10 <= 2 /\ 2 <= 5)%Q) by (split; discriminate).
  split; [exact Hout|]. split; [exact Hin|]. cbn zeta.
  split; [reflexivity|]. split; [reflexivity|].
  split; [exact (proj1 (setPlaybackSpeed_spec 10 _) Hout)|].
  destruct (proj2 (proj2 (proj2 (setPlaybackSpeed_spec 2
                     (play (loaded defaultPlayerConfig [demo_step 1; demo_step 2]))))) Hin)
    as (Hnone & _ & Hnav & _ & _ & Hplaying).
  split; [exact Hnone|].
  split; [exact (proj2 (nav_fields _ _ _ Hnav))|].
  destruct (Hplaying eq_refl) as (t & _ & Hdelay & _ & _ & _ & _ & Hone).
  exists t. split; [exact Hdelay|].
  exact (Hone {| handle := 1; delay := JS.Fin (600 / 1); due := (0 + Qmax 0 (600 / 1))%Q;
                 callback := AdvanceCallback |} eq_refl eq_refl).
Qed.

(** C9: [setPlaybackSpeed] lets NaN through.  Both comparisons of its guard
    are false on NaN, so no error is thrown and NaN becomes the playback
    speed, in every state of the player; when Playing, the timer held in
    [playTimer] is cleared and an advance is scheduled with the delay
    [600 / NaN], which is NaN: it is due at once. *)
Theorem setPlaybackSpeed_accepts_NaN (w : World) :
  let w' := (setPlaybackSpeed JS.NaN w).2 in
  (setPlaybackSpeed JS.NaN w).1 = None /\
  playbackSpeed (config w') = JS.NaN /\
  nav w' = nav w /\ state w' = state w /\
  (state w = playing ->
   exists t,
     callback t = AdvanceCallback /\
     delay t = JS.NaN /\ due t = (clock w + 0)%Q /\
     playTimer w' = Some (handle t) /\
     timers w' = without_playTimer w ++ [t]).
Proof.
  cbn zeta. split; [reflexivity|]. unfold setPlaybackSpeed.
  cbn [JS.lt JS.gt orb snd state set_config].
  split; [|split; [|split]].
  - destruct (PlayerState_eqb _ _); [|done].
    by rewrite config_scheduleNextStep, config_clearTimer.
  - destruct (PlayerState_eqb _ _); [|done].
    by rewrite nav_scheduleNextStep, nav_clearTimer.
  - destruct (PlayerState_eqb _ _); [|done].
    by rewrite state_scheduleNextStep, state_clearTimer.
  - intros Hp. rewrite Hp. cbn [PlayerState_eqb].
    unfold scheduleNextStep. rewrite state_clearTimer. cbn [state set_config].
    rewrite Hp. cbn [PlayerState_eqb negb].
    rewrite config_clearTimer. cbn [config set_config playbackSpeed JS.div].
    exists {| handle := nextHandle w; delay := JS.NaN; due := (clock w + 0)%Q;
              callback := AdvanceCallback |}.
    cbn [handle delay due callback setTimeout fst snd set_playTimer playTimer
         timers timeout_delay].
    rewrite nextHandle_clearTimer, clock_clearTimer, timers_clearTimer.
    cbn [nextHandle clock].
    change (without_playTimer (set_config _ w)) with (without_playTimer w).
    repeat split.
Qed.

(** C10, as stated, fails.  After [loadSteps] of two steps, [nextStep] and
    [cleanup] the step list is empty while the index is still 1; and
    [jumpToStep(0.5)] passes the range test and leaves an index that is no
    position of the array.  In both cases [currentStepIndex] refers to no
    step. *)
Lemma index_without_step :
  let w := (loadSteps (Some [demo_step 1; demo_step 2])
              (new_SortingPlayer defaultPlayerConfig)).2 in
  (steps (cleanup (nextStep w)) = [] /\
   currentStepIndex (cleanup (nextStep w)) = JS.of_Z 1 /\
   currentStep (cleanup (nextStep w)) = None) /\
  (forall NT : JS.NumberText,
     (jumpToStep (JS.Fin (1 # 2)) w).1 = None /\
     steps (jumpToStep (JS.Fin (1 # 2)) w).2 = [demo_step 1; demo_step 2] /\
     currentStepIndex (jumpToStep (JS.Fin (1 # 2)) w).2 = JS.Fin (1 # 2) /\
     currentStep (jumpToStep (JS.Fin (1 # 2)) w).2 = None).
Proof. cbn zeta. split; [repeat split|intros NT; repeat split]. Qed.

(** C10 (amended): [loadSteps] fails on [null] and on an empty list and
    leaves the player as it was; a successful [loadSteps] installs the given
    non-empty list with [currentStepIndex = 0], which refers to a step, and the
    index keeps referring to a step under every later event other than
    [cleanup] and [jumpToStep] with a target that is not an integer. *)
Theorem loadSteps_spec {NT : JS.NumberText} (arg : option (list Sorting.AlgorithmStep))
    (w : World) :
  (arg = None \/ arg = Some [] -> loadSteps arg w = (Some err_empty_steps, w)) /\
  (forall l, arg = Some l -> l <> [] ->
     let w' := (loadSteps arg w).2 in
     (loadSteps arg w).1 = None /\
     steps w' = l /\ (1 <= length (steps w'))%nat /\
     currentStepIndex w' = JS.of_Z 0 /\ is_Some (currentStep w') /\
     forall evs w'',
       forallb not_cleanup evs = true -> forallb integer_jump evs = true ->
       run evs w' = Some w'' ->
       is_Some (currentStep w'')).
Proof.
  split.
  - intros [->| ->]; reflexivity.
  - intros l -> Hl. cbn zeta.
    destruct (nav_loadSteps (Some l) w)
      as [(l' & [= <-] & _ & Hnone & [Hs Hi]%nav_fields)|[[?|[= ->]] _]]; [|done|done].
    assert (Hok : index_ok (loadSteps (Some l) w).2).
    { exists 0%Z. unfold at_index. rewrite Hs, Hi. split; [apply as_integer_of_Z|].
      destruct l; [done|]. cbn [length]. lia. }
    split; [done|]. split; [done|].
    split; [rewrite Hs; destruct l; [done|cbn [length]; lia]|].
    split; [done|]. split; [by apply index_ok_is_Some|].
    intros evs w'' Hall Hint Hrun. apply index_ok_is_Some.
    by apply (run_index_ok evs _ _ Hall Hint Hrun).
Qed.

Lemma loadSteps_spec_witness :
  (@None (list Sorting.AlgorithmStep) = None \/ @None (list Sorting.AlgorithmStep) = Some []) /\
  [demo_step 1; demo_step 2] <> [] /\
  forallb not_cleanup
    [Call m_play; Elapse 600%Q; TimerFires 1; Call (m_jumpToStep (JS.of_Z 0));
     Call m_stop] = true /\
  forallb integer_jump
    [Call m_play; Elapse 600%Q; TimerFires 1; Call (m_jumpToStep (JS.of_Z 0));
     Call m_stop] = true /\
  let w := new_SortingPlayer defaultPlayerConfig in
  loadSteps None w = (Some err_empty_steps, w) /\
  currentStepIndex (loadSteps (Some [demo_step 1; demo_step 2]) w).2 = JS.of_Z 0 /\
  exists w'',
    run (NT := demo_text)
      [Call m_play; Elapse 600%Q; TimerFires 1; Call (m_jumpToStep (JS.of_Z 0));
       Call m_stop]
      (loadSteps (Some [demo_step 1; demo_step 2]) w).2 = Some w'' /\
    is_Some (currentStep w'').
Proof.
  assert (H1 : @None (list Sorting.AlgorithmStep) = None
               \/ @None (list Sorting.AlgorithmStep) = Some []) by (by left).
  assert (H2 : [demo_step 1; demo_step 2] <> []) by done.
  split; [exact H1|]. split; [exact H2|]. split; [reflexivity|]. split; [reflexivity|].
  cbn zeta.
  split; [exact (proj1 (loadSteps_spec (NT := demo_text) None _) H1)|].
  destruct (proj2 (loadSteps_spec (NT := demo_text) (Some [demo_step 1; demo_step 2])
                     (new_SortingPlayer defaultPlayerConfig)) _ eq_refl H2)
    as (_ & _ & _ & Hi & _ & Hinv).
  split; [exact Hi|]. eexists. split; [vm_compute; reflexivity|].
  apply (Hinv [Call m_play; Elapse 600%Q; TimerFires 1; Call (m_jumpToStep (JS.of_Z 0));
               Call m_stop]);
    [reflexivity|reflexivity|vm_compute; reflexivity].
Defined.

End PlayerClaims.

(** *** Claims about navigation guards and the snapshot store *)

(** C6, as stated, fails on the controller: while it is Playing, [nextStep]
    returns normally and moves the index from 0 to 1. *)
Lemma nextStep_while_playing_advances :
  exists w,
    (forall NT : JS.NumberText,
       Player.run [Player.Call Player.m_play]
         (Player.loadSteps (Some [demo_step 1; demo_step 2])
            (Player.new_SortingPlayer Player.defaultPlayerConfig)).2 = Some w /\
       (Player.call Player.m_nextStep w).1 = None /\
       Player.currentStepIndex (Player.call Player.m_nextStep w).2 = JS.of_Z 1) /\
    Player.state w = Player.playing /\
    Player.currentStepIndex w = JS.of_Z 0.
Proof. eexists. split; [intros NT; split; [vm_compute; reflexivity|]|]; repeat split. Qed.

(** C6 (amended): the guard lives in the store, not in the controller.
    While the store's [playerState] is Playing, [nextStep] and [previousStep]
    leave the store unchanged, failing with the navigation error unless the
    move is clamped at a sequence boundary (then they return silently).
    [SortingPlayer.nextStep] and [previousStep] never fail: while Playing they
    move the index as in any other state, [nextStep] completing at the last
    index. *)
Theorem navigation_while_playing {NT : JS.NumberText} :
  (forall e st, Store.playerState st = Player.playing ->
     Store.nextStep e st
     = (if JS.lt (Store.currentStep st) (JS.of_Z (Store.totalSteps st - 1))
        then Some {| Sorting.message := "無法在播放期間跳轉步驟" |} else None, st) /\
     Store.previousStep e st
     = (if JS.gt (Store.currentStep st) (JS.of_Z 0)
        then Some {| Sorting.message := "無法在播放期間跳轉步驟" |} else None, st)) /\
  (forall w, Player.state w = Player.playing ->
     (Player.call Player.m_nextStep w).1 = None /\
     (Player.call Player.m_previousStep w).1 = None /\
     nav (Player.nextStep w)
     = (Player.steps w,
        if JS.lt (Player.currentStepIndex w) (JS.of_Z (last_index w))
        then JS.add (Player.currentStepIndex w) (JS.of_Z 1)
        else Player.currentStepIndex w) /\
     Player.state (Player.nextStep w)
     = (if JS.lt (Player.currentStepIndex w) (JS.of_Z (last_index w))
        then Player.playing else Player.completed) /\
     nav (Player.previousStep w)
     = (Player.steps w,
        if JS.gt (Player.currentStepIndex w) (JS.of_Z 0)
        then JS.sub (Player.currentStepIndex w) (JS.of_Z 1)
        else Player.currentStepIndex w) /\
     Player.state (Player.previousStep w) = Player.playing).
Proof.
  split.
  - intros e st Hp. unfold Store.nextStep, Store.previousStep, Store.jumpToStep.
    rewrite (canNavigate_playing st Hp). cbn [negb].
    split; [by destruct (JS.lt _ _)|by destruct (JS.gt _ _)].
  - intros w Hp. split; [done|]. split; [done|].
    rewrite nav_nextStep, nav_previousStep, state_nextStep, state_previousStep, Hp.
    done.
Qed.

Lemma navigation_while_playing_witness :
  let st := Store.set_playerState Player.playing
              (Store.set_steps [demo_step 1; demo_step 2] Store.initial) in
  let e := {| Store.now_id := 0; Store.random_part := "x"; Store.now_stamp := 0 |} in
  let w := Player.play (loaded Player.defaultPlayerConfig [demo_step 1; demo_step 2]) in
  Store.playerState st = Player.playing /\
  Player.state w = Player.playing /\
  Store.nextStep (NT := demo_text) e st
    = (Some {| Sorting.message := "無法在播放期間跳轉步驟" |}, st) /\
  Store.previousStep (NT := demo_text) e st = (None, st) /\
  Player.currentStepIndex (Player.nextStep w) = JS.of_Z 1.
Proof.
  cbn zeta. split; [reflexivity|]. split; [reflexivity|].
  destruct (navigation_while_playing (NT := demo_text)) as [Hstore Hplayer].
  destruct (Hstore {| Store.now_id := 0; Store.random_part := "x"; Store.now_stamp := 0 |}
              (Store.set_playerState Player.playing
                 (Store.set_steps [demo_step 1; demo_step 2] Store.initial)) eq_refl)
    as [Hn Hp].
  split; [exact Hn|]. split; [exact Hp|].
  destruct (Hplayer (Player.play (loaded Player.defaultPlayerConfig
                                    [demo_step 1; demo_step 2])) eq_refl)
    as (_ & _ & Hnav & _).
  apply nav_fields in Hnav as [_ Hi]. exact Hi.
Defined.

(** C8: [importTimeline] installs whatever list it is given.  Importing 101
    snapshots leaves 101 stored, above [maxSnapshots = 100], and later saves
    keep the count at 101 because each evicts only one entry. *)
Theorem importTimeline_exceeds_bound :
  let st := Store.importTimeline (map demo_snapshot (seq 0 101)) Store.initial in
  length (Store.timeline st) = 101 /\
  (Store.maxSnapshots < length (Store.timeline st))%nat /\
  Store.currentSnapshotIndex st = 100%Z /\
  forall e d ds, length (Store.timeline (Store.saveSnapshot e d ds st)) = 101.
Proof.
  cbn zeta. split; [reflexivity|]. split; [vm_compute; lia|]. split; [reflexivity|].
  intros e d ds.
  destruct (timeline_saveSnapshot e d ds
              (Store.importTimeline (map demo_snapshot (seq 0 101)) Store.initial) eq_refl)
    as [snap ->].
  rewrite timeline_importTimeline.
  change (Store.maxSnapshots <? _)%nat with true. cbn iota.
  by rewrite length_tail_snoc.
Qed.

(** * Further properties *)

(** ** The validators *)

Section ValidatorFacts.
Import Mapping Sorting.
Variable Date_now : nat -> Z.

Lemma check_sequence_spec stps : forall i,
  check_sequence i stps = true <-> map sequenceNumber stps = seq (S i) (length stps).
Proof.
  induction stps as [|s r IH]; intros i; cbn [check_sequence map length seq]; [done|].
  rewrite Nat.add_1_r.
  destruct (sequenceNumber s =? S i) eqn:E; cbn [negb].
  - apply Nat.eqb_eq in E. rewrite IH, E. split; [by intros ->|].
    intros H. by injection H.
  - apply Nat.eqb_neq in E. split; [done|]. intros H. by injection H.
Qed.

Lemma length_remove_dups_le (l : list string) : length (remove_dups l) <= length l.
Proof.
  induction l as [|x l IH]; cbn [remove_dups length]; [done|].
  destruct (decide_rel elem_of x l); cbn [length]; lia.
Qed.

Lemma length_remove_dups_NoDup (l : list string) :
  length (remove_dups l) = length l <-> NoDup l.
Proof.
  induction l as [|x l IH]; cbn [remove_dups length].
  - split; [constructor|done].
  - pose proof (length_remove_dups_le l) as Hle.
    destruct (decide_rel elem_of x l) as [Hin|Hin]; cbn [length].
    + split; [lia|]. intros Hnd. apply NoDup_cons in Hnd as [Hx _]. done.
    + rewrite NoDup_cons. split.
      * intros H. split; [done|]. apply IH. lia.
      * intros [_ H]. apply IH in H. lia.
Qed.

Lemma numbered_sequence this :
  numbered Date_now this ->
  map sequenceNumber (steps this) = seq 1 (length (steps this)) /\
  NoDup (map stepId (steps this)).
Proof.
  intros (_ & _ & Hk). split.
  - apply list_eq. intros k. rewrite list_lookup_fmap.
    destruct (steps this !! k) as [s|] eqn:Hs; cbn [fmap option_fmap option_map].
    + destruct (Hk k s Hs) as [-> _]. symmetry. apply lookup_seq.
      split; [lia|]. by apply lookup_lt_Some in Hs.
    + symmetry. apply lookup_seq_ge. by apply lookup_ge_None in Hs.
  - apply NoDup_alt. intros i j x Hi Hj.
    rewrite list_lookup_fmap in Hi, Hj.
    destruct (steps this !! i) as [si|] eqn:Hsi; [|done].
    destruct (steps this !! j) as [sj|] eqn:Hsj; [|done].
    cbn in Hi, Hj. injection Hi as <-. injection Hj as Hj.
    destruct (Hk i si Hsi) as [_ Hidi]. destruct (Hk j sj Hsj) as [_ Hidj].
    rewrite Hidi, Hidj in Hj. apply make_step_id_inj in Hj. lia.
Qed.

End ValidatorFacts.

(** ** Every generated step is well formed *)

Section StepFacts.
Import Mapping Sorting.
Variable Date_now : nat -> Z.

Lemma pushes_trans P a b c :
  pushes Date_now P a b -> pushes Date_now P b c -> pushes Date_now P a c.
Proof.
  intros Hab Hbc. induction Hbc as [|b c' x o Hbc IH HP]; [exact Hab|].
  apply pushes_push; [by apply IH|done].
Qed.

Lemma pushes_steps P this this' :
  pushes Date_now P this this' ->
  exists added,
    steps this' = steps this ++ added /\
    Forall (fun s => P (arrayState s) (operation s) /\
                     visualHints s = getVisualHints (op_type (operation s))) added.
Proof.
  induction 1 as [|this this' a o Hp IH HP].
  - exists []. by rewrite app_nil_r.
  - destruct IH as (added & Heq & Hall).
    exists (added ++ [(createStep Date_now a o this').1]).
    rewrite steps_push_step, Heq, app_assoc. split; [done|].
    apply Forall_app. split; [done|]. by repeat constructor.
Qed.

Lemma for_loop_inv {A} (I : nat -> A -> Prop) (body : nat -> A -> A) :
  forall cnt lo st,
    (forall j st, lo <= j < lo + cnt -> I j st -> I (S j) (body j st)) ->
    I lo st -> I (lo + cnt) (JS.for_loop cnt lo body st).
Proof.
  induction cnt as [|cnt IH]; intros lo st Hb H0; cbn [JS.for_loop].
  - by rewrite Nat.add_0_r.
  - rewrite <- Nat.add_succ_comm. apply IH.
    + intros j st' Hj. apply Hb. lia.
    + apply Hb; [lia|done].
Qed.

Lemma for_loop_break_inv {A} (I : A -> Prop) (body : nat -> A -> A * bool) :
  forall cnt lo st,
    (forall j st, lo <= j < lo + cnt -> I st -> I (body j st).1) ->
    I st -> I (JS.for_loop_break cnt lo body st).
Proof.
  induction cnt as [|cnt IH]; intros lo st Hb H0; cbn [JS.for_loop_break]; [done|].
  assert (I (body lo st).1) as H1 by (apply Hb; [lia|done]).
  destruct (body lo st).2; [done|].
  apply IH; [|done]. intros j st' Hj. apply Hb. lia.
Qed.

Ltac wf_step :=
  unfold step_wf, state_in_range, marks_agree, data_from, op_of, pair_in_range,
         bubble_regions, selection_regions;
  cbn [data highlightedIndices comparisonPair swapPair sortedRegions op_type];
  repeat match goal with
         | |- context [(0 <? ?i)%nat] =>
             let E := fresh in
             destruct (0 <? i)%nat eqn:E; [apply Nat.ltb_lt in E|]
         end;
  repeat match goal with
         | |- _ /\ _ => split
         | |- Forall _ [] => constructor
         | |- Forall _ (_ :: _) => constructor
         | |- region_in_range _ _ => unfold region_in_range; cbn [r_start r_end]
         end;
  try done; try lia; auto.

(** *** Bubble sort *)

Lemma bubble_inner_wf input n i j this0 st :
  n = length input -> j + 1 < n ->
  st.1.1 ≡ₚ input -> pushes Date_now (step_wf bubble_sort input) this0 st.2 ->
  (bubble_inner Date_now n i j st).1.1 ≡ₚ input /\
  pushes Date_now (step_wf bubble_sort input) this0 (bubble_inner Date_now n i j st).2.
Proof.
  intros Hn Hj Hp Hpush. destruct st as [[d hs] this]. cbn [fst snd] in *.
  pose proof (Permutation_length Hp) as Hlen.
  unfold bubble_inner.
  destruct (d !! j) as [a|] eqn:Ha; [destruct (d !! (j + 1)) as [b|] eqn:Hb;
    [destruct (b <? a)%Z|]|]; cbn [fst snd].
  - split; [by rewrite (Permutation_insert_swap d j (j + 1) a b)|].
    apply pushes_push; [apply pushes_push; [done|]|]; wf_step.
  - split; [done|]. apply pushes_push; [done|]. wf_step.
  - split; [done|]. apply pushes_push; [done|]. wf_step.
  - split; [done|]. apply pushes_push; [done|]. wf_step.
Qed.

Lemma bubble_outer_wf input n i this0 st :
  n = length input -> i < n - 1 ->
  st.1 ≡ₚ input -> pushes Date_now (step_wf bubble_sort input) this0 st.2 ->
  (bubble_outer Date_now n i st).1.1 ≡ₚ input /\
  pushes Date_now (step_wf bubble_sort input) this0 (bubble_outer Date_now n i st).1.2.
Proof.
  intros Hn Hi Hp Hpush. unfold bubble_outer.
  pose proof (for_loop_inv
    (fun _ s => s.1.1 ≡ₚ input /\
                pushes Date_now (step_wf bubble_sort input) this0 s.2)
    (bubble_inner Date_now n i) (n - i - 1) 0 (st.1, false, st.2)) as Hloop.
  cbn beta in Hloop.
  destruct (JS.for_loop _ _ _ _) as [[d hs] this]. cbn [fst snd] in *.
  destruct Hloop as [Hd Hq].
  { intros j s Hj [H1 H2]. apply bubble_inner_wf; [done|lia|done|done]. }
  { done. }
  pose proof (Permutation_length Hd) as Hlen.
  split; [done|]. apply pushes_push; [done|]. wf_step.
Qed.

Lemma BubbleSort_sort_wf this :
  inputData this <> [] ->
  pushes Date_now (step_wf bubble_sort (inputData this)) this
    (BubbleSort_sort Date_now this).2.
Proof.
  intros Hne. unfold BubbleSort_sort. rewrite length_nonzero by done.
  set (n := length (inputData this)).
  assert (0 < n) as Hpos by (subst n; destruct (inputData this); [done|cbn; lia]).
  pose proof (for_loop_break_inv
    (fun s => s.1 ≡ₚ inputData this /\
              pushes Date_now (step_wf bubble_sort (inputData this)) this s.2)
    (bubble_outer Date_now n) (n - 1) 0 (inputData this, this)) as Hloop.
  cbn beta in Hloop.
  destruct (JS.for_loop_break _ _ _ _) as [d this1]. cbn [fst snd] in *.
  destruct Hloop as [Hd Hq].
  { intros j s Hj [H1 H2]. apply bubble_outer_wf; [done|lia|done|done]. }
  { split; [done|constructor]. }
  pose proof (Permutation_length Hd) as Hlen.
  apply pushes_push; [done|]. wf_step.
Qed.

(** *** Selection sort *)

Lemma selection_inner_wf input d i j this0 st :
  d ≡ₚ input -> i <= st.1 < j -> j < length input ->
  pushes Date_now (step_wf selection_sort input) this0 st.2 ->
  i <= (selection_inner Date_now d i j st).1 < S j /\
  pushes Date_now (step_wf selection_sort input) this0
    (selection_inner Date_now d i j st).2.
Proof.
  intros Hp Hm Hj Hpush. destruct st as [m this]. cbn [fst snd] in *.
  pose proof (Permutation_length Hp) as Hlen.
  unfold selection_inner.
  destruct (d !! j) as [a|] eqn:Ha; [destruct (d !! m) as [b|] eqn:Hb;
    [destruct (a <? b)%Z|]|]; cbn [fst snd].
  - split; [lia|]. apply pushes_push; [apply pushes_push; [done|]|]; wf_step.
  - split; [lia|]. apply pushes_push; [done|]. wf_step.
  - split; [lia|]. apply pushes_push; [done|]. wf_step.
  - split; [lia|]. apply pushes_push; [done|]. wf_step.
Qed.

Lemma selection_outer_wf input n i this0 st :
  n = length input -> i < n - 1 ->
  st.1 ≡ₚ input -> pushes Date_now (step_wf selection_sort input) this0 st.2 ->
  (selection_outer Date_now n i st).1 ≡ₚ input /\
  pushes Date_now (step_wf selection_sort input) this0 (selection_outer Date_now n i st).2.
Proof.
  intros Hn Hi Hp Hpush. destruct st as [d this]. cbn [fst snd] in *.
  pose proof (Permutation_length Hp) as Hlen.
  unfold selection_outer.
  pose proof (for_loop_inv
    (fun j s => i <= s.1 < j /\
                pushes Date_now (step_wf selection_sort input) this0 s.2)
    (selection_inner Date_now d i) (n - (i + 1)) (i + 1) (i, this)) as Hloop.
  cbn beta in Hloop.
  destruct (JS.for_loop _ _ _ _) as [m this1]. cbn [fst snd] in *.
  destruct Hloop as [Hm Hq].
  { intros j s Hj [H1 H2]. apply selection_inner_wf; [done|done|lia|done]. }
  { split; [lia|done]. }
  destruct (m =? i) eqn:Hmi.
  - cbn [fst snd]. split; [done|]. apply pushes_push; [done|]. wf_step.
  - apply Nat.eqb_neq in Hmi.
    destruct (d !! i) as [temp|] eqn:Ht; [destruct (d !! m) as [mv|] eqn:Hv|];
      cbn [fst snd].
    + pose proof (Permutation_insert_swap d i m temp mv Ht Hv) as Hsw.
      pose proof (Permutation_length Hsw) as Hlen'.
      split; [by rewrite Hsw|].
      apply pushes_push; [apply pushes_push; [done|]|]; wf_step; by rewrite Hsw.
    + split; [done|]. apply pushes_push; [apply pushes_push; [done|]|]; wf_step.
    + split; [done|]. apply pushes_push; [apply pushes_push; [done|]|]; wf_step.
Qed.

Lemma SelectionSort_sort_wf this :
  inputData this <> [] ->
  pushes Date_now (step_wf selection_sort (inputData this)) this
    (SelectionSort_sort Date_now this).2.
Proof.
  intros Hne. unfold SelectionSort_sort. rewrite length_nonzero by done.
  set (n := length (inputData this)).
  assert (0 < n) as Hpos by (subst n; destruct (inputData this); [done|cbn; lia]).
  pose proof (for_loop_inv
    (fun _ s => s.1 ≡ₚ inputData this /\
                pushes Date_now (step_wf selection_sort (inputData this)) this s.2)
    (selection_outer Date_now n) (n - 1) 0 (inputData this, this)) as Hloop.
  cbn beta in Hloop.
  destruct (JS.for_loop _ _ _ _) as [d this1]. cbn [fst snd] in *.
  destruct Hloop as [Hd Hq].
  { intros j s Hj [H1 H2]. apply selection_outer_wf; [done|lia|done|done]. }
  { split; [done|constructor]. }
  pose proof (Permutation_length Hd) as Hlen.
  apply pushes_push; [done|]. wf_step.
Qed.

(** *** Insertion sort *)

Lemma insert_subseteq (d input : list Z) k x :
  d ⊆ input -> x ∈ input -> <[k:=x]> d ⊆ input.
Proof.
  intros Hd Hx y Hy. apply list_elem_of_lookup in Hy as [m Hm].
  apply list_lookup_insert_Some in Hm as [(-> & -> & _)|[_ Hm]]; [done|].
  apply Hd. by eapply list_elem_of_lookup_2.
Qed.

Lemma insertion_while_wf input i key this0 : forall k st,
  k <= i -> i < length input ->
  length st.1 = length input -> st.1 ⊆ input ->
  pushes Date_now (step_wf insertion_sort input) this0 st.2 ->
  let r := insertion_while Date_now i key k st in
  r.1 <= k /\ length r.2.1 = length input /\ r.2.1 ⊆ input /\
  pushes Date_now (step_wf insertion_sort input) this0 r.2.2.
Proof.
  induction k as [|j IH]; intros st Hk Hi Hlen Hsub Hpush; cbn zeta;
    cbn [insertion_while]; [done|].
  destruct (st.1 !! j) as [a|] eqn:Ha; [destruct (key <? a)%Z|]; cbn [fst snd];
    [|done|done].
  assert (a ∈ input) as Hain by (apply Hsub; by eapply list_elem_of_lookup_2).
  pose proof (insert_subseteq st.1 input (j + 1) a Hsub Hain) as Hsub'.
  pose proof (length_insert st.1 (j + 1) a) as Hlen'.
  match goal with
  | |- context [insertion_while Date_now i key j ?s] => pose proof (IH s) as Hw
  end.
  cbn zeta in Hw. cbn [fst snd] in Hw.
  destruct Hw as (H1 & H2 & H3 & H4); [lia|done|lia|done| |].
  - apply pushes_push; [apply pushes_push; [done|]|]; wf_step.
  - split; [lia|]. split; [exact H2|]. split; [exact H3|exact H4].
Qed.

Lemma insertion_outer_wf input i this0 st :
  1 <= i < length input ->
  length st.1 = length input -> st.1 ⊆ input ->
  pushes Date_now (step_wf insertion_sort input) this0 st.2 ->
  length (insertion_outer Date_now i st).1 = length input /\
  (insertion_outer Date_now i st).1 ⊆ input /\
  pushes Date_now (step_wf insertion_sort input) this0 (insertion_outer Date_now i st).2.
Proof.
  intros Hi Hlen Hsub Hpush. unfold insertion_outer.
  destruct (st.1 !! i) as [key|] eqn:Hkey; [|done].
  assert (key ∈ input) as Hkin by (apply Hsub; by eapply list_elem_of_lookup_2).
  match goal with
  | |- context [insertion_while Date_now i key i ?s] =>
      pose proof (insertion_while_wf input i key this0 i s) as Hw;
      destruct (insertion_while Date_now i key i s) as [k [d' this']]
  end.
  cbn zeta in Hw. cbn [fst snd] in *.
  destruct Hw as (Hk & Hlen' & Hsub' & Hq); [lia|lia|done|done| |].
  { apply pushes_push; [done|]. wf_step. }
  pose proof (insert_subseteq d' input k key Hsub' Hkin) as Hsub2.
  pose proof (length_insert d' k key) as Hlen2.
  split; [lia|]. split; [done|].
  apply pushes_push; [apply pushes_push; [done|]|]; wf_step.
Qed.

Lemma InsertionSort_sort_wf this :
  inputData this <> [] ->
  pushes Date_now (step_wf insertion_sort (inputData this)) this
    (InsertionSort_sort Date_now this).2.
Proof.
  intros Hne. unfold InsertionSort_sort. rewrite length_nonzero by done.
  set (n := length (inputData this)).
  assert (0 < n) as Hpos by (subst n; destruct (inputData this); [done|cbn; lia]).
  pose proof (for_loop_inv
    (fun _ s => length s.1 = length (inputData this) /\ s.1 ⊆ inputData this /\
                pushes Date_now (step_wf insertion_sort (inputData this)) this s.2)
    (insertion_outer Date_now) (n - 1) 1 (inputData this, this)) as Hloop.
  cbn beta in Hloop.
  destruct (JS.for_loop _ _ _ _) as [d this1]. cbn [fst snd] in *.
  destruct Hloop as (Hlen & Hsub & Hq).
  { intros j s Hj (H1 & H2 & H3). apply insertion_outer_wf; [lia|done|done|done]. }
  { split; [done|]. split; [done|constructor]. }
  apply pushes_push; [done|]. wf_step.
Qed.

Lemma sort_wf this :
  inputData this <> [] ->
  pushes Date_now (step_wf (algorithmType this) (inputData this)) this
    (sort Date_now this).2.
Proof.
  intros Hne. unfold sort. destruct (algorithmType this).
  - by apply BubbleSort_sort_wf.
  - by apply SelectionSort_sort_wf.
  - by apply InsertionSort_sort_wf.
Qed.

Lemma sort_spec_any this :
  inputData this <> [] ->
  exists this', sorted_result Date_now (inputData this) this this' (sort Date_now this).
Proof.
  intros Hne. unfold sort. destruct (algorithmType this).
  - by apply BubbleSort_sort_spec.
  - by apply SelectionSort_sort_spec.
  - by apply InsertionSort_sort_spec.
Qed.

Lemma generateSteps_wf t input :
  input <> [] ->
  exists stps,
    generateSteps Date_now t input = inr stps /\
    Forall (fun s => step_wf t input (arrayState s) (operation s) /\
                     visualHints s = getVisualHints (op_type (operation s))) stps.
Proof.
  intros Hne.
  destruct (sort_spec Date_now t input Hne) as (this' & Hr & _).
  pose proof (sort_wf (new_SortingAlgorithm t input) Hne) as Hp.
  rewrite Hr in Hp. cbn [snd algorithmType inputData new_SortingAlgorithm] in Hp.
  apply pushes_steps in Hp as (added & Heq & Hall).
  exists (steps this'). unfold generateSteps. rewrite Hr. split; [done|].
  by rewrite Heq.
Qed.

(** *** Running [sort] again on the same instance *)

Lemma grows_fields this this' :
  grows Date_now this this' ->
  algorithmType this' = algorithmType this /\ inputData this' = inputData this /\
  exists added, steps this' = steps this ++ added.
Proof.
  induction 1 as [|this this' a o Hg (Ht & Hi & added & Hs)].
  - split; [done|]. split; [done|]. exists []. by rewrite app_nil_r.
  - split; [done|]. split; [done|].
    exists (added ++ [(createStep Date_now a o this').1]).
    by rewrite steps_push_step, Hs, app_assoc.
Qed.

End StepFacts.

(** ** How many steps are generated *)

Section StepCounts.
Import Mapping Sorting.
Variable Date_now : nat -> Z.

Lemma length_push_step a o this :
  length (steps (push_step Date_now a o this)) = S (length (steps this)).
Proof. rewrite steps_push_step, length_app. cbn [length]. lia. Qed.

Lemma for_loop_count {A} (body : nat -> A * SortingAlgorithm -> A * SortingAlgorithm) c :
  forall cnt lo st,
    (forall j st, lo <= j < lo + cnt ->
                  length (steps (body j st).2) <= length (steps st.2) + c) ->
    length (steps (JS.for_loop cnt lo body st).2) <= length (steps st.2) + cnt * c.
Proof.
  induction cnt as [|cnt IH]; intros lo st Hb; cbn [JS.for_loop]; [lia|].
  specialize (IH (S lo) (body lo st)).
  pose proof (Hb lo st). 
  assert (length (steps (JS.for_loop cnt (S lo) body (body lo st)).2)
          <= length (steps (body lo st).2) + cnt * c) as H1.
  { apply IH. intros j st' Hj. apply Hb. lia. }
  lia.
Qed.

Lemma for_loop_break_count {A}
    (body : nat -> A * SortingAlgorithm -> A * SortingAlgorithm * bool) c :
  forall cnt lo st,
    (forall j st, lo <= j < lo + cnt ->
                  length (steps (body j st).1.2) <= length (steps st.2) + c) ->
    length (steps (JS.for_loop_break cnt lo body st).2) <= length (steps st.2) + cnt * c.
Proof.
  induction cnt as [|cnt IH]; intros lo st Hb; cbn [JS.for_loop_break]; [lia|].
  pose proof (Hb lo st).
  destruct (body lo st).2; [lia|].
  assert (length (steps (JS.for_loop_break cnt (S lo) body (body lo st).1).2)
          <= length (steps (body lo st).1.2) + cnt * c) as H1.
  { apply IH. intros j st' Hj. apply Hb. lia. }
  lia.
Qed.

Lemma bubble_inner_count n i j st :
  length (steps (bubble_inner Date_now n i j st).2) <= length (steps st.2) + 2.
Proof.
  destruct st as [[d h] this]. unfold bubble_inner. cbn [snd].
  destruct (d !! j) as [a|]; [destruct (d !! (j + 1)) as [b|];
    [destruct (b <? a)%Z|]|]; cbn [snd]; rewrite ?length_push_step; lia.
Qed.

Lemma bubble_outer_count n i st :
  0 < n ->
  length (steps (bubble_outer Date_now n i st).1.2) <= length (steps st.2) + (2 * n - 1).
Proof.
  intros Hn. unfold bubble_outer.
  pose proof (for_loop_count (bubble_inner Date_now n i) 2 (n - i - 1) 0
                (st.1, false, st.2)) as Hloop.
  destruct (JS.for_loop _ _ _ _) as [[d hs] this]. cbn [fst snd] in *.
  rewrite length_push_step.
  assert (length (steps this) <= length (steps st.2) + (n - i - 1) * 2) as H1.
  { apply Hloop. intros j s _. apply bubble_inner_count. }
  lia.
Qed.

Lemma BubbleSort_sort_count this :
  inputData this <> [] ->
  length (steps (BubbleSort_sort Date_now this).2)
  <= length (steps this) + 2 * length (inputData this) * length (inputData this).
Proof.
  intros Hne. unfold BubbleSort_sort. rewrite length_nonzero by done.
  set (n := length (inputData this)).
  assert (0 < n) as Hpos by (subst n; destruct (inputData this); [done|cbn; lia]).
  pose proof (for_loop_break_count (bubble_outer Date_now n) (2 * n - 1) (n - 1) 0
                (inputData this, this)) as Hloop.
  destruct (JS.for_loop_break _ _ _ _) as [d this1]. cbn [fst snd] in *.
  rewrite length_push_step.
  assert (length (steps this1) <= length (steps this) + (n - 1) * (2 * n - 1)) as H1.
  { apply Hloop. intros j s _. by apply bubble_outer_count. }
  nia.
Qed.

Lemma selection_inner_count d i j st :
  length (steps (selection_inner Date_now d i j st).2) <= length (steps st.2) + 2.
Proof.
  destruct st as [m this]. unfold selection_inner. cbn [snd].
  destruct (d !! j) as [a|]; [destruct (d !! m) as [b|];
    [destruct (a <? b)%Z|]|]; cbn [snd]; rewrite ?length_push_step; lia.
Qed.

Lemma selection_outer_count n i st :
  0 < n ->
  length (steps (selection_outer Date_now n i st).2) <= length (steps st.2) + 2 * n.
Proof.
  intros Hn. destruct st as [d this]. unfold selection_outer.
  pose proof (for_loop_count (selection_inner Date_now d i) 2 (n - (i + 1)) (i + 1)
                (i, this)) as Hloop.
  destruct (JS.for_loop _ _ _ _) as [m this1]. cbn [fst snd] in *.
  assert (length (steps this1) <= length (steps this) + (n - (i + 1)) * 2) as H1.
  { apply Hloop. intros j s _. apply selection_inner_count. }
  destruct (m =? i); [|destruct (d !! i); [destruct (d !! m)|]];
    cbn [snd]; rewrite ?length_push_step; lia.
Qed.

Lemma SelectionSort_sort_count this :
  inputData this <> [] ->
  length (steps (SelectionSort_sort Date_now this).2)
  <= length (steps this) + 2 * length (inputData this) * length (inputData this).
Proof.
  intros Hne. unfold SelectionSort_sort. rewrite length_nonzero by done.
  set (n := length (inputData this)).
  assert (0 < n) as Hpos by (subst n; destruct (inputData this); [done|cbn; lia]).
  pose proof (for_loop_count (selection_outer Date_now n) (2 * n) (n - 1) 0
                (inputData this, this)) as Hloop.
  destruct (JS.for_loop _ _ _ _) as [d this1]. cbn [fst snd] in *.
  rewrite length_push_step.
  assert (length (steps this1) <= length (steps this) + (n - 1) * (2 * n)) as H1.
  { apply Hloop. intros j s _. by apply selection_outer_count. }
  nia.
Qed.

Lemma insertion_while_count i key : forall k st,
  length (steps (insertion_while Date_now i key k st).2.2)
  <= length (steps st.2) + 2 * k.
Proof.
  induction k as [|j IH]; intros st; cbn [insertion_while]; [cbn [snd]; lia|].
  destruct (st.1 !! j) as [a|]; [destruct (key <? a)%Z|]; cbn [snd]; [|lia|lia].
  etransitivity; [apply IH|]. cbn [snd]. rewrite !length_push_step. lia.
Qed.

Lemma insertion_outer_count n i st :
  i < n ->
  length (steps (insertion_outer Date_now i st).2) <= length (steps st.2) + (2 * n + 1).
Proof.
  intros Hi. unfold insertion_outer.
  destruct (st.1 !! i) as [key|]; [|lia].
  match goal with
  | |- context [insertion_while Date_now i key i ?s] =>
      pose proof (insertion_while_count i key i s) as Hw;
      destruct (insertion_while Date_now i key i s) as [k [d' this']]
  end.
  cbn [fst snd] in *. rewrite !length_push_step. rewrite length_push_step in Hw. lia.
Qed.

Lemma InsertionSort_sort_count this :
  inputData this <> [] ->
  length (steps (InsertionSort_sort Date_now this).2)
  <= length (steps this) + 2 * length (inputData this) * length (inputData this).
Proof.
  intros Hne. unfold InsertionSort_sort. rewrite length_nonzero by done.
  set (n := length (inputData this)).
  assert (0 < n) as Hpos by (subst n; destruct (inputData this); [done|cbn; lia]).
  pose proof (for_loop_count (insertion_outer Date_now) (2 * n + 1) (n - 1) 1
                (inputData this, this)) as Hloop.
  destruct (JS.for_loop _ _ _ _) as [d this1]. cbn [fst snd] in *.
  rewrite length_push_step.
  assert (length (steps this1) <= length (steps this) + (n - 1) * (2 * n + 1)) as H1.
  { apply Hloop. intros j s Hj. apply insertion_outer_count. lia. }
  nia.
Qed.

Lemma sort_count this :
  inputData this <> [] ->
  length (steps (sort Date_now this).2)
  <= length (steps this) + 2 * length (inputData this) * length (inputData this).
Proof.
  intros Hne. unfold sort. destruct (algorithmType this).
  - by apply BubbleSort_sort_count.
  - by apply SelectionSort_sort_count.
  - by apply InsertionSort_sort_count.
Qed.

End StepCounts.

(** ** Bubble sort on an input that is already sorted *)

Section BubbleBestCase.
Import Mapping Sorting.
Variable Date_now : nat -> Z.

Lemma bubble_inner_sorted input n i rest : forall d x suf hs this,
  Sorted Z.le (x :: rest) ->
  input = d ++ x :: rest ++ suf ->
  exists this',
    JS.for_loop (length rest) (length d) (bubble_inner Date_now n i)
      (input, hs, this) = (input, hs, this') /\
    length (steps this') = length (steps this) + length rest /\
    pushes Date_now (fun a o => data a = input /\ op_type o = OpCompare) this this'.
Proof.
  induction rest as [|y rest IH]; intros d x suf hs this Hs ->.
  - exists this. cbn [JS.for_loop length]. split; [done|]. split; [lia|constructor].
  - cbn [length JS.for_loop].
    unfold bubble_inner at 2.
    rewrite (list_lookup_middle d _ x (length d)) by done.
    cbn [app]. rewrite lookup_middle_1.
    apply Sorted_inv in Hs as [Hs Hxy]. apply HdRel_inv in Hxy.
    destruct (y <? x)%Z eqn:Hlt; [apply Z.ltb_lt in Hlt; lia|].
    edestruct (IH (d ++ [x]) y suf hs) as (this' & Hloop & Hlen & Hp); [done| |].
    { by rewrite <- app_assoc. }
    exists this'. rewrite length_app, Nat.add_1_r in Hloop. cbn [length] in Hloop.
    split; [exact Hloop|]. split.
    + rewrite Hlen, length_push_step. lia.
    + eapply pushes_trans; [|exact Hp]. apply pushes_push; [constructor|done].
Qed.

Lemma BubbleSort_sort_sorted this :
  Sorted Z.le (inputData this) -> 2 <= length (inputData this) ->
  exists this',
    BubbleSort_sort Date_now this = (inr (steps this'), this') /\
    length (steps this') = length (steps this) + length (inputData this) + 1 /\
    pushes Date_now (fun a o => data a = inputData this /\ op_type o = OpCompare)
      this this'.
Proof.
  intros Hs Hlen. unfold BubbleSort_sort. rewrite length_nonzero
    by (intros E; rewrite E in Hlen; cbn in Hlen; lia).
  destruct (inputData this) as [|x rest] eqn:Hin; [cbn in Hlen; lia|].
  destruct rest as [|y rest]; [cbn in Hlen; lia|].
  set (input := x :: y :: rest). set (n := length input).
  replace (n - 1) with (S (length rest)) by (subst n input; cbn [length]; lia).
  cbn [JS.for_loop_break].
  unfold bubble_outer at 1 2. cbn [fst snd].
  replace (n - 0 - 1) with (length (y :: rest)) by (subst n input; cbn [length]; lia).
  destruct (bubble_inner_sorted input n 0 (y :: rest) [] x [] false this Hs)
    as (this1 & Hloop & Hcount & Hp).
  { subst input. cbn [app]. by rewrite app_nil_r. }
  cbn [length] in Hloop. cbn [length]. rewrite Hloop. cbn [fst snd negb].
  eexists. split; [reflexivity|]. split.
  - rewrite !length_push_step, Hcount. subst n input. cbn [length]. lia.
  - apply pushes_push; [apply pushes_push; [done|]|]; done.
Qed.

End BubbleBestCase.

(** ** Running [sort] more than once *)

Section SortAgain.
Import Mapping Sorting.
Variable Date_now : nat -> Z.

Lemma grows_length this this' :
  grows Date_now this this' -> length (steps this) <= length (steps this').
Proof.
  intros Hg. apply grows_fields in Hg as (_ & _ & added & ->).
  rewrite length_app. lia.
Qed.

Lemma sort_pushes_one this :
  inputData this <> [] ->
  length (steps this) < length (steps (sort Date_now this).2).
Proof.
  intros Hne. unfold sort.
  destruct (algorithmType this).
  - unfold BubbleSort_sort. rewrite length_nonzero by done.
    pose proof (for_loop_break_grows Date_now (bubble_outer Date_now (length (inputData this)))
                  (bubble_outer_grows Date_now (length (inputData this)))
                  (length (inputData this) - 1) 0 (inputData this, this)) as Hg.
    destruct (JS.for_loop_break _ _ _ _) as [d this1]. cbn [fst snd] in *.
    rewrite length_push_step. apply grows_length in Hg. lia.
  - unfold SelectionSort_sort. rewrite length_nonzero by done.
    pose proof (for_loop_grows Date_now (selection_outer Date_now (length (inputData this)))
                  (selection_outer_grows Date_now (length (inputData this)))
                  (length (inputData this) - 1) 0 (inputData this, this)) as Hg.
    destruct (JS.for_loop _ _ _ _) as [d this1]. cbn [fst snd] in *.
    rewrite length_push_step. apply grows_length in Hg. lia.
  - unfold InsertionSort_sort. rewrite length_nonzero by done.
    pose proof (for_loop_grows Date_now (insertion_outer Date_now)
                  (insertion_outer_grows Date_now)
                  (length (inputData this) - 1) 1 (inputData this, this)) as Hg.
    destruct (JS.for_loop _ _ _ _) as [d this1]. cbn [fst snd] in *.
    rewrite length_push_step. apply grows_length in Hg. lia.
Qed.

End SortAgain.

(** ** Replaying the exchanges *)

Section ReplayFacts.
Import Mapping Sorting.
Variable Date_now : nat -> Z.

Lemma replay_app d0 a b :
  replay d0 (a ++ b) = match replay d0 a with Some d => replay d b | None => None end.
Proof.
  revert d0. induction a as [|s a IH]; intros d0; cbn [app replay]; [done|].
  destruct (bool_decide _); [apply IH|done].
Qed.

Lemma replays_to_refl this d : replays_to this d d this.
Proof. exists []. by rewrite app_nil_r. Qed.

(** Pushing a step that shows the current array. *)
Lemma replays_to_push this0 d0 d this a o :
  replays_to this0 d0 d this -> data a = d ->
  replays_to this0 d0
    (match swapPair a with
     | Some (i, j) => swap_positions i j d
     | None => d
     end)
    (push_step Date_now a o this).
Proof.
  intros (added & Hs & Hr) Hd.
  exists (added ++ [(createStep Date_now a o this).1]).
  rewrite steps_push_step, Hs, app_assoc. split; [done|].
  rewrite replay_app, Hr. cbn [replay]. unfold shown_next.
  cbn [createStep fst arrayState]. rewrite Hd, bool_decide_eq_true_2 by done. done.
Qed.

Ltac replay_push H :=
  match goal with
  | |- replays_to ?t0 ?d0 _ (push_step _ ?a ?o ?this) =>
      exact (replays_to_push t0 d0 _ this a o H eq_refl)
  end.

Ltac replay_inner H H1 :=
  match goal with
  | |- replays_to ?t0 ?d0 _ (push_step _ _ _ (push_step _ ?a ?o ?this)) =>
      pose proof (replays_to_push t0 d0 _ this a o H eq_refl) as H1;
      cbn [swapPair] in H1
  end.

Lemma bubble_inner_replay n i j this0 d0 st :
  replays_to this0 d0 st.1.1 st.2 ->
  replays_to this0 d0 (bubble_inner Date_now n i j st).1.1
    (bubble_inner Date_now n i j st).2.
Proof.
  intros Hr. destruct st as [[d hs] this]. cbn [fst snd] in *.
  unfold bubble_inner.
  destruct (d !! j) as [a|] eqn:Ha; [destruct (d !! (j + 1)) as [b|] eqn:Hb;
    [destruct (b <? a)%Z|]|]; cbn [fst snd]; try replay_push Hr.
  replay_inner Hr H1.
  match goal with
  | |- replays_to ?t0 ?d0 _ (push_step _ ?a2 ?o2 ?this2) =>
      pose proof (replays_to_push t0 d0 _ this2 a2 o2 H1 eq_refl) as H2
  end.
  cbn [swapPair] in H2. unfold swap_positions in H2. by rewrite Ha, Hb in H2.
Qed.

Lemma bubble_outer_replay n i this0 d0 st :
  replays_to this0 d0 st.1 st.2 ->
  replays_to this0 d0 (bubble_outer Date_now n i st).1.1 (bubble_outer Date_now n i st).1.2.
Proof.
  intros Hr. unfold bubble_outer.
  pose proof (for_loop_inv (fun _ s => replays_to this0 d0 s.1.1 s.2)
    (bubble_inner Date_now n i) (n - i - 1) 0 (st.1, false, st.2)) as Hloop.
  cbn beta in Hloop.
  destruct (JS.for_loop _ _ _ _) as [[d hs] this]. cbn [fst snd] in *.
  assert (replays_to this0 d0 d this) as Hr1.
  { apply Hloop; [|done]. intros j s _. apply bubble_inner_replay. }
  replay_push Hr1.
Qed.

Lemma BubbleSort_sort_replay this :
  inputData this <> [] ->
  exists d s,
    replays_to this (inputData this) d (BubbleSort_sort Date_now this).2 /\
    last (steps (BubbleSort_sort Date_now this).2) = Some s /\
    data (arrayState s) = d.
Proof.
  intros Hne. unfold BubbleSort_sort. rewrite length_nonzero by done.
  pose proof (for_loop_break_inv (fun s => replays_to this (inputData this) s.1 s.2)
    (bubble_outer Date_now (length (inputData this))) (length (inputData this) - 1) 0
    (inputData this, this)) as Hloop.
  cbn beta in Hloop.
  destruct (JS.for_loop_break _ _ _ _) as [d this1]. cbn [fst snd] in *.
  assert (replays_to this (inputData this) d this1) as Hr1.
  { apply Hloop; [|apply replays_to_refl]. intros j s _. apply bubble_outer_replay. }
  exists d. eexists. split; [replay_push Hr1|].
  rewrite steps_push_step, last_snoc. split; reflexivity.
Qed.

Lemma selection_inner_replay d i j this0 d0 st :
  replays_to this0 d0 d st.2 ->
  replays_to this0 d0 d (selection_inner Date_now d i j st).2.
Proof.
  intros Hr. destruct st as [m this]. cbn [fst snd] in *.
  unfold selection_inner.
  destruct (d !! j) as [a|]; [destruct (d !! m) as [b|]; [destruct (a <? b)%Z|]|];
    cbn [fst snd]; try replay_push Hr.
  replay_inner Hr H1. replay_push H1.
Qed.

Lemma selection_outer_replay n i this0 d0 st :
  replays_to this0 d0 st.1 st.2 ->
  replays_to this0 d0 (selection_outer Date_now n i st).1 (selection_outer Date_now n i st).2.
Proof.
  intros Hr. destruct st as [d this]. cbn [fst snd] in *. unfold selection_outer.
  pose proof (for_loop_inv (fun _ s => replays_to this0 d0 d s.2)
    (selection_inner Date_now d i) (n - (i + 1)) (i + 1) (i, this)) as Hloop.
  cbn beta in Hloop.
  destruct (JS.for_loop _ _ _ _) as [m this1]. cbn [fst snd] in *.
  assert (replays_to this0 d0 d this1) as Hr1.
  { apply Hloop; [|done]. intros j s _. apply selection_inner_replay. }
  destruct (m =? i); cbn [fst snd]; [replay_push Hr1|].
  destruct (d !! i) as [temp|] eqn:Ht; [destruct (d !! m) as [mv|] eqn:Hm|];
    cbn [fst snd]; replay_inner Hr1 H1; unfold swap_positions in H1;
    rewrite ?Ht, ?Hm in H1; replay_push H1.
Qed.

Lemma SelectionSort_sort_replay this :
  inputData this <> [] ->
  exists d s,
    replays_to this (inputData this) d (SelectionSort_sort Date_now this).2 /\
    last (steps (SelectionSort_sort Date_now this).2) = Some s /\
    data (arrayState s) = d.
Proof.
  intros Hne. unfold SelectionSort_sort. rewrite length_nonzero by done.
  pose proof (for_loop_inv (fun _ s => replays_to this (inputData this) s.1 s.2)
    (selection_outer Date_now (length (inputData this))) (length (inputData this) - 1) 0
    (inputData this, this)) as Hloop.
  cbn beta in Hloop.
  destruct (JS.for_loop _ _ _ _) as [d this1]. cbn [fst snd] in *.
  assert (replays_to this (inputData this) d this1) as Hr1.
  { apply Hloop; [|apply replays_to_refl]. intros j s _. apply selection_outer_replay. }
  exists d. eexists. split; [replay_push Hr1|].
  rewrite steps_push_step, last_snoc. split; reflexivity.
Qed.

End ReplayFacts.

(** ** Following the writes of insertion sort *)

Section WriteFacts.
Import Mapping Sorting.
Variable Date_now : nat -> Z.

Lemma writes_replay_app d0 a b :
  writes_replay d0 (a ++ b) = writes_replay d0 a && writes_replay (shown_last d0 a) b.
Proof.
  revert d0. induction a as [|s a IH]; intros d0; cbn [app writes_replay]; [done|].
  rewrite IH, andb_assoc. f_equal. f_equal. unfold shown_last.
  destruct a as [|s' a]; [done|]. rewrite last_cons_cons.
  destruct (last (s' :: a)) eqn:E; [done|]. by apply last_None in E.
Qed.

Lemma shown_last_snoc d0 a s : shown_last d0 (a ++ [s]) = data (arrayState s).
Proof. unfold shown_last. by rewrite last_snoc. Qed.

Lemma written_to_refl this d : written_to this d d this.
Proof. exists []. by rewrite app_nil_r. Qed.

Lemma written_to_same this0 d0 this a o :
  written_to this0 d0 (data a) this -> op_type o <> OpInsert ->
  written_to this0 d0 (data a) (push_step Date_now a o this).
Proof.
  intros (added & Hs & Hw & Hl) Ho.
  exists (added ++ [(createStep Date_now a o this).1]).
  rewrite steps_push_step, Hs, app_assoc. split; [done|].
  rewrite writes_replay_app, Hw, Hl, shown_last_snoc. split; [|done].
  cbn [writes_replay andb]. unfold shows_after. cbn [createStep fst arrayState operation].
  rewrite andb_true_r. destruct (op_type o); try done; by apply bool_decide_eq_true.
Qed.

Lemma written_to_insert this0 d0 d this a o h v :
  written_to this0 d0 d this -> h < length d ->
  data a = <[h := v]> d -> highlightedIndices a = [h] -> op_type o = OpInsert ->
  written_to this0 d0 (data a) (push_step Date_now a o this).
Proof.
  intros (added & Hs & Hw & Hl) Hh Hd Hhi Ho.
  exists (added ++ [(createStep Date_now a o this).1]).
  rewrite steps_push_step, Hs, app_assoc. split; [done|].
  rewrite writes_replay_app, Hw, Hl, shown_last_snoc. split; [|done].
  cbn [writes_replay andb]. unfold shows_after. cbn [createStep fst arrayState operation].
  rewrite andb_true_r, Ho, Hhi, Hd, list_lookup_insert_eq by done.
  by apply bool_decide_eq_true.
Qed.

Lemma insertion_while_written n i key this0 d0 : forall k st,
  k <= i -> i < n -> length st.1 = n ->
  written_to this0 d0 st.1 st.2 ->
  let r := insertion_while Date_now i key k st in
  r.1 <= k /\ length r.2.1 = n /\ written_to this0 d0 r.2.1 r.2.2.
Proof.
  induction k as [|j IH]; intros st Hk Hi Hlen Hw; cbn zeta;
    cbn [insertion_while]; [done|].
  destruct (st.1 !! j) as [a|] eqn:Ha; [destruct (key <? a)%Z|]; cbn [fst snd];
    [|done|done].
  match goal with
  | |- context [insertion_while Date_now i key j ?s] => pose proof (IH s) as Hrec
  end.
  cbn zeta in Hrec. cbn [fst snd] in Hrec.
  destruct Hrec as (H1 & H2 & H3); [lia|done|by rewrite length_insert| |].
  - match goal with
    | |- written_to _ _ _ (push_step _ ?a2 ?o2 (push_step _ ?a1 ?o1 _)) =>
        apply (written_to_insert this0 d0 st.1 _ a2 o2 (j + 1) a);
          [apply (written_to_same this0 d0 st.2 a1 o1); done|lia|done|done|done]
    end.
  - split; [lia|]. split; [exact H2|exact H3].
Qed.

Lemma insertion_outer_written n i this0 d0 st :
  1 <= i < n -> length st.1 = n ->
  written_to this0 d0 st.1 st.2 ->
  length (insertion_outer Date_now i st).1 = n /\
  written_to this0 d0 (insertion_outer Date_now i st).1 (insertion_outer Date_now i st).2.
Proof.
  intros Hi Hlen Hw. unfold insertion_outer.
  destruct (st.1 !! i) as [key|] eqn:Hkey; [|done].
  match goal with
  | |- context [insertion_while Date_now i key i ?s] =>
      pose proof (insertion_while_written n i key this0 d0 i s) as Hrec;
      destruct (insertion_while Date_now i key i s) as [k [d' this']]
  end.
  cbn zeta in Hrec. cbn [fst snd] in *.
  destruct Hrec as (Hk & Hlen' & Hw'); [lia|lia|done| |].
  { match goal with
    | |- written_to _ _ _ (push_step _ ?a1 ?o1 _) =>
        by apply (written_to_same this0 d0 st.2 a1 o1)
    end. }
  split; [by rewrite length_insert|].
  match goal with
  | |- written_to _ _ _ (push_step _ ?a2 ?o2 (push_step _ ?a1 ?o1 _)) =>
      apply (written_to_same this0 d0 _ a2 o2); [|done];
      apply (written_to_insert this0 d0 d' this' a1 o1 k key); [done|lia|done|done|done]
  end.
Qed.

Lemma InsertionSort_sort_written this :
  inputData this <> [] ->
  exists d,
    written_to this (inputData this) d (InsertionSort_sort Date_now this).2.
Proof.
  intros Hne. unfold InsertionSort_sort. rewrite length_nonzero by done.
  set (n := length (inputData this)).
  pose proof (for_loop_inv
    (fun _ s => length s.1 = n /\ written_to this (inputData this) s.1 s.2)
    (insertion_outer Date_now) (n - 1) 1 (inputData this, this)) as Hloop.
  cbn beta in Hloop.
  destruct (JS.for_loop _ _ _ _) as [d this1]. cbn [fst snd] in *.
  destruct Hloop as [Hlen Hw].
  { intros j s Hj [H1 H2]. apply insertion_outer_written; [lia|done|done]. }
  { split; [done|apply written_to_refl]. }
  exists d.
  match goal with
  | |- written_to _ _ _ (push_step _ ?a1 ?o1 _) =>
      by apply (written_to_same this (inputData this) this1 a1 o1)
  end.
Qed.

End WriteFacts.

(** ** Sorted regions *)

Section RegionFacts.
Import Mapping Sorting.
Variable Date_now : nat -> Z.

Lemma region_slice_drop d n k :
  length d = n -> 0 < n ->
  region_slice {| r_start := k; r_end := n - 1 |} d = drop k d.
Proof.
  intros Hlen Hn. unfold region_slice. cbn [r_start r_end].
  apply take_ge. rewrite length_drop. lia.
Qed.

Lemma region_slice_take d k :
  region_slice {| r_start := 0; r_end := k |} d = take (S k) d.
Proof. unfold region_slice. cbn [r_start r_end]. by rewrite Nat.sub_0_r. Qed.

Lemma regions_one r d :
  StronglySorted Z.le (region_slice r d) -> Forall (fun r => StronglySorted Z.le (region_slice r d)) [r].
Proof. intros H. by repeat constructor. Qed.

(** *** Bubble sort *)

Lemma bubble_regions_sorted n i d hl cp sp :
  length d = n -> 0 < n -> StronglySorted Z.le (drop (n - i) d) ->
  regions_sorted {| data := d; highlightedIndices := hl; comparisonPair := cp;
                    swapPair := sp; sortedRegions := bubble_regions n i |}.
Proof.
  intros Hlen Hn Hs. unfold regions_sorted, bubble_regions. cbn [data sortedRegions].
  destruct (0 <? i); [|constructor].
  apply regions_one. by rewrite (region_slice_drop d n).
Qed.

Lemma bubble_inner_regions n i j this0 st :
  0 < n -> j + 1 < n - i ->
  length st.1.1 = n -> StronglySorted Z.le (drop (n - i) st.1.1) ->
  pushes Date_now marked this0 st.2 ->
  length (bubble_inner Date_now n i j st).1.1 = n /\
  StronglySorted Z.le (drop (n - i) (bubble_inner Date_now n i j st).1.1) /\
  pushes Date_now marked this0 (bubble_inner Date_now n i j st).2.
Proof.
  intros Hn Hj Hlen Hs Hp. destruct st as [[d hs] this]. cbn [fst snd] in *.
  unfold bubble_inner.
  pose proof (bubble_regions_sorted n i d) as Hreg.
  destruct (d !! j) as [a|] eqn:Ha; [destruct (d !! (j + 1)) as [b|] eqn:Hb;
    [destruct (b <? a)%Z|]|]; cbn [fst snd].
  - rewrite !length_insert, !drop_insert_lt by lia.
    split; [done|]. split; [done|].
    apply pushes_push; [apply pushes_push; [done|]|]; by apply Hreg.
  - split; [done|]. split; [done|]. apply pushes_push; [done|]. by apply Hreg.
  - split; [done|]. split; [done|]. apply pushes_push; [done|]. by apply Hreg.
  - split; [done|]. split; [done|]. apply pushes_push; [done|]. by apply Hreg.
Qed.

Lemma bubble_pass_settled x rest suf :
  settled_suffix (x :: rest) suf ->
  exists init m,
    (bubble_pass x rest).1 = init ++ [m] /\ length init = length rest /\
    settled_suffix init (m :: suf).
Proof.
  intros [Hsuf Hle].
  destruct (bubble_pass_snoc rest x) as (init & m & Heq & Hall & Hx).
  pose proof (bubble_pass_perm rest x) as Hperm. rewrite Heq in Hperm.
  exists init, m. split; [done|]. split.
  { apply Permutation_length in Hperm. rewrite length_app in Hperm.
    cbn [length] in Hperm. lia. }
  assert (m ∈ x :: rest) as Hm.
  { rewrite <- Hperm. apply elem_of_app. right. by apply list_elem_of_singleton. }
  split.
  - constructor; [done|]. apply Forall_forall. intros b Hb. by apply Hle.
  - intros a b Ha Hb. apply elem_of_cons in Hb as [->|Hb].
    + rewrite Forall_forall in Hall. by apply Hall.
    + apply Hle; [|done]. rewrite <- Hperm. apply elem_of_app. by left.
Qed.

Lemma bubble_outer_regions n x rest suf this0 this :
  n = length (x :: rest) + length suf ->
  settled_suffix (x :: rest) suf ->
  pushes Date_now marked this0 this ->
  pushes Date_now marked this0
    (bubble_outer Date_now n (length suf) ((x :: rest) ++ suf, this)).1.2.
Proof.
  intros Hn Hset Hp. pose proof Hset as [Hsuf _].
  assert (0 < n) as Hpos by (cbn [length] in Hn; lia).
  unfold bubble_outer. cbn [fst snd].
  replace (n - length suf - 1) with (length rest) by (cbn [length] in *; lia).
  pose proof (bubble_inner_loop Date_now n (length suf) rest [] x suf false this) as Hin.
  pose proof (for_loop_inv
    (fun _ s => length s.1.1 = n /\
                StronglySorted Z.le (drop (n - length suf) s.1.1) /\
                pushes Date_now marked this0 s.2)
    (bubble_inner Date_now n (length suf)) (length rest) 0
    ((x :: rest) ++ suf, false, this)) as Hloop.
  cbn beta in Hloop. cbn [app length] in Hin.
  destruct (JS.for_loop _ _ _ _) as [[d hs] this1].
  cbn [fst snd] in *. injection Hin as -> ->.
  destruct Hloop as (Hlen & _ & Hp1).
  { intros j s Hj (H1 & H2 & H3). apply bubble_inner_regions; try done.
    cbn [length] in Hn. lia. }
  { split; [rewrite length_app; cbn [length] in *; lia|]. split; [|done].
    rewrite drop_app_length'; [done|]. cbn [length] in *. lia. }
  apply pushes_push; [done|].
  unfold marked, regions_sorted. cbn [data sortedRegions]. apply regions_one.
  rewrite (region_slice_drop _ n) by done.
  destruct (bubble_pass_settled x rest suf Hset) as (init & m & Heq & Hli & [Hs _]).
  rewrite Heq, <- app_assoc. cbn [app].
  rewrite drop_app_length'; [done|]. cbn [length] in Hn. lia.
Qed.

Lemma bubble_outer_loop_regions n c : forall pre suf this0 this,
  length pre = S c -> n = length pre + length suf ->
  settled_suffix pre suf ->
  pushes Date_now marked this0 this ->
  pushes Date_now marked this0
    (JS.for_loop_break c (length suf) (bubble_outer Date_now n) (pre ++ suf, this)).2.
Proof.
  induction c as [|c IH]; intros pre suf this0 this Hlen Hn Hset Hp;
    cbn [JS.for_loop_break]; [done|].
  destruct pre as [|x rest]; [done|].
  destruct (bubble_outer_step Date_now n x rest suf this Hn) as [Hd Hb].
  pose proof (bubble_outer_regions n x rest suf this0 this Hn Hset Hp) as Hp1.
  destruct (bubble_outer Date_now n (length suf) _) as [[data' this'] brk].
  cbn [fst snd] in *. subst data' brk.
  destruct (bubble_pass x rest).2; cbn [negb]; [|done].
  destruct (bubble_pass_settled x rest suf Hset) as (init & m & Heq & Hli & Hset').
  rewrite Heq, <- app_assoc. cbn [app].
  cbn [length] in *. apply (IH init (m :: suf)); [lia|cbn [length]; lia|done|done].
Qed.

Lemma BubbleSort_sort_regions this :
  inputData this <> [] ->
  pushes Date_now marked this (BubbleSort_sort Date_now this).2.
Proof.
  intros Hne. unfold BubbleSort_sort. rewrite length_nonzero by done.
  set (n := length (inputData this)).
  assert (0 < n) as Hpos by (subst n; destruct (inputData this); [done|cbn; lia]).
  assert (settled_suffix (inputData this) []) as Hset.
  { split; [constructor|]. intros a b _ Hb. by apply elem_of_nil in Hb. }
  pose proof (bubble_outer_loop Date_now n (n - 1) (inputData this) [] this) as Hloop.
  pose proof (bubble_outer_loop_regions n (n - 1) (inputData this) [] this this) as Hreg.
  cbn zeta in Hloop. rewrite app_nil_r in Hloop, Hreg. cbn [length] in Hloop, Hreg.
  destruct (JS.for_loop_break _ _ _ _) as [d this1]. cbn [fst snd] in *.
  destruct Hloop as [Hs Hperm]; [lia|lia|done|].
  apply pushes_push; [apply Hreg; [lia|lia|done|constructor]|].
  unfold marked, regions_sorted. cbn [data sortedRegions]. apply regions_one.
  rewrite (region_slice_drop d n); [done| |done].
  by rewrite (Permutation_length Hperm).
Qed.

(** *** Selection sort *)

Lemma selection_regions_sorted i d hl cp sp :
  StronglySorted Z.le (take i d) ->
  regions_sorted {| data := d; highlightedIndices := hl; comparisonPair := cp;
                    swapPair := sp; sortedRegions := selection_regions i |}.
Proof.
  intros Hs. unfold regions_sorted, selection_regions. cbn [data sortedRegions].
  destruct (0 <? i) eqn:E; [|constructor]. apply Nat.ltb_lt in E.
  apply regions_one. rewrite region_slice_take.
  by replace (S (i - 1)) with i by lia.
Qed.

Lemma selection_inner_regions d i j this0 st :
  StronglySorted Z.le (take i d) ->
  pushes Date_now marked this0 st.2 ->
  pushes Date_now marked this0 (selection_inner Date_now d i j st).2.
Proof.
  intros Hs Hp. destruct st as [m this]. cbn [fst snd] in *.
  unfold selection_inner.
  pose proof (selection_regions_sorted i d) as Hreg.
  destruct (d !! j) as [a|]; [destruct (d !! m) as [b|]; [destruct (a <? b)%Z|]|];
    cbn [fst snd];
    repeat (apply pushes_push; [|by apply Hreg]); done.
Qed.

Lemma settled_prefix_snoc pre x rest vm rest' :
  settled_prefix pre (x :: rest) ->
  vm :: rest' ≡ₚ x :: rest ->
  (forall b, b ∈ x :: rest -> (vm <= b)%Z) ->
  settled_prefix (pre ++ [vm]) rest'.
Proof.
  intros [Hpre Hle] Hperm Hmin.
  assert (vm ∈ x :: rest) as Hvm by (rewrite <- Hperm; by left).
  split.
  - apply StronglySorted_app. repeat split; [|done|repeat constructor].
    intros a b Ha Hb. apply list_elem_of_singleton in Hb as ->. by apply Hle.
  - intros a b Ha Hb.
    assert (b ∈ x :: rest) as Hb' by (rewrite <- Hperm; by right).
    apply elem_of_app in Ha as [Ha|Ha]; [by apply Hle|].
    apply list_elem_of_singleton in Ha as ->. by apply Hmin.
Qed.

Lemma selection_outer_regions n pre x rest this0 this :
  n = length pre + S (length rest) ->
  settled_prefix pre (x :: rest) ->
  pushes Date_now marked this0 this ->
  pushes Date_now marked this0
    (selection_outer Date_now n (length pre) (pre ++ x :: rest, this)).2.
Proof.
  intros Hn Hset Hp.
  destruct (selection_outer_step Date_now n pre x rest this Hn)
    as (vm & rest' & Heq & Hperm & Hmin).
  destruct (settled_prefix_snoc pre x rest vm rest' Hset Hperm Hmin) as [Hs' _].
  destruct Hset as [Hpre _].
  assert (StronglySorted Z.le (take (length pre) (pre ++ x :: rest))) as Htake
    by (by rewrite take_app_length).
  unfold selection_outer in *.
  pose proof (for_loop_inv (fun _ s => pushes Date_now marked this0 s.2)
    (selection_inner Date_now (pre ++ x :: rest) (length pre))
    (n - (length pre + 1)) (length pre + 1) (length pre, this)) as Hloop.
  cbn beta in Hloop.
  destruct (JS.for_loop _ _ _ _) as [m this1]. cbn [fst snd] in *.
  assert (pushes Date_now marked this0 this1) as Hp1.
  { apply Hloop; [|done]. intros j s _. by apply selection_inner_regions. }
  assert (forall d' hl cp sp, d' = pre ++ vm :: rest' ->
            regions_sorted {| data := d'; highlightedIndices := hl; comparisonPair := cp;
                              swapPair := sp;
                              sortedRegions := [ {| r_start := 0; r_end := length pre |} ] |})
    as Hfinal.
  { intros d' hl cp sp ->. unfold regions_sorted. cbn [data sortedRegions].
    apply regions_one. rewrite region_slice_take.
    replace (pre ++ vm :: rest') with ((pre ++ [vm]) ++ rest') by (by rewrite <- app_assoc).
    rewrite take_app_length'; [done|]. rewrite length_app. cbn [length]. lia. }
  destruct (m =? length pre); cbn [fst snd] in *.
  - apply pushes_push; [done|]. by apply Hfinal.
  - destruct ((pre ++ x :: rest) !! length pre) as [temp|];
      [destruct ((pre ++ x :: rest) !! m) as [mv|]|]; cbn [fst snd] in *;
      (apply pushes_push; [apply pushes_push; [done|]|]);
      try (by apply selection_regions_sorted); by apply Hfinal.
Qed.

Lemma selection_outer_loop_regions n c : forall pre rest this0 this,
  length rest = S c -> n = length pre + length rest ->
  settled_prefix pre rest ->
  pushes Date_now marked this0 this ->
  pushes Date_now marked this0
    (JS.for_loop c (length pre) (selection_outer Date_now n) (pre ++ rest, this)).2.
Proof.
  induction c as [|c IH]; intros pre rest this0 this Hlen Hn Hset Hp;
    cbn [JS.for_loop]; [done|].
  destruct rest as [|x rest]; [done|]. cbn [length] in Hlen, Hn.
  destruct (selection_outer_step Date_now n pre x rest this Hn)
    as (vm & rest' & Hd & Hperm & Hmin).
  pose proof (selection_outer_regions n pre x rest this0 this Hn Hset Hp) as Hp1.
  destruct (selection_outer Date_now n (length pre) _) as [data' this'].
  cbn [fst snd] in *. subst data'.
  pose proof (Permutation_length Hperm) as Hl. cbn [length] in Hl.
  specialize (IH (pre ++ [vm]) rest' this0 this').
  rewrite length_app in IH. cbn [length] in IH. rewrite Nat.add_1_r in IH.
  rewrite <- app_assoc in IH. cbn [app] in IH.
  apply IH; [lia|lia| |done].
  by apply (settled_prefix_snoc pre x rest).
Qed.

Lemma SelectionSort_sort_regions this :
  inputData this <> [] ->
  pushes Date_now marked this (SelectionSort_sort Date_now this).2.
Proof.
  intros Hne. unfold SelectionSort_sort. rewrite length_nonzero by done.
  set (n := length (inputData this)).
  assert (0 < n) as Hpos by (subst n; destruct (inputData this); [done|cbn; lia]).
  assert (settled_prefix [] (inputData this)) as Hset.
  { split; [constructor|]. intros a b Ha _. by apply elem_of_nil in Ha. }
  pose proof (selection_outer_loop Date_now n (n - 1) [] (inputData this) this) as Hloop.
  pose proof (selection_outer_loop_regions n (n - 1) [] (inputData this) this this) as Hreg.
  cbn zeta in Hloop. cbn [length app] in Hloop, Hreg.
  destruct (JS.for_loop _ _ _ _) as [d this1]. cbn [fst snd] in *.
  destruct Hloop as [Hs Hperm]; [lia|lia|done|].
  apply pushes_push; [apply Hreg; [lia|lia|done|constructor]|].
  unfold marked, regions_sorted. cbn [data sortedRegions]. apply regions_one.
  rewrite (region_slice_drop d n); [done| |done].
  by rewrite (Permutation_length Hperm).
Qed.

End RegionFacts.

(** ** Further properties of the step generator *)

Section GeneratorProperties.
Import Mapping Sorting.

(** X1: [validateStepSequence] accepts a step list exactly when it is
    non-empty, its sequence numbers are 1, 2, ..., N in this order and its
    step ids are pairwise distinct. *)
Theorem validateStepSequence_characterised (stps : list AlgorithmStep) :
  validateStepSequence stps = true <->
  stps <> [] /\
  map sequenceNumber stps = seq 1 (length stps) /\
  NoDup (map stepId stps).
Proof.
  unfold validateStepSequence.
  destruct stps as [|s r]; [cbn; split; [done|by intros [? _]]|].
  cbn [length Nat.eqb].
  rewrite <- check_sequence_spec, <- length_remove_dups_NoDup, length_map.
  destruct (check_sequence 0 (s :: r)); cbn [negb]; [|split; [done|by intros (_ & ? & _)]].
  change (S (length r)) with (length (s :: r)).
  destruct (length (remove_dups (map stepId (s :: r))) =? length (s :: r)) eqn:E;
    cbn [negb].
  - apply Nat.eqb_eq in E. split; [intros _; repeat split; done|done].
  - apply Nat.eqb_neq in E. split; [done|]. by intros (_ & _ & ?).
Qed.

(** X2: [validateSortResult] accepts exactly when there is a last step and
    its array is the original in non-decreasing order, that is, sorted and a
    permutation of the original. *)
Theorem validateSortResult_characterised (original : list Z) (stps : list AlgorithmStep) :
  validateSortResult original stps = true <->
  exists s, last stps = Some s /\
            Sorted Z.le (data (arrayState s)) /\
            data (arrayState s) ≡ₚ original.
Proof.
  unfold validateSortResult, sort_numeric.
  destruct (last stps) as [s|] eqn:Hl.
  - assert ((length stps =? 0) = false) as ->.
    { destruct stps; [done|]. done. }
    rewrite bool_decide_eq_true. split.
    + intros Heq. exists s. split; [done|]. rewrite Heq.
      split; [apply Sorted_merge_sort; apply _|apply merge_sort_Permutation].
    + intros (s' & [= <-] & Hs & Hp).
      apply (Sorted_unique Z.le); [done|apply Sorted_merge_sort; apply _|].
      by rewrite merge_sort_Permutation.
  - split; [by destruct (_ =? _)|]. by intros (? & ? & _).
Qed.

(** X3: for each algorithm and every non-empty input, both validators accept
    the generated steps. *)
Theorem validators_accept_generated (Date_now : nat -> Z) (t : SortingAlgorithmType)
    (input : list Z) :
  input <> [] ->
  exists stps,
    generateSteps Date_now t input = inr stps /\
    validateStepSequence stps = true /\
    validateSortResult input stps = true.
Proof.
  intros Hne.
  destruct (sort_spec Date_now t input Hne) as (this' & Hr & Hg & s & Hl & Hs & Hp).
  pose proof (numbered_grows Date_now _ _ Hg (numbered_new Date_now t input)) as Hnum.
  destruct (numbered_sequence Date_now _ Hnum) as [Hseq Hnd].
  assert (steps this' <> []) as Hne' by (intros Hnil; by rewrite Hnil in Hl).
  exists (steps this'). unfold generateSteps. rewrite Hr. split; [done|]. split.
  - unfold validateStepSequence. rewrite length_nonzero by done.
    apply check_sequence_spec in Hseq. rewrite Hseq. cbn [negb].
    apply length_remove_dups_NoDup in Hnd. rewrite length_map in Hnd.
    rewrite Hnd, Nat.eqb_refl. done.
  - unfold validateSortResult, sort_numeric. rewrite length_nonzero by done.
    rewrite Hl. apply bool_decide_eq_true.
    apply (Sorted_unique Z.le);
      [by apply StronglySorted_Sorted|apply Sorted_merge_sort; apply _|].
    by rewrite merge_sort_Permutation.
Qed.

Lemma validators_accept_generated_witness :
  [5; 2; 4; 2]%Z <> [] /\
  exists stps,
    generateSteps (fun k => 1762041600000 + Z.of_nat k)%Z selection_sort [5; 2; 4; 2]%Z
      = inr stps /\
    validateStepSequence stps = true /\
    validateSortResult [5; 2; 4; 2]%Z stps = true.
Proof.
  split; [done|].
  exact (validators_accept_generated (fun k => 1762041600000 + Z.of_nat k)%Z
           selection_sort [5; 2; 4; 2]%Z ltac:(done)).
Defined.

(** X4: in every generated step the array has the length of the input, the
    highlighted indices, the comparison pair and the swap pair are positions
    of the array (a pair has its smaller position first), and every sorted
    region is a non-empty range of positions of the array. *)
Theorem generated_steps_in_range (Date_now : nat -> Z) (t : SortingAlgorithmType)
    (input : list Z) :
  input <> [] ->
  exists stps,
    generateSteps Date_now t input = inr stps /\
    Forall (fun s => state_in_range (length input) (arrayState s)) stps.
Proof.
  intros Hne. destruct (generateSteps_wf Date_now t input Hne) as (stps & Hg & Hall).
  exists stps. split; [done|].
  eapply Forall_impl; [exact Hall|]. by intros s [(? & _) _].
Qed.

Lemma generated_steps_in_range_witness :
  [3; 1; 2]%Z <> [] /\
  exists stps,
    generateSteps (fun _ => 0%Z) insertion_sort [3; 1; 2]%Z = inr stps /\
    Forall (fun s => state_in_range (length [3; 1; 2]%Z) (arrayState s)) stps.
Proof.
  split; [done|].
  exact (generated_steps_in_range (fun _ => 0%Z) insertion_sort [3; 1; 2]%Z ltac:(done)).
Defined.

(** X5: every step generated by bubble sort or selection sort shows a
    permutation of the input; every step generated by insertion sort shows
    an array of the input's length whose elements all occur in the input. *)
Theorem generated_steps_data (Date_now : nat -> Z) (t : SortingAlgorithmType)
    (input : list Z) :
  input <> [] ->
  exists stps,
    generateSteps Date_now t input = inr stps /\
    Forall (fun s => data_from t input (arrayState s)) stps.
Proof.
  intros Hne. destruct (generateSteps_wf Date_now t input Hne) as (stps & Hg & Hall).
  exists stps. split; [done|].
  eapply Forall_impl; [exact Hall|]. by intros s [(_ & _ & ? & _) _].
Qed.

Lemma generated_steps_data_witness :
  [3; 1; 2]%Z <> [] /\
  exists stps,
    generateSteps (fun _ => 0%Z) bubble_sort [3; 1; 2]%Z = inr stps /\
    Forall (fun s => data_from bubble_sort [3; 1; 2]%Z (arrayState s)) stps.
Proof.
  split; [done|].
  exact (generated_steps_data (fun _ => 0%Z) bubble_sort [3; 1; 2]%Z ltac:(done)).
Defined.

(** X6: in every generated step at most one of the two pairs is set and the
    highlighted indices are the positions of that pair; a comparison pair
    occurs only in a [compare] operation, a swap pair exactly in the [swap]
    operations; bubble and selection sort emit only [compare] and [swap]
    operations, insertion sort only [compare] and [insert]; and the visual
    hints are those of the operation type in the default mapping. *)
Theorem generated_steps_marks (Date_now : nat -> Z) (t : SortingAlgorithmType)
    (input : list Z) :
  input <> [] ->
  exists stps,
    generateSteps Date_now t input = inr stps /\
    Forall (fun s => marks_agree (arrayState s) (operation s) /\
                     op_of t (op_type (operation s)) /\
                     visualHints s = getVisualHints (op_type (operation s))) stps.
Proof.
  intros Hne. destruct (generateSteps_wf Date_now t input Hne) as (stps & Hg & Hall).
  exists stps. split; [done|].
  eapply Forall_impl; [exact Hall|]. by intros s [(_ & ? & _ & ?) ?].
Qed.

Lemma generated_steps_marks_witness :
  [2; 1]%Z <> [] /\
  exists stps,
    generateSteps (fun _ => 0%Z) selection_sort [2; 1]%Z = inr stps /\
    Forall (fun s => marks_agree (arrayState s) (operation s) /\
                     op_of selection_sort (op_type (operation s)) /\
                     visualHints s = getVisualHints (op_type (operation s))) stps.
Proof.
  split; [done|].
  exact (generated_steps_marks (fun _ => 0%Z) selection_sort [2; 1]%Z ltac:(done)).
Defined.

(** X7: for each algorithm, an input of n >= 1 elements yields at least one
    and at most 2 n^2 steps. *)
Theorem generated_step_count (Date_now : nat -> Z) (t : SortingAlgorithmType)
    (input : list Z) :
  input <> [] ->
  exists stps,
    generateSteps Date_now t input = inr stps /\
    1 <= length stps <= 2 * length input * length input.
Proof.
  intros Hne.
  destruct (sort_spec Date_now t input Hne) as (this' & Hr & _ & s & Hl & _).
  pose proof (sort_count Date_now (new_SortingAlgorithm t input) Hne) as Hc.
  rewrite Hr in Hc. cbn [snd steps inputData new_SortingAlgorithm length] in Hc.
  exists (steps this'). unfold generateSteps. rewrite Hr. split; [done|].
  split; [|lia]. destruct (steps this'); [done|cbn [length]; lia].
Qed.

Lemma generated_step_count_witness :
  [4; 3; 2; 1]%Z <> [] /\
  exists stps,
    generateSteps (fun _ => 0%Z) bubble_sort [4; 3; 2; 1]%Z = inr stps /\
    1 <= length stps <= 2 * length [4; 3; 2; 1]%Z * length [4; 3; 2; 1]%Z.
Proof.
  split; [done|].
  exact (generated_step_count (fun _ => 0%Z) bubble_sort [4; 3; 2; 1]%Z ltac:(done)).
Defined.

(** X8: bubble sort leaves after the first round when nothing was
    exchanged: an input of n >= 2 elements that is already in non-decreasing
    order yields exactly n + 1 steps, all of them [compare] operations
    showing the input unchanged. *)
Theorem bubble_sort_sorted_input (Date_now : nat -> Z) (input : list Z) :
  Sorted Z.le input -> 2 <= length input ->
  exists stps,
    generateSteps Date_now bubble_sort input = inr stps /\
    length stps = length input + 1 /\
    Forall (fun s => data (arrayState s) = input /\
                     op_type (operation s) = OpCompare) stps.
Proof.
  intros Hs Hlen.
  destruct (BubbleSort_sort_sorted Date_now (new_SortingAlgorithm bubble_sort input))
    as (this' & Hr & Hc & Hp); [done|done|].
  cbn [steps inputData new_SortingAlgorithm length] in Hc, Hp.
  apply pushes_steps in Hp as (added & Heq & Hall).
  cbn [steps new_SortingAlgorithm app] in Heq.
  exists (steps this'). unfold generateSteps, sort.
  cbn [algorithmType new_SortingAlgorithm]. rewrite Hr.
  split; [done|]. split; [lia|].
  rewrite Heq. eapply Forall_impl; [exact Hall|]. by intros s [? _].
Qed.

Lemma bubble_sort_sorted_input_witness :
  Sorted Z.le [1; 2; 2; 5]%Z /\ 2 <= length [1; 2; 2; 5]%Z /\
  exists stps,
    generateSteps (fun _ => 0%Z) bubble_sort [1; 2; 2; 5]%Z = inr stps /\
    length stps = length [1; 2; 2; 5]%Z + 1 /\
    Forall (fun s => data (arrayState s) = [1; 2; 2; 5]%Z /\
                     op_type (operation s) = OpCompare) stps.
Proof.
  assert (Sorted Z.le [1; 2; 2; 5]%Z) as Hs by (repeat constructor; lia).
  assert (2 <= length [1; 2; 2; 5]%Z) as Hl by (simpl; lia).
  split; [exact Hs|]. split; [exact Hl|].
  exact (bubble_sort_sorted_input (fun _ => 0%Z) [1; 2; 2; 5]%Z Hs Hl).
Defined.

End GeneratorProperties.

Section GeneratorReuse.
Import Mapping Sorting.

(** X9: [sort] does not clear the instance.  Called a second time on the
    instance that sorted a non-empty input, it returns the earlier steps
    followed by at least one new step, and both validators still accept the
    whole list; after [reset], [sort] returns what a fresh instance
    returns. *)
Theorem sort_again_appends (Date_now Date_now' : nat -> Z) (t : SortingAlgorithmType)
    (input : list Z) :
  input <> [] ->
  let this1 := (sort Date_now (new_SortingAlgorithm t input)).2 in
  (exists added,
     (sort Date_now this1).1 = inr (steps this1 ++ added) /\
     added <> [] /\
     validateStepSequence (steps this1 ++ added) = true /\
     validateSortResult input (steps this1 ++ added) = true) /\
  (sort Date_now' (reset this1)).1 = generateSteps Date_now' t input.
Proof.
  intros Hne this1.
  destruct (sort_spec Date_now t input Hne) as (this' & Hr & Hg & _).
  assert (this1 = this') as -> by (subst this1; by rewrite Hr).
  destruct (grows_fields Date_now _ _ Hg) as (Ht & Hi & _).
  cbn [algorithmType inputData new_SortingAlgorithm] in Ht, Hi.
  split; [|by unfold reset, generateSteps, new_SortingAlgorithm; rewrite Ht, Hi].
  assert (inputData this' <> []) as Hne' by (by rewrite Hi).
  destruct (sort_spec_any Date_now this' Hne') as (this2 & Hr2 & Hg2 & s & Hl & Hs & Hp).
  pose proof (sort_pushes_one Date_now this' Hne') as Hlt.
  rewrite Hr2 in Hlt. cbn [snd] in Hlt.
  destruct (grows_fields Date_now _ _ Hg2) as (_ & _ & added & Heq).
  pose proof (numbered_grows Date_now _ _ (grows_trans Date_now _ _ _ Hg Hg2)
                (numbered_new Date_now t input)) as Hnum.
  destruct (numbered_sequence Date_now _ Hnum) as [Hseq Hnd].
  assert (steps this2 <> []) as Hne2 by (intros Hnil; by rewrite Hnil in Hl).
  exists added. rewrite Hr2. cbn [fst]. rewrite <- Heq. split; [done|]. split.
  { intros ->. rewrite Heq, app_nil_r in Hlt. lia. }
  split.
  - unfold validateStepSequence. rewrite length_nonzero by done.
    apply check_sequence_spec in Hseq. rewrite Hseq. cbn [negb].
    apply length_remove_dups_NoDup in Hnd. rewrite length_map in Hnd.
    rewrite Hnd, Nat.eqb_refl. done.
  - unfold validateSortResult, sort_numeric. rewrite length_nonzero by done.
    rewrite Hl. apply bool_decide_eq_true.
    apply (Sorted_unique Z.le);
      [by apply StronglySorted_Sorted|apply Sorted_merge_sort; apply _|].
    rewrite merge_sort_Permutation. by rewrite Hp, Hi.
Qed.

Lemma sort_again_appends_witness :
  [2; 1]%Z <> [] /\
  let this1 := (sort (fun _ => 0%Z) (new_SortingAlgorithm bubble_sort [2; 1]%Z)).2 in
  (exists added,
     (sort (fun _ => 0%Z) this1).1 = inr (steps this1 ++ added) /\
     added <> [] /\
     validateStepSequence (steps this1 ++ added) = true /\
     validateSortResult [2; 1]%Z (steps this1 ++ added) = true) /\
  (sort (fun _ => 1%Z) (reset this1)).1 = generateSteps (fun _ => 1%Z) bubble_sort [2; 1]%Z.
Proof.
  split; [done|].
  exact (sort_again_appends (fun _ => 0%Z) (fun _ => 1%Z) bubble_sort [2; 1]%Z
           ltac:(done)).
Defined.

End GeneratorReuse.

Section ReplayProperties.
Import Mapping Sorting.

(** X10: bubble sort and selection sort change the array through their
    swap steps only.  Followed from the input, every generated step shows
    the array expected after its predecessor, which is the predecessor's
    array with the two positions of its swap pair exchanged if it is a swap
    step and the same array otherwise; what is expected in the end is the
    array of the last step. *)
Theorem exchanges_replay (Date_now : nat -> Z) (t : SortingAlgorithmType)
    (input : list Z) :
  t <> insertion_sort -> input <> [] ->
  exists stps s,
    generateSteps Date_now t input = inr stps /\
    last stps = Some s /\
    replay input stps = Some (data (arrayState s)).
Proof.
  intros Ht Hne.
  destruct (sort_spec Date_now t input Hne) as (this' & Hr & _).
  assert (exists d s,
            replays_to (new_SortingAlgorithm t input) input d
              (sort Date_now (new_SortingAlgorithm t input)).2 /\
            last (steps (sort Date_now (new_SortingAlgorithm t input)).2) = Some s /\
            data (arrayState s) = d) as (d & s & (added & Hs & Hrep) & Hl & Hd).
  { unfold sort. destruct t; [| |done]; cbn [algorithmType new_SortingAlgorithm].
    - by apply (BubbleSort_sort_replay Date_now (new_SortingAlgorithm bubble_sort input)).
    - by apply (SelectionSort_sort_replay Date_now
                  (new_SortingAlgorithm selection_sort input)). }
  rewrite Hr in Hs, Hl. cbn [snd steps new_SortingAlgorithm app] in Hs, Hl.
  exists (steps this'), s. unfold generateSteps. rewrite Hr.
  split; [done|]. split; [done|]. by rewrite Hs, Hd.
Qed.

Lemma exchanges_replay_witness :
  selection_sort <> insertion_sort /\ [3; 1; 2]%Z <> [] /\
  exists stps s,
    generateSteps (fun _ => 0%Z) selection_sort [3; 1; 2]%Z = inr stps /\
    last stps = Some s /\
    replay [3; 1; 2]%Z stps = Some (data (arrayState s)).
Proof.
  split; [done|]. split; [done|].
  exact (exchanges_replay (fun _ => 0%Z) selection_sort [3; 1; 2]%Z
           ltac:(done) ltac:(done)).
Defined.

End ReplayProperties.

Section WriteProperties.
Import Mapping Sorting.

(** X22: insertion sort changes the array at its [insert] steps only, one
    element at a time: followed from the input, every [insert] step shows
    the array of its predecessor with the element at its single highlighted
    position overwritten, and every other step shows the array of its
    predecessor unchanged. *)
Theorem insertion_writes_replay (Date_now : nat -> Z) (input : list Z) :
  input <> [] ->
  exists stps,
    generateSteps Date_now insertion_sort input = inr stps /\
    writes_replay input stps = true.
Proof.
  intros Hne.
  destruct (sort_spec Date_now insertion_sort input Hne) as (this' & Hr & _).
  destruct (InsertionSort_sort_written Date_now
              (new_SortingAlgorithm insertion_sort input) Hne)
    as (d & added & Hs & Hw & _).
  unfold sort in Hr. cbn [algorithmType new_SortingAlgorithm] in Hr.
  rewrite Hr in Hs. cbn [snd steps new_SortingAlgorithm app] in Hs.
  exists (steps this'). unfold generateSteps, sort.
  cbn [algorithmType new_SortingAlgorithm]. rewrite Hr.
  split; [done|]. by rewrite Hs.
Qed.

Lemma insertion_writes_replay_witness :
  [3; 1; 2]%Z <> [] /\
  exists stps,
    generateSteps (fun _ => 0%Z) insertion_sort [3; 1; 2]%Z = inr stps /\
    writes_replay [3; 1; 2]%Z stps = true.
Proof.
  split; [done|].
  exact (insertion_writes_replay (fun _ => 0%Z) [3; 1; 2]%Z ltac:(done)).
Defined.

End WriteProperties.

Section RegionProperties.
Import Mapping Sorting.

(** X23: in every step generated by bubble sort or selection sort, each
    region marked as sorted is in non-decreasing order in the array that the
    step shows. *)
Theorem marked_regions_are_sorted (Date_now : nat -> Z) (t : SortingAlgorithmType)
    (input : list Z) :
  t <> insertion_sort -> input <> [] ->
  exists stps,
    generateSteps Date_now t input = inr stps /\
    Forall (fun s => regions_sorted (arrayState s)) stps.
Proof.
  intros Ht Hne.
  destruct (sort_spec Date_now t input Hne) as (this' & Hr & _).
  assert (pushes Date_now marked (new_SortingAlgorithm t input)
            (sort Date_now (new_SortingAlgorithm t input)).2) as Hp.
  { unfold sort. destruct t; [| |done]; cbn [algorithmType new_SortingAlgorithm].
    - by apply (BubbleSort_sort_regions Date_now (new_SortingAlgorithm bubble_sort input)).
    - by apply (SelectionSort_sort_regions Date_now
                  (new_SortingAlgorithm selection_sort input)). }
  rewrite Hr in Hp. cbn [snd] in Hp.
  apply pushes_steps in Hp as (added & Heq & Hall).
  cbn [steps new_SortingAlgorithm app] in Heq.
  exists (steps this'). unfold generateSteps. rewrite Hr. split; [done|].
  rewrite Heq. eapply Forall_impl; [exact Hall|]. by intros s [? _].
Qed.

Lemma marked_regions_are_sorted_witness :
  bubble_sort <> insertion_sort /\ [3; 1; 2]%Z <> [] /\
  exists stps,
    generateSteps (fun _ => 0%Z) bubble_sort [3; 1; 2]%Z = inr stps /\
    Forall (fun s => regions_sorted (arrayState s)) stps.
Proof.
  split; [done|]. split; [done|].
  exact (marked_regions_are_sorted (fun _ => 0%Z) bubble_sort [3; 1; 2]%Z
           ltac:(done) ltac:(done)).
Defined.

(** Insertion sort is left out for a reason: while it looks for the place
    of the element taken out, it already marks the positions up to that
    element as sorted.  On [2; 1] its second step shows [2; 1] with the
    region from 0 to 1 marked. *)
Example insertion_sort_marks_unsorted_region :
  exists stps s,
    generateSteps (fun _ => 0%Z) insertion_sort [2; 1]%Z = inr stps /\
    stps !! 1 = Some s /\
    data (arrayState s) = [2; 1]%Z /\
    sortedRegions (arrayState s) = [ {| r_start := 0; r_end := 1 |} ] /\
    ~ regions_sorted (arrayState s).
Proof.
  eexists _, _. split; [reflexivity|]. split; [reflexivity|].
  split; [reflexivity|]. split; [reflexivity|].
  intros Hs. apply Forall_cons in Hs as [Hs _].
  cbv in Hs. apply StronglySorted_inv in Hs as [_ Hs].
  apply Forall_cons in Hs as [Hs _]. by apply Hs.
Qed.

End RegionProperties.

Section IdProperties.
Import Mapping Sorting.

Lemma make_step_id_prefix_differs t1 t2 ts1 ts2 c1 c2 :
  t1 <> t2 ->
  make_step_id (id_prefix t1) ts1 c1 <> make_step_id (id_prefix t2) ts2 c2.
Proof.
  intros Hne Heq. apply (f_equal (String.get 0)) in Heq.
  destruct t1, t2; try done; vm_compute in Heq; discriminate Heq.
Qed.

(** X11: step ids generated for different algorithms never coincide,
    whatever the inputs and the clocks. *)
Theorem step_ids_differ_across_algorithms (Date_now1 Date_now2 : nat -> Z)
    (t1 t2 : SortingAlgorithmType) (input1 input2 : list Z)
    (stps1 stps2 : list AlgorithmStep) (s1 s2 : AlgorithmStep) :
  t1 <> t2 ->
  generateSteps Date_now1 t1 input1 = inr stps1 ->
  generateSteps Date_now2 t2 input2 = inr stps2 ->
  s1 ∈ stps1 -> s2 ∈ stps2 ->
  stepId s1 <> stepId s2.
Proof.
  intros Hne H1 H2 Hs1 Hs2.
  assert (forall Date_now t input stps s,
            generateSteps Date_now t input = inr stps -> s ∈ stps ->
            exists k, stepId s = make_step_id (id_prefix t) (Date_now (S k)) (S k)) as Hid.
  { intros Date_now t input stps s Hgen Hs.
    destruct input as [|x input]; [by destruct t|].
    destruct (sort_spec Date_now t (x :: input)) as (this' & Hr & Hg & _); [done|].
    pose proof (numbered_grows Date_now _ _ Hg (numbered_new Date_now t (x :: input)))
      as (_ & _ & Hk).
    unfold generateSteps in Hgen. rewrite Hr in Hgen. injection Hgen as <-.
    apply list_elem_of_lookup in Hs as [k Hs]. exists k.
    destruct (Hk k s Hs) as [_ ->].
    apply grows_fields in Hg as (-> & _). done. }
  destruct (Hid _ _ _ _ _ H1 Hs1) as [k1 ->].
  destruct (Hid _ _ _ _ _ H2 Hs2) as [k2 ->].
  by apply make_step_id_prefix_differs.
Qed.

Lemma step_ids_differ_across_algorithms_witness :
  bubble_sort <> selection_sort /\
  exists stps1 stps2 s1 s2,
    generateSteps (fun _ => 5%Z) bubble_sort [1]%Z = inr stps1 /\
    generateSteps (fun _ => 5%Z) selection_sort [1]%Z = inr stps2 /\
    s1 ∈ stps1 /\ s2 ∈ stps2 /\
    stepId s1 <> stepId s2.
Proof.
  assert (bubble_sort <> selection_sort) as Hne by done.
  split; [exact Hne|].
  destruct (generateSteps (fun _ => 5%Z) bubble_sort [1]%Z) as [err1|stps1] eqn:H1;
    [vm_compute in H1; discriminate H1|].
  destruct (generateSteps (fun _ => 5%Z) selection_sort [1]%Z) as [err2|stps2] eqn:H2;
    [vm_compute in H2; discriminate H2|].
  destruct stps1 as [|s1 stps1]; [vm_compute in H1; discriminate H1|].
  destruct stps2 as [|s2 stps2]; [vm_compute in H2; discriminate H2|].
  assert (s1 ∈ s1 :: stps1) as Hs1 by apply list_elem_of_here.
  assert (s2 ∈ s2 :: stps2) as Hs2 by apply list_elem_of_here.
  exists (s1 :: stps1), (s2 :: stps2), s1, s2.
  split; [reflexivity|]. split; [reflexivity|]. split; [exact Hs1|]. split; [exact Hs2|].
  exact (step_ids_differ_across_algorithms (fun _ => 5%Z) (fun _ => 5%Z)
           bubble_sort selection_sort [1]%Z [1]%Z (s1 :: stps1) (s2 :: stps2) s1 s2
           Hne H1 H2 Hs1 Hs2).
Defined.

End IdProperties.

(** ** The controller's timers *)

Section TimerFacts.
Import Player.
Context {NT : JS.NumberText}.

Lemma filter_own_handle (t : Timer) :
  filter (fun t' => handle t' <> handle t) [t] = [].
Proof. by rewrite filter_cons_False by (intros H; by apply H). Qed.

Lemma clearTimer_none w :
  at_most_playTimer w ->
  timers (clearTimer w) = [] /\ playTimer (clearTimer w) = None \/
  playTimer w = None /\ clearTimer w = w.
Proof.
  intros Hw. unfold clearTimer. destruct (playTimer w) as [h|] eqn:Hpt; [left|by right].
  cbn [timers playTimer set_playTimer clearTimeout set_timers].
  split; [|done].
  destruct Hw as [Ht|(t & Ht & Hp)]; rewrite Ht; [done|].
  rewrite Hpt in Hp. injection Hp as ->. apply filter_own_handle.
Qed.


Lemma single_timer_at_most w : single_timer w -> at_most_playTimer w.
Proof.
  intros [_ Hw]. destruct (state w); try (by left; apply Hw).
  destruct Hw as (t & Ht & Hp & _). right. by exists t.
Qed.

Lemma complete_single w :
  loopMode (config w) = false -> at_most_playTimer w -> single_timer (complete w).
Proof.
  intros Hloop Hw. unfold complete.
  assert (loopMode (config (setState completed (clearTimer w))) = false) as Hl.
  { cbn [config setState]. by rewrite config_clearTimer. }
  rewrite Hl. split; [done|]. cbn [state setState timers playTimer].
  destruct (clearTimer_none w Hw) as [[Ht Hp]|[Hp ->]]; [done|].
  split; [|done]. by destruct Hw as [?|(t & _ & Ht)]; [|rewrite Hp in Ht].
Qed.

Lemma scheduleNextStep_single w :
  loopMode (config w) = false -> state w = playing -> timers w = [] ->
  single_timer (scheduleNextStep w).
Proof.
  intros Hloop Hst Ht. unfold scheduleNextStep. rewrite Hst. cbn [PlayerState_eqb negb].
  split; [done|].
  cbn [state set_playTimer setTimeout snd fst timers playTimer].
  rewrite Hst, Ht. eexists. split; [reflexivity|]. done.
Qed.

Lemma single_timer_index i w : single_timer w -> single_timer (set_currentStepIndex i w).
Proof. done. Qed.

Lemma play_single w : single_timer w -> single_timer (play w).
Proof.
  intros Hw. unfold play.
  destruct (PlayerState_eqb (state w) playing) eqn:Hp; [done|].
  destruct Hw as [Hloop Hw]. rewrite Hloop, andb_false_r.
  apply scheduleNextStep_single; [done|done|].
  cbn [timers setState]. destruct (state w); try apply Hw. done.
Qed.

Lemma pause_single w : single_timer w -> single_timer (pause w).
Proof.
  intros Hw. unfold pause.
  destruct (PlayerState_eqb (state w) playing) eqn:Hp; [|done]. cbn [negb].
  pose proof (single_timer_at_most w Hw) as Ha.
  destruct Hw as [Hloop Hw].
  split; [by rewrite config_clearTimer|].
  rewrite state_clearTimer. cbn [state setState].
  destruct (clearTimer_none (setState paused w)) as [[Ht Hpt]|[Hpt Heq]]; [done|done|].
  rewrite Heq. cbn [timers playTimer setState] in *. split; [|done].
  by destruct Ha as [?|(t & _ & Ht)]; [|rewrite Hpt in Ht].
Qed.

Lemma reset_idle_single w :
  single_timer w -> state w <> playing -> single_timer (reset w).
Proof.
  intros [Hloop Hw] Hst. split; [done|]. cbn [state reset setState timers playTimer
    set_currentStepIndex]. by destruct (state w).
Qed.

Lemma stop_single w : single_timer w -> single_timer (stop w).
Proof.
  intros Hw. unfold stop. apply reset_idle_single; [by apply pause_single|].
  unfold pause. destruct (PlayerState_eqb (state w) playing) eqn:Hp; cbn [negb].
  - rewrite state_clearTimer. done.
  - intros Hst. by rewrite Hst in Hp.
Qed.

Lemma nextStep_single w : single_timer w -> single_timer (nextStep w).
Proof.
  intros Hw. unfold nextStep. destruct (JS.lt _ _); [done|].
  apply complete_single; [apply Hw|by apply single_timer_at_most].
Qed.

Lemma previousStep_single w : single_timer w -> single_timer (previousStep w).
Proof. intros Hw. unfold previousStep. by destruct (JS.gt _ _). Qed.

Lemma jumpToStep_single i w : single_timer w -> single_timer (jumpToStep i w).2.
Proof. intros Hw. unfold jumpToStep. by destruct (_ || _). Qed.

Lemma setPlaybackSpeed_single x w :
  single_timer w -> single_timer (setPlaybackSpeed x w).2.
Proof.
  intros Hw. unfold setPlaybackSpeed. destruct (_ || _); [done|]. cbn [snd].
  cbn [state set_config].
  pose proof (single_timer_at_most w Hw) as Ha. destruct Hw as [Hloop Hw].
  destruct (PlayerState_eqb (state w) playing) eqn:Hp.
  - apply PlayerState_eqb_eq in Hp.
    match goal with |- context [clearTimer ?w1] => set (w' := w1) end.
    assert (at_most_playTimer w') as Ha' by done.
    apply scheduleNextStep_single.
    + by rewrite config_clearTimer.
    + by rewrite state_clearTimer.
    + destruct (clearTimer_none w' Ha') as [[Ht _]|[Hpt ->]]; [done|].
      by destruct Ha' as [?|(t & _ & Ht)]; [|rewrite Hpt in Ht].
  - split; [done|]. cbn [state set_config timers playTimer]. done.
Qed.

Lemma cleanup_single w : single_timer w -> single_timer (cleanup w).
Proof.
  intros Hw. pose proof (single_timer_at_most w Hw) as Ha. destruct Hw as [Hloop Hw].
  unfold cleanup. split; [cbn [config setState set_steps]; by rewrite config_clearTimer|].
  cbn [state setState timers playTimer set_steps].
  destruct (clearTimer_none w Ha) as [[Ht Hpt]|[Hpt ->]]; [done|].
  split; [|done]. by destruct Ha as [?|(t & _ & Ht)]; [|rewrite Hpt in Ht].
Qed.

Lemma fired_timer w h t :
  single_timer w -> find_timer h w = Some t ->
  state w = playing /\ timers w = [t] /\ handle t = h /\ callback t = AdvanceCallback.
Proof.
  intros [_ Hw] Hf. unfold find_timer in Hf.
  destruct (state w); try (destruct Hw as [Ht _]; by rewrite Ht in Hf).
  destruct Hw as (t' & Ht & _ & Hc). rewrite Ht in Hf. cbn [find] in Hf.
  destruct (handle t' =? h) eqn:Hh; [|done]. injection Hf as <-.
  apply Nat.eqb_eq in Hh. done.
Qed.

Lemma step_event_single e w w' :
  disciplined_event e = true -> step_event e w = Some w' ->
  single_timer w -> single_timer w'.
Proof.
  intros He Hstep Hw. destruct e as [m|dt|h]; cbn [step_event] in Hstep.
  - injection Hstep as <-. destruct m; cbn [call snd]; try done.
    + by apply play_single.
    + by apply pause_single.
    + by apply stop_single.
    + by apply nextStep_single.
    + by apply previousStep_single.
    + by apply jumpToStep_single.
    + by apply setPlaybackSpeed_single.
    + destruct enabled; [done|]. by destruct Hw.
    + by apply cleanup_single.
  - destruct (Qle_bool 0 dt); [|done]. by injection Hstep as <-.
  - destruct (find_timer h w) as [t|] eqn:Hf; [|done]. injection Hstep as <-.
    destruct (fired_timer w h t Hw Hf) as (Hst & Ht & <- & ->).
    destruct Hw as [Hloop Hw].
    set (w1 := clearTimeout (handle t) w).
    assert (timers w1 = []) as Ht1.
    { subst w1. cbn [timers clearTimeout set_timers]. rewrite Ht. apply filter_own_handle. }
    cbn [run_callback]. unfold nextStep.
    destruct (JS.lt _ _).
    + cbn [state set_currentStepIndex]. subst w1. cbn [state clearTimeout set_timers].
      rewrite Hst. cbn [PlayerState_eqb].
      apply scheduleNextStep_single; [done|done|exact Ht1].
    + rewrite state_complete. cbn [PlayerState_eqb].
      apply complete_single; [done|by left].
Qed.

Lemma run_single evs : forall w w',
  forallb disciplined_event evs = true -> run evs w = Some w' ->
  single_timer w -> single_timer w'.
Proof.
  induction evs as [|e evs IH]; intros w w' Hall Hrun Hw; cbn [run] in Hrun.
  - by injection Hrun as <-.
  - cbn [forallb] in Hall. apply andb_true_iff in Hall as [He Hall].
    destruct (step_event e w) as [w1|] eqn:Hstep; [|done].
    apply (IH w1 w'); [done|done|]. by apply (step_event_single e w).
Qed.

Lemma loaded_single cfg l : loopMode cfg = false -> single_timer (loaded cfg l).
Proof.
  intros Hloop. unfold loaded, loadSteps.
  destruct (length l =? 0); [done|]. cbn [snd].
  destruct (autoPlay _); [|done]. by apply play_single.
Qed.

End TimerFacts.

(** ** Playing a sequence to its end *)

Section AutoplayFacts.
Import Player.
Context {NT : JS.NumberText}.





(** *** Runs in two parts *)



End AutoplayFacts.

(** ** Further properties of the playback controller *)

Section PlayerProperties.
Import Player.

(** X12: a controller created with loop mode off keeps its timers in order
    as long as the application calls neither [reset] nor [loadSteps] again
    nor switches loop mode on: after any such events at most one timer is
    pending, it is an advance whose handle is in [playTimer], and a timer is
    pending exactly while the state is [playing]. *)
Theorem single_timer_discipline {NT : JS.NumberText} (cfg : PlayerConfig)
    (l : list Sorting.AlgorithmStep) (evs : list Event) (w : World) :
  loopMode cfg = false ->
  forallb disciplined_event evs = true ->
  run evs (loaded cfg l) = Some w ->
  length (timers w) <= 1 /\
  pendingAdvances w = timers w /\
  (forall t, t ∈ timers w -> playTimer w = Some (handle t)) /\
  (state w = playing <-> timers w <> []).
Proof.
  intros Hloop Hall Hrun.
  pose proof (run_single evs _ _ Hall Hrun (loaded_single cfg l Hloop)) as [_ Hw].
  unfold pendingAdvances.
  destruct (state w) eqn:Hst;
    try (destruct Hw as [-> _]; split; [cbn; lia|]; split; [done|];
         split; [by intros t Ht; apply elem_of_nil in Ht|by split]).
  destruct Hw as (t & -> & Hp & Hc). split; [done|]. split.
  - by rewrite filter_cons_True by done.
  - split; [|done]. intros t' Ht'. apply list_elem_of_singleton in Ht'. by subst.
Qed.

Lemma single_timer_discipline_witness :
  loopMode defaultPlayerConfig = false /\
  forallb disciplined_event
    [Call m_play; Elapse 600; TimerFires 1; Call (m_setPlaybackSpeed (JS.Fin 2));
     Call (m_setPlaybackSpeed JS.NaN); Call (m_jumpToStep (JS.Fin (1 # 2)));
     Call m_pause; Call m_play] = true /\
  exists w,
    run (NT := demo_text)
      [Call m_play; Elapse 600; TimerFires 1; Call (m_setPlaybackSpeed (JS.Fin 2));
       Call (m_setPlaybackSpeed JS.NaN); Call (m_jumpToStep (JS.Fin (1 # 2)));
       Call m_pause; Call m_play]
      (loaded defaultPlayerConfig [demo_step 1; demo_step 2; demo_step 3]) = Some w /\
    length (timers w) <= 1 /\
    pendingAdvances w = timers w /\
    (forall t, t ∈ timers w -> playTimer w = Some (handle t)) /\
    (state w = playing <-> timers w <> []).
Proof.
  split; [reflexivity|]. split; [reflexivity|].
  eexists. split; [reflexivity|].
  exact (single_timer_discipline (NT := demo_text) defaultPlayerConfig
           [demo_step 1; demo_step 2; demo_step 3]
           [Call m_play; Elapse 600; TimerFires 1; Call (m_setPlaybackSpeed (JS.Fin 2));
            Call (m_setPlaybackSpeed JS.NaN); Call (m_jumpToStep (JS.Fin (1 # 2)));
            Call m_pause; Call m_play] _
           eq_refl eq_refl eq_refl).
Defined.




(** X14: whatever happens to a controller loaded with a non-empty list,
    short of [cleanup] and of [jumpToStep] with a target that is not an
    integer, [getCurrentStepInfo] reports a step, and a progress that is a
    finite number above 0, at most 1, and 1 exactly at the last index. *)
Theorem stepInfo_after_events {NT : JS.NumberText} (cfg : PlayerConfig)
    (l : list Sorting.AlgorithmStep) (evs : list Event) (w : World) :
  l <> [] ->
  forallb not_cleanup evs = true -> forallb integer_jump evs = true ->
  run evs (loaded cfg l) = Some w ->
  is_Some (info_step (getCurrentStepInfo w)) /\
  exists p,
    info_progress (getCurrentStepInfo w) = JS.Fin p /\
    (0 < p)%Q /\ (p <= 1)%Q /\
    ((p == 1)%Q <-> at_index w (last_index w)).
Proof.
  intros Hl Hall Hint Hrun.
  pose proof (run_index_ok evs _ _ Hall Hint Hrun (loaded_index_ok cfg l Hl)) as Hok.
  split; [by apply index_ok_is_Some|].
  destruct Hok as (i & Hi & Hr). unfold at_index in *.
  destruct (as_integer_inv _ _ Hi) as (q & Hq & Hqi).
  unfold getCurrentStepInfo, last_index. cbn [info_progress]. rewrite Hq in *.
  set (n := Z.of_nat (length (steps w))) in *.
  assert ((0 <? n)%Z = true) as -> by lia.
  assert (0 < inject_Z n)%Q as Hn
    by (change 0%Q with (inject_Z 0); rewrite <- Zlt_Qlt; lia).
  assert (~ (inject_Z n == 0)%Q) as Hn0.
  { intros H0. rewrite H0 in Hn. by apply Qlt_irrefl in Hn. }
  cbn [JS.add JS.of_Z]. rewrite (div_Fin _ _ Hn0).
  eexists. split; [reflexivity|].
  rewrite as_integer_Fin. rewrite Hqi, <- inject_Z_plus.
  clearbody n. clear Hq Hqi Hi q. split; [|split].
  - apply Qlt_shift_div_l; [done|]. rewrite Qmult_0_l.
    change 0%Q with (inject_Z 0). rewrite <- Zlt_Qlt. lia.
  - apply Qle_shift_div_r; [done|]. rewrite Qmult_1_l. rewrite <- Zle_Qle. lia.
  - rewrite inject_Z_injective. split.
    + intros Heq. apply (Qmult_inj_r _ _ (inject_Z n)) in Heq; [|done].
      rewrite Qmult_1_l in Heq. unfold Qdiv in Heq.
      rewrite <- Qmult_assoc, (Qmult_comm (/ _)), Qmult_inv_r, Qmult_1_r in Heq by done.
      rewrite inject_Z_injective in Heq. lia.
    + intros Heq. replace (i + 1)%Z with n by lia. by apply Qmult_inv_r.
Qed.

Lemma stepInfo_after_events_witness :
  [demo_step 1; demo_step 2] <> [] /\
  forallb not_cleanup [Call m_nextStep; Call (m_jumpToStep (JS.of_Z 0)); Call m_play]
    = true /\
  forallb integer_jump [Call m_nextStep; Call (m_jumpToStep (JS.of_Z 0)); Call m_play]
    = true /\
  exists w,
    run (NT := demo_text) [Call m_nextStep; Call (m_jumpToStep (JS.of_Z 0)); Call m_play]
      (loaded defaultPlayerConfig [demo_step 1; demo_step 2]) = Some w /\
    is_Some (info_step (getCurrentStepInfo w)) /\
    exists p,
      info_progress (getCurrentStepInfo w) = JS.Fin p /\
      (0 < p)%Q /\ (p <= 1)%Q /\
      ((p == 1)%Q <-> at_index w (last_index w)).
Proof.
  split; [done|]. split; [reflexivity|]. split; [reflexivity|].
  eexists. split; [reflexivity|].
  exact (stepInfo_after_events (NT := demo_text) defaultPlayerConfig
           [demo_step 1; demo_step 2]
           [Call m_nextStep; Call (m_jumpToStep (JS.of_Z 0)); Call m_play] _
           ltac:(done) eq_refl eq_refl eq_refl).
Defined.

(** What the restriction to integers keeps out: on three steps
    [jumpToStep(1.5)] is accepted, [getCurrentStepInfo] then reports no step,
    and [nextStep] moves on to 2.5, beyond the last index, where a further
    [nextStep] completes. *)
Example stepInfo_after_fraction {NT : JS.NumberText} :
  let w0 := loaded defaultPlayerConfig [demo_step 1; demo_step 2; demo_step 3] in
  let w1 := (jumpToStep (JS.Fin (3 # 2)) w0).2 in
  (jumpToStep (JS.Fin (3 # 2)) w0).1 = None /\
  info_step (getCurrentStepInfo w1) = None /\
  info_currentStep (getCurrentStepInfo (nextStep w1)) = JS.Fin (5 # 2) /\
  state (nextStep w1) = idle /\
  state (nextStep (nextStep w1)) = completed /\
  (jumpToStep JS.NaN w0).1 = None /\
  info_step (getCurrentStepInfo (jumpToStep JS.NaN w0).2) = None /\
  info_progress (getCurrentStepInfo (jumpToStep JS.NaN w0).2) = JS.NaN.
Proof. cbn zeta. repeat split. Qed.



End PlayerProperties.

Section TimeFormatProperties.
Import Player.





End TimeFormatProperties.

(** ** Runs of the store *)

Ltac ssimpl :=
  cbn [Store.selectedAlgorithm Store.originalData Store.currentData Store.steps
       Store.playerState Store.currentStep Store.playbackSpeed
       Store.config_playbackSpeed Store.errorMessage Store.timeline
       Store.currentSnapshotIndex Store.isTimeTravel
       Store.set_selectedAlgorithm Store.set_originalData Store.set_currentData
       Store.set_steps Store.set_playerState Store.set_currentStep
       Store.set_playbackSpeed Store.set_config_playbackSpeed Store.set_errorMessage
       Store.set_timeline Store.set_currentSnapshotIndex Store.set_isTimeTravel
       Store.resetPlayback Store.setError Store.clearError Store.clearTimeline
       Store.importTimeline fst snd].

Section StoreRunFacts.
Import Mapping Sorting Store.
Context {NT : JS.NumberText}.
Variable Date_now : nat -> Z.

(** *** What [saveSnapshot] leaves alone *)

Lemma saveSnapshot_frame e d ds st :
  selectedAlgorithm (saveSnapshot e d ds st) = selectedAlgorithm st /\
  originalData (saveSnapshot e d ds st) = originalData st /\
  currentData (saveSnapshot e d ds st) = currentData st /\
  steps (saveSnapshot e d ds st) = steps st /\
  playerState (saveSnapshot e d ds st) = playerState st /\
  currentStep (saveSnapshot e d ds st) = currentStep st /\
  playbackSpeed (saveSnapshot e d ds st) = playbackSpeed st /\
  errorMessage (saveSnapshot e d ds st) = errorMessage st /\
  isTimeTravel (saveSnapshot e d ds st) = isTimeTravel st.
Proof.
  unfold saveSnapshot. destruct (isTimeTravel st) eqn:Ht; [by rewrite Ht|].
  cbn [timeline set_timeline set_currentSnapshotIndex].
  destruct (_ <? _)%nat; by rewrite <- Ht.
Qed.

(** The snapshot taken, and where it ends up. *)
Lemma saveSnapshot_timeline e d ds st :
  isTimeTravel st = false ->
  exists snap kept,
    timeline (saveSnapshot e d ds st) = kept ++ [snap] /\
    id snap = snapshot_id e /\ timestamp snap = now_stamp e /\
    snap_state snap =
      {| s_currentData := currentData st; s_currentStep := currentStep st;
         s_playerState := playerState st;
         s_selectedAlgorithm := selectedAlgorithm st; s_steps := steps st |} /\
    (kept = timeline st \/ exists old, timeline st = old :: kept) /\
    length (timeline (saveSnapshot e d ds st))
      = Nat.min (S (length (timeline st))) (Nat.max maxSnapshots (length (timeline st))) /\
    currentSnapshotIndex (saveSnapshot e d ds st) = Z.of_nat (length kept).
Proof.
  intros Ht. unfold saveSnapshot. rewrite Ht.
  cbn [timeline set_timeline set_currentSnapshotIndex currentSnapshotIndex].
  rewrite length_app. cbn [length]. rewrite Nat.add_1_r.
  destruct (_ <? _)%nat eqn:Hlt;
    cbn [timeline set_timeline set_currentSnapshotIndex currentSnapshotIndex].
  - apply Nat.ltb_lt in Hlt. destruct (timeline st) as [|old kept] eqn:Htl.
    { cbn [length] in Hlt. unfold maxSnapshots in Hlt. lia. }
    eexists _, kept. cbn [app tail].
    split; [reflexivity|]. split; [reflexivity|]. split; [reflexivity|].
    split; [reflexivity|]. split; [right; by exists old|].
    rewrite length_app. cbn [length] in *. split; lia.
  - apply Nat.ltb_ge in Hlt. eexists _, (timeline st).
    split; [reflexivity|]. split; [reflexivity|]. split; [reflexivity|].
    split; [reflexivity|]. split; [by left|].
    rewrite length_app. cbn [length]. split; lia.
Qed.

(** *** The timeline bookkeeping *)

Lemma timeline_ok_frame st st' :
  timeline st' = timeline st -> currentSnapshotIndex st' = currentSnapshotIndex st ->
  isTimeTravel st' = isTimeTravel st -> timeline_ok st -> timeline_ok st'.
Proof. unfold timeline_ok. by intros -> -> ->. Qed.

Lemma timeline_ok_save e d ds st : timeline_ok st -> timeline_ok (saveSnapshot e d ds st).
Proof.
  intros (Hlen & Hidx & Ht).
  destruct (saveSnapshot_timeline e d ds st Ht) as (snap & kept & Htl & _ & _ & _ & _ & Hl & Hi).
  destruct (saveSnapshot_frame e d ds st) as (_ & _ & _ & _ & _ & _ & _ & _ & Htt).
  unfold timeline_ok. rewrite Hl, Hi, Htt. rewrite Htl, length_app in Hl. cbn [length] in Hl.
  split; [lia|]. split; [lia|done].
Qed.

Lemma findIndex_range i l : forall k,
  (findIndex i l k = -1 /\ List.find (fun s => String.eqb (id s) i) l = None \/
   k <= findIndex i l k < k + Z.of_nat (length l))%Z.
Proof.
  induction l as [|s l IH]; intros k; cbn [findIndex find length]; [by left|].
  destruct (String.eqb (id s) i); [right; lia|].
  destruct (IH (k + 1)%Z) as [[-> ->]|H]; [by left|right; lia].
Qed.

Lemma timeline_ok_restore i st : timeline_ok st -> timeline_ok (restoreSnapshot i st).2.
Proof.
  intros (Hlen & Hidx & Ht). unfold restoreSnapshot, find_snapshot.
  destruct (findIndex_range i (timeline st) 0) as [[_ ->]|Hr]; [done|].
  destruct (find _ _); [|done]. cbn [snd]. unfold timeline_ok.
  cbn [timeline currentSnapshotIndex isTimeTravel set_isTimeTravel
       set_currentSnapshotIndex set_steps set_selectedAlgorithm set_playerState
       set_currentStep set_currentData].
  split; [done|]. split; [lia|done].
Qed.

Ltac save_frame :=
  repeat first
    [ apply timeline_ok_save
    | match goal with
      | |- timeline_ok (_, _).2 => cbn [snd]
      | |- context [if ?b then _ else _] => destruct b
      | |- context [match ?x with inl _ => _ | inr _ => _ end] => destruct x
      | |- context [match ?x with Some _ => _ | None => _ end] => destruct x
      end ];
  try done; try (unfold timeline_ok in *; ssimpl; done).

Lemma do_action_timeline_ok e a st :
  small_import (e, a) = true -> timeline_ok st ->
  timeline_ok (do_action Date_now e a st).
Proof.
  intros Ha Hok. destruct a; cbn [do_action].
  - unfold setData. save_frame.
  - unfold selectAlgorithm. save_frame.
  - unfold startSorting. save_frame.
  - unfold pausePlayback. save_frame.
  - unfold resumePlayback. save_frame.
  - unfold stopPlayback. save_frame.
  - done.
  - unfold jumpToStep. save_frame.
  - unfold nextStep, jumpToStep. save_frame.
  - unfold previousStep, jumpToStep. save_frame.
  - unfold updatePlaybackSpeed. save_frame.
  - unfold updateConfig. save_frame.
  - done.
  - done.
  - save_frame.
  - by apply timeline_ok_restore.
  - unfold timeline_ok, maxSnapshots. cbn. split; [lia|]. split; [lia|]. apply Hok.
  - cbn in Ha. apply Nat.leb_le in Ha. destruct Hok as (_ & _ & Ht).
    unfold timeline_ok. cbn. split; [done|]. split; [lia|done].
Qed.

Lemma run_actions_timeline_ok acts : forall st,
  forallb small_import acts = true -> timeline_ok st ->
  timeline_ok (run_actions Date_now acts st).
Proof.
  induction acts as [|[e a] acts IH]; intros st Hall Hok; cbn [run_actions]; [done|].
  cbn [forallb] in Hall. apply andb_true_iff in Hall as [Ha Hall].
  apply IH; [done|]. by apply do_action_timeline_ok.
Qed.

End StoreRunFacts.

(** *** The playback position *)

Section StorePlaybackFacts.
Import Mapping Sorting Store.
Context {NT : JS.NumberText}.
Variable Date_now : nat -> Z.

Lemma sort_inr_nonempty t input stps :
  (sort Date_now (new_SortingAlgorithm t input)).1 = inr stps -> stps <> [].
Proof.
  destruct input as [|x input]; [by destruct t|].
  destruct (sort_spec Date_now t (x :: input)) as (this' & Hr & _ & s & Hl & _); [done|].
  rewrite Hr. intros [= <-] Hnil. by rewrite Hnil in Hl.
Qed.

Lemma playback_ok_set st st' :
  position_ok (playerState st') (currentStep st') (steps st') ->
  timeline st' = timeline st -> playbackSpeed st' = playbackSpeed st ->
  playback_ok st -> playback_ok st'.
Proof. intros Hp Ht Hs (_ & Htl & Hsp). unfold playback_ok. by rewrite Ht, Hs. Qed.

Lemma playback_ok_save e d ds st : playback_ok st -> playback_ok (saveSnapshot e d ds st).
Proof.
  intros (Hp & Htl & Hs).
  destruct (saveSnapshot_frame e d ds st) as (_ & _ & _ & Hst & Hps & Hcs & Hsp & _ & _).
  unfold playback_ok. rewrite Hst, Hps, Hcs, Hsp. split; [done|]. split; [|done].
  destruct (isTimeTravel st) eqn:Ht; [unfold saveSnapshot; by rewrite Ht|].
  destruct (saveSnapshot_timeline e d ds st Ht)
    as (snap & kept & -> & _ & _ & Hss & Hk & _).
  apply Forall_app. split.
  - destruct Hk as [->|[old Hk]]; [done|]. rewrite Hk in Htl. by apply Forall_cons in Htl as [_ ?].
  - apply Forall_cons. split; [|constructor]. unfold snapshot_ok. by rewrite Hss.
Qed.

Lemma position_ok_zero ps stps :
  ps <> Player.completed -> ps = Player.idle \/ stps <> [] ->
  position_ok ps (JS.of_Z 0) stps.
Proof.
  intros H1 H2. split; [done|]. split; [done|].
  destruct stps; [by right|left]. exists 0%Z.
  split; [apply as_integer_of_Z|cbn [length]; lia].
Qed.

(** A position that makes sense is an integer. *)
Lemma position_ok_integer ps cs stps :
  position_ok ps cs stps ->
  exists k, JS.as_integer cs = Some k /\
            ((0 <= k < Z.of_nat (length stps))%Z \/ (k = 0%Z /\ stps = [])).
Proof.
  intros (_ & _ & [(k & Hk & Hr)|[-> ->]]).
  - exists k. split; [done|by left].
  - exists 0%Z. split; [apply as_integer_of_Z|by right].
Qed.

Lemma jumpToStep_playback_ok e i st :
  JS.is_integer i = true -> playback_ok st -> playback_ok (jumpToStep e i st).2.
Proof.
  intros [k Hk]%is_integer_spec Hok. unfold jumpToStep.
  destruct (negb (canNavigate st)); [done|].
  rewrite (lt_integer i k _ Hk), (ge_integer i k _ Hk).
  destruct (_ || _) eqn:Hr; [done|]. cbn [snd].
  apply orb_false_iff in Hr as [H1 H2]. unfold totalSteps in H2.
  apply Z.ltb_ge in H1. apply Z.leb_gt in H2.
  assert (steps st <> []) as Hne.
  { intros Hnil. rewrite Hnil in H2. cbn [length] in H2. lia. }
  apply playback_ok_save.
  destruct Hok as ((Hc & Hi & _) & Htl & Hs).
  assert (position_ok (playerState st) i (steps st)) as Hpos.
  { split; [done|]. split; [by right|left]. exists k. split; [done|lia]. }
  by destruct (step_at _ _).
Qed.

Lemma do_action_playback_ok e a st :
  no_import (e, a) = true -> plain_numbers (e, a) = true ->
  playback_ok st -> playback_ok (do_action Date_now e a st).
Proof.
  intros Ha Hplain Hok. destruct a; cbn [do_action]; try done.
  - unfold setData. destruct (Player.PlayerState_eqb _ _); [done|]. cbn [snd].
    apply playback_ok_save. eapply playback_ok_set; [| | |exact Hok]; ssimpl; try done.
    by apply position_ok_zero; [|left].
  - unfold selectAlgorithm. destruct (Player.PlayerState_eqb _ _); [done|]. cbn [snd].
    apply playback_ok_save. eapply playback_ok_set; [| | |exact Hok]; ssimpl; try done.
    by apply position_ok_zero; [|left].
  - unfold startSorting. destruct (negb (canStart st)); [done|].
    ssimpl. destruct (sort _ _).1 as [err|stps] eqn:Hsort; cbn [snd].
    + eapply playback_ok_set; [| | |exact Hok]; ssimpl; try done. apply Hok.
    + apply sort_inr_nonempty in Hsort.
      apply playback_ok_save. eapply playback_ok_set; [| | |exact Hok]; ssimpl; try done.
      by apply position_ok_zero; [|right].
  - unfold pausePlayback.
    destruct (Player.PlayerState_eqb _ _) eqn:Hp; [|done].
    apply PlayerState_eqb_eq in Hp.
    apply playback_ok_save. eapply playback_ok_set; [| | |exact Hok]; ssimpl; try done.
    destruct Hok as ((_ & Hi & Hc) & _). rewrite Hp in Hi.
    split; [done|]. split; [|done]. destruct Hi as [?|?]; [done|by right].
  - unfold resumePlayback.
    destruct (Player.PlayerState_eqb _ _) eqn:Hp; [|done].
    apply PlayerState_eqb_eq in Hp.
    apply playback_ok_save. eapply playback_ok_set; [| | |exact Hok]; ssimpl; try done.
    destruct Hok as ((_ & Hi & Hc) & _). rewrite Hp in Hi.
    split; [done|]. split; [|done]. destruct Hi as [?|?]; [done|by right].
  - unfold stopPlayback.
    apply playback_ok_save. eapply playback_ok_set; [| | |exact Hok]; ssimpl; try done.
    by apply position_ok_zero; [|left].
  - eapply playback_ok_set; [| | |exact Hok]; ssimpl; try done.
    by apply position_ok_zero; [|left].
  - by apply jumpToStep_playback_ok.
  - unfold nextStep. destruct (JS.lt _ _); [|done].
    destruct (position_ok_integer _ _ _ (proj1 Hok)) as (k & Hk & _).
    apply jumpToStep_playback_ok; [|done].
    apply is_integer_spec. eexists. by apply add_integer.
  - unfold previousStep. destruct (JS.gt _ _); [|done].
    destruct (position_ok_integer _ _ _ (proj1 Hok)) as (k & Hk & _).
    apply jumpToStep_playback_ok; [|done].
    apply is_integer_spec. eexists. by apply sub_integer.
  - unfold updatePlaybackSpeed. apply playback_ok_save.
    destruct Hok as (Hp & Htl & _). split; [done|]. split; [done|]. ssimpl.
    apply clamp_speed. cbn [plain_numbers snd] in Hplain. by apply negb_true_iff.
  - unfold updateConfig. apply playback_ok_save. by destruct new_playbackSpeed.
  - by apply playback_ok_save.
  - unfold restoreSnapshot, find_snapshot.
    destruct (find _ _) as [snap|] eqn:Hf; [|done]. cbn [snd].
    apply find_some in Hf as [Hin _].
    destruct Hok as (_ & Htl & Hs).
    split; [|done]. ssimpl.
    rewrite Forall_forall in Htl. apply Htl. by apply list_elem_of_In.
  - destruct Hok as (Hp & _ & Hs). split; [done|]. split; [|done]. constructor.
Qed.

Lemma run_actions_playback_ok acts : forall st,
  forallb no_import acts = true -> forallb plain_numbers acts = true ->
  playback_ok st -> playback_ok (run_actions Date_now acts st).
Proof.
  induction acts as [|[e a] acts IH]; intros st Hall Hplain Hok; cbn [run_actions]; [done|].
  cbn [forallb] in Hall, Hplain. apply andb_true_iff in Hall as [Ha Hall].
  apply andb_true_iff in Hplain as [Hp Hplain].
  apply IH; [done|done|]. by apply do_action_playback_ok.
Qed.

End StorePlaybackFacts.

(** *** Finding a snapshot *)

Section SnapshotFacts.
Import Mapping Sorting Store.

Lemma find_snapshot_fresh i kept snap :
  Forall (fun s => id s <> i) kept -> id snap = i ->
  List.find (fun s => String.eqb (id s) i) (kept ++ [snap]) = Some snap /\
  forall k, findIndex i (kept ++ [snap]) k = (k + Z.of_nat (length kept))%Z.
Proof.
  intros Hk Hi. induction Hk as [|s kept Hs Hk [IH1 IH2]]; cbn [app find findIndex length].
  - rewrite Hi, String.eqb_refl. split; [done|]. intros k. lia.
  - apply String.eqb_neq in Hs. rewrite Hs. split; [done|].
    intros k. rewrite IH2. lia.
Qed.

End SnapshotFacts.

(** ** Further properties of the store *)

Section StoreProperties.
Import Mapping Sorting Store.

(** X16: as long as the state is changed through the store's actions only
    and no import brings more than [maxSnapshots] snapshots, the timeline
    holds at most [maxSnapshots] entries, [currentSnapshotIndex] is -1 or a
    position of the timeline, and [isTimeTravel] is down, so that
    [canTimeTravel] just says that the timeline is not empty. *)
Theorem timeline_bookkeeping {NT : JS.NumberText} (Date_now : nat -> Z)
    (acts : list (Env * Action)) :
  forallb small_import acts = true ->
  (length (timeline (run_actions Date_now acts initial)) <= maxSnapshots)%nat /\
  (-1 <= currentSnapshotIndex (run_actions Date_now acts initial)
      < Z.of_nat (length (timeline (run_actions Date_now acts initial))))%Z /\
  isTimeTravel (run_actions Date_now acts initial) = false /\
  canTimeTravel (run_actions Date_now acts initial)
    = (0 <? length (timeline (run_actions Date_now acts initial)))%nat.
Proof.
  intros Hall.
  destruct (run_actions_timeline_ok Date_now acts initial Hall) as (H1 & H2 & H3).
  { unfold timeline_ok, maxSnapshots. cbn. split; [lia|]. split; [lia|done]. }
  split; [done|]. split; [done|]. split; [done|].
  unfold canTimeTravel. rewrite H3. apply andb_true_r.
Qed.

Lemma timeline_bookkeeping_witness :
  forallb small_import
    [({| now_id := 1; random_part := "a"; now_stamp := 1 |}, a_setData [2; 1]%Z);
     ({| now_id := 2; random_part := "b"; now_stamp := 2 |}, a_startSorting);
     ({| now_id := 3; random_part := "c"; now_stamp := 3 |},
      a_restoreSnapshot "snapshot-1-a")] = true /\
  let st :=
    run_actions (NT := demo_text) (fun _ => 0%Z)
      [({| now_id := 1; random_part := "a"; now_stamp := 1 |}, a_setData [2; 1]%Z);
       ({| now_id := 2; random_part := "b"; now_stamp := 2 |}, a_startSorting);
       ({| now_id := 3; random_part := "c"; now_stamp := 3 |},
        a_restoreSnapshot "snapshot-1-a")] initial in
  (length (timeline st) <= maxSnapshots)%nat /\
  (-1 <= currentSnapshotIndex st < Z.of_nat (length (timeline st)))%Z /\
  isTimeTravel st = false /\
  canTimeTravel st = (0 <? length (timeline st))%nat.
Proof.
  split; [reflexivity|].
  exact (timeline_bookkeeping (NT := demo_text) (fun _ => 0%Z)
    [({| now_id := 1; random_part := "a"; now_stamp := 1 |}, a_setData [2; 1]%Z);
     ({| now_id := 2; random_part := "b"; now_stamp := 2 |}, a_startSorting);
     ({| now_id := 3; random_part := "c"; now_stamp := 3 |},
      a_restoreSnapshot "snapshot-1-a")] eq_refl).
Defined.

(** X17: as long as the state is changed through the store's actions only,
    nothing is imported, [jumpToStep] is given integers and
    [updatePlaybackSpeed] no NaN, the store is never [completed], it is [idle]
    unless steps are loaded, [progress] is a finite number that is at least 0
    and stays below 1, [currentStepInfo] is a step exactly when steps are
    loaded, and the playback speed is a finite number within [0.1, 5]. *)
Theorem store_position {NT : JS.NumberText} (Date_now : nat -> Z)
    (acts : list (Env * Action)) :
  forallb no_import acts = true -> forallb plain_numbers acts = true ->
  playerState (run_actions Date_now acts initial) <> Player.completed /\
  (playerState (run_actions Date_now acts initial) = Player.idle \/
   steps (run_actions Date_now acts initial) <> []) /\
  (exists p, progress (run_actions Date_now acts initial) = JS.Fin p /\
             (0 <= p)%Q /\ (p < 1)%Q) /\
  (is_Some (currentStepInfo (run_actions Date_now acts initial)) <->
   steps (run_actions Date_now acts initial) <> []) /\
  (exists x, playbackSpeed (run_actions Date_now acts initial) = JS.Fin x /\
             (1 # 10 <= x <= 5)%Q).
Proof.
  intros Hall Hplain.
  destruct (run_actions_playback_ok Date_now acts initial Hall Hplain)
    as ((Hc & Hi & Hpos) & _ & Hs).
  { split; [|split; [constructor|]].
    - split; [done|]. split; [by left|by right].
    - exists 1%Q. split; [reflexivity|]. split; discriminate. }
  set (st := run_actions Date_now acts initial) in *.
  split; [done|]. split; [done|]. split; [|split; [|exact Hs]].
  - unfold progress, totalSteps. destruct Hpos as [(k & Hk & Hr)|[Hz Hnil]].
    + destruct (as_integer_inv _ _ Hk) as (q & Hq & Hqk). rewrite Hq.
      assert ((Z.of_nat (length (steps st)) =? 0)%Z = false) as -> by lia.
      assert (0 < inject_Z (Z.of_nat (length (steps st))))%Q as Hn
        by (change 0%Q with (inject_Z 0); rewrite <- Zlt_Qlt; lia).
      unfold JS.of_Z. rewrite div_Fin.
      2:{ intros H0. rewrite H0 in Hn. by apply Qlt_irrefl in Hn. }
      eexists. split; [reflexivity|]. rewrite Hqk. split.
      * apply Qle_shift_div_l; [done|]. rewrite Qmult_0_l.
        change 0%Q with (inject_Z 0). rewrite <- Zle_Qle. lia.
      * apply Qlt_shift_div_r; [done|]. rewrite Qmult_1_l. rewrite <- Zlt_Qlt. lia.
    + rewrite Hnil. cbn [length Z.of_nat Z.eqb]. exists 0%Q.
      split; [reflexivity|]. split; [discriminate|reflexivity].
  - unfold currentStepInfo. destruct Hpos as [(k & Hk & Hr)|[Hz Hnil]].
    + rewrite (ge_integer _ k _ Hk), (lt_integer _ k _ Hk).
      assert ((0 <=? k)%Z && (k <? Z.of_nat (length (steps st)))%Z = true) as ->.
      { apply andb_true_iff. split; lia. }
      split.
      * intros _ Hnil. rewrite Hnil in Hr. cbn [length] in Hr. lia.
      * intros _. by apply (index_in_range _ _ k).
    + rewrite Hnil, Hz. cbn. split; [by intros [? ?]|done].
Qed.

Lemma store_position_witness :
  forallb no_import
    [({| now_id := 1; random_part := "a"; now_stamp := 1 |}, a_startSorting);
     ({| now_id := 2; random_part := "b"; now_stamp := 2 |}, a_pausePlayback);
     ({| now_id := 3; random_part := "c"; now_stamp := 3 |}, a_jumpToStep (JS.of_Z 4));
     ({| now_id := 4; random_part := "d"; now_stamp := 4 |},
      a_updatePlaybackSpeed JS.PosInf)] = true /\
  forallb plain_numbers
    [({| now_id := 1; random_part := "a"; now_stamp := 1 |}, a_startSorting);
     ({| now_id := 2; random_part := "b"; now_stamp := 2 |}, a_pausePlayback);
     ({| now_id := 3; random_part := "c"; now_stamp := 3 |}, a_jumpToStep (JS.of_Z 4));
     ({| now_id := 4; random_part := "d"; now_stamp := 4 |},
      a_updatePlaybackSpeed JS.PosInf)] = true /\
  let st :=
    run_actions (NT := demo_text) (fun _ => 0%Z)
      [({| now_id := 1; random_part := "a"; now_stamp := 1 |}, a_startSorting);
       ({| now_id := 2; random_part := "b"; now_stamp := 2 |}, a_pausePlayback);
       ({| now_id := 3; random_part := "c"; now_stamp := 3 |}, a_jumpToStep (JS.of_Z 4));
       ({| now_id := 4; random_part := "d"; now_stamp := 4 |},
        a_updatePlaybackSpeed JS.PosInf)]
      initial in
  playerState st <> Player.completed /\
  (playerState st = Player.idle \/ steps st <> []) /\
  (exists p, progress st = JS.Fin p /\ (0 <= p)%Q /\ (p < 1)%Q) /\
  (is_Some (currentStepInfo st) <-> steps st <> []) /\
  (exists x, playbackSpeed st = JS.Fin x /\ (1 # 10 <= x <= 5)%Q).
Proof.
  split; [reflexivity|]. split; [reflexivity|].
  exact (store_position (NT := demo_text) (fun _ => 0%Z)
    [({| now_id := 1; random_part := "a"; now_stamp := 1 |}, a_startSorting);
     ({| now_id := 2; random_part := "b"; now_stamp := 2 |}, a_pausePlayback);
     ({| now_id := 3; random_part := "c"; now_stamp := 3 |}, a_jumpToStep (JS.of_Z 4));
     ({| now_id := 4; random_part := "d"; now_stamp := 4 |},
      a_updatePlaybackSpeed JS.PosInf)] eq_refl eq_refl).
Defined.

(** What the two restrictions keep out: with steps loaded and the playback
    paused, [jumpToStep(1.5)] is accepted and leaves [currentStepInfo] without
    a step and [currentData] as it was; and [updatePlaybackSpeed(NaN)] makes
    NaN the playback speed. *)
Example store_fraction_and_NaN {NT : JS.NumberText} :
  let e := {| now_id := 1; random_part := "a"; now_stamp := 1 |} in
  let st := pausePlayback e (startSorting (fun _ => 0%Z) e initial).2 in
  let r := jumpToStep e (JS.Fin (3 # 2)) st in
  playerState st = Player.paused /\ (2 <= length (steps st))%nat /\
  r.1 = None /\ currentStep r.2 = JS.Fin (3 # 2) /\
  steps r.2 = steps st /\ currentData r.2 = currentData st /\
  currentStepInfo r.2 = None /\
  playbackSpeed (updatePlaybackSpeed e JS.NaN st) = JS.NaN /\
  config_playbackSpeed (updatePlaybackSpeed e JS.NaN st) = JS.NaN.
Proof.
  cbn zeta. split; [reflexivity|]. split; [vm_compute; lia|].
  do 6 (split; [vm_compute; reflexivity|]). vm_compute. reflexivity.
Qed.

(** X18: a snapshot saved under an id that the timeline does not hold yet
    can be restored as long as the timeline is not changed: whatever happened
    to the other fields in between, [restoreSnapshot] puts back the data, the
    step, the player state, the algorithm and the steps that were saved,
    points [currentSnapshotIndex] at the snapshot, and leaves the original
    data, the speed and the error message as they are. *)
Theorem snapshot_round_trip (e : Env) (d : string) (ds : option string) (st st2 : Store) :
  isTimeTravel st = false ->
  Forall (fun s => id s <> snapshot_id e) (timeline st) ->
  timeline st2 = timeline (saveSnapshot e d ds st) ->
  exists st3,
    restoreSnapshot (snapshot_id e) st2 = (None, st3) /\
    currentData st3 = currentData st /\ currentStep st3 = currentStep st /\
    playerState st3 = playerState st /\ selectedAlgorithm st3 = selectedAlgorithm st /\
    steps st3 = steps st /\
    timeline st3 = timeline st2 /\
    currentSnapshotIndex st3 = (Z.of_nat (length (timeline st2)) - 1)%Z /\
    isTimeTravel st3 = false /\
    originalData st3 = originalData st2 /\ playbackSpeed st3 = playbackSpeed st2 /\
    errorMessage st3 = errorMessage st2.
Proof.
  intros Ht Hfresh Htl.
  destruct (saveSnapshot_timeline e d ds st Ht)
    as (snap & kept & Hk & Hid & _ & Hss & Hkept & _).
  assert (Forall (fun s => id s <> snapshot_id e) kept) as Hfk.
  { destruct Hkept as [->|[old Hold]]; [done|].
    rewrite Hold in Hfresh. by apply Forall_cons in Hfresh as [_ ?]. }
  destruct (find_snapshot_fresh (snapshot_id e) kept snap Hfk Hid) as [Hfind Hindex].
  unfold restoreSnapshot, find_snapshot. rewrite Htl, Hk, Hfind.
  eexists. split; [reflexivity|].
  cbn [currentData currentStep playerState selectedAlgorithm steps timeline
       currentSnapshotIndex isTimeTravel originalData playbackSpeed errorMessage
       set_isTimeTravel set_currentSnapshotIndex set_steps set_selectedAlgorithm
       set_playerState set_currentStep set_currentData].
  rewrite Hss, Htl, Hk, Hindex, length_app. cbn [length s_currentData s_currentStep
    s_playerState s_selectedAlgorithm s_steps].
  repeat split; try done. lia.
Qed.

Lemma snapshot_round_trip_witness :
  isTimeTravel initial = false /\
  Forall (fun s => id s <> snapshot_id {| now_id := 7; random_part := "x"; now_stamp := 7 |})
    (timeline initial) /\
  exists st3,
    restoreSnapshot (snapshot_id {| now_id := 7; random_part := "x"; now_stamp := 7 |})
      (set_currentData [1; 2]%Z
         (saveSnapshot {| now_id := 7; random_part := "x"; now_stamp := 7 |} "save" None
            initial)) = (None, st3) /\
    currentData st3 = currentData initial /\ currentStep st3 = currentStep initial /\
    playerState st3 = playerState initial /\
    selectedAlgorithm st3 = selectedAlgorithm initial /\
    steps st3 = steps initial /\
    timeline st3
      = timeline (set_currentData [1; 2]%Z
          (saveSnapshot {| now_id := 7; random_part := "x"; now_stamp := 7 |} "save" None
             initial)) /\
    currentSnapshotIndex st3
      = (Z.of_nat (length (timeline (set_currentData [1; 2]%Z
          (saveSnapshot {| now_id := 7; random_part := "x"; now_stamp := 7 |} "save" None
             initial)))) - 1)%Z /\
    isTimeTravel st3 = false /\
    originalData st3
      = originalData (set_currentData [1; 2]%Z
          (saveSnapshot {| now_id := 7; random_part := "x"; now_stamp := 7 |} "save" None
             initial)) /\
    playbackSpeed st3
      = playbackSpeed (set_currentData [1; 2]%Z
          (saveSnapshot {| now_id := 7; random_part := "x"; now_stamp := 7 |} "save" None
             initial)) /\
    errorMessage st3
      = errorMessage (set_currentData [1; 2]%Z
          (saveSnapshot {| now_id := 7; random_part := "x"; now_stamp := 7 |} "save" None
             initial)).
Proof.
  assert (Forall (fun s => id s
                           <> snapshot_id {| now_id := 7; random_part := "x"; now_stamp := 7 |})
            (timeline initial)) as Hfresh by constructor.
  split; [reflexivity|]. split; [exact Hfresh|].
  exact (snapshot_round_trip {| now_id := 7; random_part := "x"; now_stamp := 7 |}
           "save" None initial _ eq_refl Hfresh eq_refl).
Defined.

End StoreProperties.

Section StoreSortingProperties.
Import Mapping Sorting Store.

(** X19: [startSorting] when [canStart] holds.  It sorts [originalData]
    (not the [currentData] that [canStart] looks at): if that is not empty
    the generated steps are stored, both validators accept them, playback
    is [playing] at step 0 with [currentData] reset to the original data
    and a snapshot is taken; if it is empty the generator's error is
    thrown again after its message was stored in [errorMessage], and
    nothing else changes. *)
Theorem startSorting_spec (Date_now : nat -> Z) (e : Env) (st : Store) :
  canStart st = true ->
  (originalData st <> [] ->
   exists stps st',
     generateSteps Date_now (selectedAlgorithm st) (originalData st) = inr stps /\
     startSorting Date_now e st = (None, st') /\
     steps st' = stps /\
     validateStepSequence stps = true /\
     validateSortResult (originalData st) stps = true /\
     playerState st' = Player.playing /\ currentStep st' = JS.of_Z 0 /\
     currentData st' = originalData st /\ originalData st' = originalData st /\
     errorMessage st' = EmptyString /\
     (isTimeTravel st = false ->
      exists snap, last (timeline st') = Some snap /\
                   s_playerState (snap_state snap) = Player.playing /\
                   s_steps (snap_state snap) = stps)) /\
  (originalData st = [] ->
   startSorting Date_now e st
   = (Some InvalidInputError, set_errorMessage (message InvalidInputError) st)).
Proof.
  intros Hcan. split.
  - intros Hne.
    destruct (sort_spec Date_now (selectedAlgorithm st) (originalData st) Hne)
      as (this' & Hr & Hg & s & Hl & Hs & Hp).
    pose proof (numbered_grows Date_now _ _ Hg
                  (numbered_new Date_now (selectedAlgorithm st) (originalData st)))
      as Hnum.
    destruct (numbered_sequence Date_now _ Hnum) as [Hseq Hnd].
    assert (Sorting.steps this' <> []) as Hne' by (intros Hnil; by rewrite Hnil in Hl).
    exists (Sorting.steps this'). unfold startSorting, generateSteps. rewrite Hcan. cbn [negb].
    ssimpl. rewrite Hr. cbn [fst]. eexists. split; [done|]. split; [reflexivity|].
    match goal with
    | |- context [saveSnapshot e ?a ?b ?c] =>
        destruct (saveSnapshot_frame e a b c)
          as (_ & Hod & Hcd & Hst & Hps & Hcs & _ & Hem & _);
        pose proof (saveSnapshot_timeline e a b c) as Htl
    end.
    rewrite Hod, Hcd, Hst, Hps, Hcs, Hem. ssimpl.
    split; [done|]. split.
    { unfold validateStepSequence. rewrite length_nonzero by done.
      apply check_sequence_spec in Hseq. rewrite Hseq. cbn [negb].
      apply length_remove_dups_NoDup in Hnd. rewrite length_map in Hnd.
      rewrite Hnd, Nat.eqb_refl. done. }
    split.
    { unfold validateSortResult, sort_numeric. rewrite length_nonzero by done.
      rewrite Hl. apply bool_decide_eq_true.
      apply (Sorted_unique Z.le);
        [by apply StronglySorted_Sorted|apply Sorted_merge_sort; apply _|].
      by rewrite merge_sort_Permutation. }
    repeat (split; [done|]).
    intros Ht. destruct Htl as (snap & kept & -> & _ & _ & Hss & _); [done|].
    exists snap. rewrite last_snoc, Hss. done.
  - intros Hnil. unfold startSorting. rewrite Hcan. cbn [negb]. ssimpl.
    rewrite Hnil. by destruct (selectedAlgorithm st).
Qed.

Lemma startSorting_spec_witness :
  canStart initial = true /\
  (originalData initial <> [] ->
   exists stps st',
     generateSteps (fun _ => 0%Z) (selectedAlgorithm initial) (originalData initial)
       = inr stps /\
     startSorting (fun _ => 0%Z) {| now_id := 1; random_part := "a"; now_stamp := 1 |}
       initial = (None, st') /\
     steps st' = stps /\
     validateStepSequence stps = true /\
     validateSortResult (originalData initial) stps = true /\
     playerState st' = Player.playing /\ currentStep st' = JS.of_Z 0 /\
     currentData st' = originalData initial /\
     originalData st' = originalData initial /\
     errorMessage st' = EmptyString /\
     (isTimeTravel initial = false ->
      exists snap, last (timeline st') = Some snap /\
                   s_playerState (snap_state snap) = Player.playing /\
                   s_steps (snap_state snap) = stps)) /\
  (originalData initial = [] ->
   startSorting (fun _ => 0%Z) {| now_id := 1; random_part := "a"; now_stamp := 1 |}
     initial
   = (Some InvalidInputError, set_errorMessage (message InvalidInputError) initial)).
Proof.
  split; [reflexivity|].
  exact (startSorting_spec (fun _ => 0%Z)
           {| now_id := 1; random_part := "a"; now_stamp := 1 |} initial eq_refl).
Defined.

(** X20: sort, pause, jump to the last step: the store then shows the
    original data in non-decreasing order, at the last step and still
    [paused]. *)
Theorem jump_to_last_shows_sorted {NT : JS.NumberText} (Date_now : nat -> Z)
    (e1 e2 e3 : Env) (st : Store) :
  canStart st = true -> originalData st <> [] ->
  let st1 := (startSorting Date_now e1 st).2 in
  let st2 := pausePlayback e2 st1 in
  exists st3,
    jumpToStep e3 (JS.of_Z (totalSteps st2 - 1)) st2 = (None, st3) /\
    Sorted Z.le (currentData st3) /\
    currentData st3 ≡ₚ originalData st /\
    currentStep st3 = JS.of_Z (totalSteps st3 - 1) /\
    currentStepInfo st3 = last (steps st3) /\
    playerState st3 = Player.paused.
Proof.
  intros Hcan Hne st1 st2.
  destruct (sort_spec Date_now (selectedAlgorithm st) (originalData st) Hne)
    as (this' & Hr & _ & s & Hl & Hs & Hp).
  assert (Sorting.steps this' <> []) as Hne' by (intros Hnil; by rewrite Hnil in Hl).
  assert (steps st1 = Sorting.steps this' /\ playerState st1 = Player.playing) as [Hst1 Hps1].
  { subst st1. unfold startSorting. rewrite Hcan. cbn [negb]. ssimpl. rewrite Hr.
    cbn [fst snd].
    match goal with
    | |- context [saveSnapshot e1 ?a ?b ?c] =>
        destruct (saveSnapshot_frame e1 a b c) as (_ & _ & _ & Hst & Hps & _)
    end.
    by rewrite Hst, Hps. }
  assert (steps st2 = Sorting.steps this' /\ playerState st2 = Player.paused) as [Hst2 Hps2].
  { subst st2. unfold pausePlayback. rewrite Hps1. cbn [Player.PlayerState_eqb].
    match goal with
    | |- context [saveSnapshot e2 ?a ?b ?c] =>
        destruct (saveSnapshot_frame e2 a b c) as (_ & _ & _ & Hst & Hps & _)
    end.
    by rewrite Hst, Hps. }
  clearbody st2. clear st1 Hst1 Hps1.
  pose proof (proj1 (last_Some _ _) Hl) as [front Hfront].
  assert (Z.to_nat (totalSteps st2 - 1) = length front) as Hidx.
  { unfold totalSteps. rewrite Hst2, Hfront, length_app. cbn [length]. lia. }
  assert (0 < totalSteps st2)%Z as Hpos.
  { unfold totalSteps. rewrite Hst2. destruct (Sorting.steps this'); [done|cbn [length]; lia]. }
  pose proof (as_integer_of_Z (totalSteps st2 - 1)) as Hint.
  unfold jumpToStep, canNavigate. rewrite Hps2. cbn [Player.PlayerState_eqb negb andb].
  assert ((0 <? totalSteps st2)%Z = true) as -> by lia. cbn [negb].
  rewrite (lt_integer _ _ _ Hint), (ge_integer _ _ _ Hint).
  assert (((totalSteps st2 - 1 <? 0)%Z || (totalSteps st2 <=? totalSteps st2 - 1)%Z)
          = false) as ->.
  { apply orb_false_iff. split; lia. }
  unfold step_at. ssimpl. rewrite (index_integer _ _ _ Hint).
  assert ((totalSteps st2 - 1 <? 0)%Z = false) as -> by lia.
  rewrite Hidx, Hst2, Hfront.
  rewrite (list_lookup_middle front [] s (length front)) by done.
  eexists. split; [reflexivity|].
  match goal with
  | |- context [saveSnapshot e3 ?a ?b ?c] =>
      destruct (saveSnapshot_frame e3 a b c) as (_ & _ & Hcd & Hst & Hps & Hcs & _)
  end.
  unfold currentStepInfo, totalSteps in *. rewrite Hcd, Hst, Hps, Hcs. ssimpl.
  rewrite Hst2, Hfront in *.
  split; [by apply StronglySorted_Sorted|]. split; [done|]. split; [done|].
  split; [|done].
  rewrite last_snoc, (ge_integer _ _ _ Hint), (lt_integer _ _ _ Hint).
  assert ((0 <=? Z.of_nat (length (front ++ [s])) - 1)%Z
          && (Z.of_nat (length (front ++ [s])) - 1 <? Z.of_nat (length (front ++ [s])))%Z
          = true) as ->.
  { apply andb_true_iff. split; lia. }
  rewrite (index_integer _ _ _ Hint).
  assert ((Z.of_nat (length (front ++ [s])) - 1 <? 0)%Z = false) as -> by lia.
  rewrite Hidx. by apply list_lookup_middle.
Qed.

Lemma jump_to_last_shows_sorted_witness :
  canStart initial = true /\ originalData initial <> [] /\
  let st1 := (startSorting (fun _ => 0%Z)
                {| now_id := 1; random_part := "a"; now_stamp := 1 |} initial).2 in
  let st2 := pausePlayback (NT := demo_text)
               {| now_id := 2; random_part := "b"; now_stamp := 2 |} st1 in
  exists st3,
    jumpToStep (NT := demo_text) {| now_id := 3; random_part := "c"; now_stamp := 3 |}
      (JS.of_Z (totalSteps st2 - 1)) st2 = (None, st3) /\
    Sorted Z.le (currentData st3) /\
    currentData st3 ≡ₚ originalData initial /\
    currentStep st3 = JS.of_Z (totalSteps st3 - 1) /\
    currentStepInfo st3 = last (steps st3) /\
    playerState st3 = Player.paused.
Proof.
  split; [reflexivity|]. split; [done|].
  exact (jump_to_last_shows_sorted (NT := demo_text) (fun _ => 0%Z)
           {| now_id := 1; random_part := "a"; now_stamp := 1 |}
           {| now_id := 2; random_part := "b"; now_stamp := 2 |}
           {| now_id := 3; random_part := "c"; now_stamp := 3 |}
           initial eq_refl ltac:(done)).
Defined.

End StoreSortingProperties.

(** ** Properties of the theme manager *)

Section ThemeProperties.
Import Theme.

(** X21: the theme shown is the user's latest choice, the one found in
    [localStorage] at start-up counting as a choice; as long as there is
    none it follows the system preference, and once there is one the
    system preference is ignored.  The [data-theme] attribute always
    carries the theme shown, and the stored choice is the latest choice. *)
Theorem theme_follows_choice (saved attr : option Theme) (dark : bool)
    (evs : list ThemeEvent) :
  stored (theme_run evs (new_ThemeManager saved attr dark)) = chosen saved evs /\
  getTheme (theme_run evs (new_ThemeManager saved attr dark))
    = match chosen saved evs with
      | Some t => t
      | None => system_theme (system_now dark evs)
      end /\
  data_theme (theme_run evs (new_ThemeManager saved attr dark))
    = Some (getTheme (theme_run evs (new_ThemeManager saved attr dark))).
Proof.
  unfold getTheme.
  assert (forall evs m saved dark,
            stored m = saved ->
            currentTheme m = match saved with Some t => t | None => system_theme dark end ->
            data_theme m = Some (currentTheme m) ->
            stored (theme_run evs m) = chosen saved evs /\
            currentTheme (theme_run evs m)
              = match chosen saved evs with
                | Some t => t
                | None => system_theme (system_now dark evs)
                end /\
            data_theme (theme_run evs m) = Some (currentTheme (theme_run evs m))) as Hinv.
  { clear. induction evs as [|ev evs IH]; intros m saved dark Hs Hc Hd; [by subst|].
    unfold theme_run. cbn [fold_left]. fold (theme_run evs (theme_step ev m)).
    destruct ev as [t|b|]; cbn [theme_step chosen system_now].
    - by apply IH.
    - unfold handleSystemThemeChange. rewrite Hs. destruct saved as [t|].
      + by destruct (IH m (Some t) b Hs Hc Hd) as (H1 & H2 & H3).
      + by apply IH.
    - by apply IH. }
  by apply Hinv.
Qed.

End ThemeProperties.
